(** * MAS-MWY calculator: the numerical engine of [app.js]

    A shallow embedding of the Hu-Lee-Sum correlation engine of the
    hydrate-based desalination calculator ([src/app.js]) and the
    properties its specification states about it.

    Numbers, in exact arithmetic.  A JavaScript number is embedded as
    [JS.num]: an exact rational, one of the two infinities, or NaN.  The
    exceptional values follow IEEE 754 (NaN propagates, [x/0] is infinite,
    every comparison with NaN is false), so the [isFinite] guards of the
    source keep their meaning.  Finite values are computed exactly, every
    result being reduced to lowest terms ([Qred]); binary rounding,
    overflow to infinity and the sign of zero are outside this model.
    Finite numbers are compared up to the equality [==] of rationals,
    which [JS.eqv] lifts to [JS.num].  What is proved of this model is
    proved of the program's formulas computed without rounding: its
    control flow, its guards, its algebraic identities and its tolerances.

    Numbers, in binary64.  The arithmetic functions of the engine are
    embedded a second time, in the module [F64], over Rocq's primitive
    binary64 floats, which round, overflow and sign their zeros as the
    numbers of the program do.  There the identities and strict orders of
    the exact model hold up to rounding only; the statements about [F64]
    are proved by evaluation, at explicit inputs or over explicit grids of
    inputs, the values being compared as exact rationals ([F64.toQ]).  A
    statement that says "in exact arithmetic" is about the first embedding,
    one that says "in binary64" about the second. *)

From Corelib Require Import PrimFloat FloatOps SpecFloat.
From Stdlib Require Import QArith Qabs Lqa Lia ZArith.
From stdpp Require Import gmap strings list.

Open Scope Q_scope.

(** ** JavaScript numbers *)

Module JS.

Inductive num : Type :=
| Fin (q : Q)
| PInf
| NInf
| NaN.

(** The infinity (or NaN) a sign stands for. *)
Definition inf_of (c : comparison) : num :=
  match c with Gt => PInf | Lt => NInf | Eq => NaN end.

Definition neg (a : num) : num :=
  match a with
  | Fin x => Fin (- x)
  | PInf => NInf
  | NInf => PInf
  | NaN => NaN
  end.

Definition add (a b : num) : num :=
  match a, b with
  | NaN, _ | _, NaN => NaN
  | Fin x, Fin y => Fin (Qred (x + y))
  | PInf, NInf | NInf, PInf => NaN
  | PInf, _ | _, PInf => PInf
  | NInf, _ | _, NInf => NInf
  end.

Definition sub (a b : num) : num := add a (neg b).

Definition mul (a b : num) : num :=
  match a, b with
  | NaN, _ | _, NaN => NaN
  | Fin x, Fin y => Fin (Qred (x * y))
  | Fin x, PInf | PInf, Fin x => inf_of (x ?= 0)
  | Fin x, NInf | NInf, Fin x => inf_of (0 ?= x)
  | PInf, PInf | NInf, NInf => PInf
  | PInf, NInf | NInf, PInf => NInf
  end.

(** Division; a zero divisor counts as [+0]. *)
Definition div (a b : num) : num :=
  match a, b with
  | NaN, _ | _, NaN => NaN
  | Fin x, Fin y =>
      if Qeq_bool y 0 then inf_of (x ?= 0) else Fin (Qred (x / y))
  | Fin _, _ => Fin 0
  | PInf, Fin y => if Qle_bool 0 y then PInf else NInf
  | NInf, Fin y => if Qle_bool 0 y then NInf else PInf
  | _, _ => NaN
  end.

(** [a < b], [a <= b]: false as soon as one side is NaN. *)
Definition ltb (a b : num) : bool :=
  match a, b with
  | NaN, _ | _, NaN => false
  | Fin x, Fin y => negb (Qle_bool y x)
  | _, NInf => false
  | PInf, _ => false
  | _, _ => true
  end.

Definition leb (a b : num) : bool :=
  match a, b with
  | NaN, _ | _, NaN => false
  | Fin x, Fin y => Qle_bool x y
  | NInf, _ => true
  | _, PInf => true
  | _, _ => false
  end.

Definition gtb (a b : num) : bool := ltb b a.
Definition geb (a b : num) : bool := leb b a.

Definition isFinite (a : num) : bool :=
  match a with Fin _ => true | _ => false end.

Definition isNaN (a : num) : bool :=
  match a with NaN => true | _ => false end.

(** Truthiness of a number: everything but zero and NaN. *)
Definition truthy (a : num) : bool :=
  match a with
  | Fin x => negb (Qeq_bool x 0)
  | NaN => false
  | _ => true
  end.

(** [a || b] on numbers. *)
Definition or_else (a b : num) : num := if truthy a then a else b.

(** [Math.max], [Math.min], [Math.abs]. *)
Definition max (a b : num) : num :=
  match a, b with
  | NaN, _ | _, NaN => NaN
  | _, _ => if ltb a b then b else a
  end.

Definition min (a b : num) : num :=
  match a, b with
  | NaN, _ | _, NaN => NaN
  | _, _ => if ltb b a then b else a
  end.

Definition abs (a : num) : num :=
  match a with
  | Fin x => Fin (Qabs x)
  | NaN => NaN
  | _ => PInf
  end.

(** [Math.pow(x, n)] for a non-negative integer [n]; [Math.pow(x, 0)] is 1
    for every [x], NaN included. *)
Fixpoint pow (x : num) (n : nat) : num :=
  match n with
  | O => Fin 1
  | S O => x
  | S k => mul x (pow x k)
  end.

(** Equality of numbers as values: finite ones as rationals. *)
Definition eqv (a b : num) : Prop :=
  match a, b with
  | Fin x, Fin y => x == y
  | PInf, PInf | NInf, NInf | NaN, NaN => True
  | _, _ => False
  end.

End JS.

Import JS.

Coercion Fin : Q >-> num.

Declare Scope num_scope.
Delimit Scope num_scope with num.
Bind Scope num_scope with num.
Infix "+" := add : num_scope.
Infix "-" := sub : num_scope.
Infix "*" := mul : num_scope.
Infix "/" := div : num_scope.
Notation "- a" := (neg a) : num_scope.
Infix "<?" := ltb : num_scope.
Infix "<=?" := leb : num_scope.
Infix ">?" := gtb : num_scope.
Infix ">=?" := geb : num_scope.

(** ** Completions

    What a call can raise.  [TypeError] and [RangeError] are the
    exceptions the runtime raises by itself in the embedded code (reading a
    property of [undefined], [new Array] with a negative length).  The
    source has no [throw] statement; [AppError] is the place of an error
    value of the specification's taxonomy, were the program to raise one. *)

Inductive spec_error : Type :=
| UnknownSpecies
| NoReferenceData
| InvalidRange
| NoFeasiblePoints.

Inductive exn : Type :=
| TypeError
| RangeError
| AppError (e : spec_error).

Inductive completion (A : Type) : Type :=
| Normal (a : A)
| Throw (e : exn).

Arguments Normal {A} a.
Arguments Throw {A} e.

Definition bind {A B : Type} (c : completion A) (k : A -> completion B)
  : completion B :=
  match c with
  | Normal a => k a
  | Throw e => Throw e
  end.

Notation "'let*' x ':=' c 'in' k" := (bind c (fun x => k))
  (at level 10, x name, c at level 100, k at level 200).

(** ** Constants *)

(** Hu-Lee-Sum water-activity coefficients. *)
Definition B1 : Q := -1.06152.
Definition B2 : Q := 3.25726.
Definition B3 : Q := -37.2263.

(** Molar mass of pure water (g/mol). *)
Definition WATER_MOLAR_MASS : Q := 18.01528.

(** Structure II correction coefficient. *)
Definition ALPHA_SII : Q := 0.927.

(** ** Salts *)

Record salt : Type := { molarMass : num; ionCount : num }.

Definition saltProps : gmap string salt :=
  <["NaCl" := {| molarMass := 58.44; ionCount := 2 |}]>
  (<["KCl" := {| molarMass := 74.55; ionCount := 2 |}]>
  (<["MgCl2" := {| molarMass := 95.21; ionCount := 3 |}]> ∅)).

(** The property names every object literal inherits from
    [Object.prototype]. *)
Definition objectPrototypeKeys : list string :=
  [ "constructor"; "hasOwnProperty"; "isPrototypeOf"; "propertyIsEnumerable";
    "toLocaleString"; "toString"; "valueOf"; "__proto__";
    "__defineGetter__"; "__defineSetter__"; "__lookupGetter__";
    "__lookupSetter__" ]%string.

Definition inherited (key : string) : bool :=
  bool_decide (key ∈ objectPrototypeKeys).

(** [const { molarMass, ionCount } = saltProps[saltKey]].  An own key gives
    its record.  An inherited key gives an object without these two
    properties: both are [undefined], which is NaN in arithmetic.  Any
    other key gives [undefined], and destructuring it raises. *)
Definition destructureSalt (saltKey : string) : completion salt :=
  match saltProps !! saltKey with
  | Some p => Normal p
  | None =>
      if inherited saltKey
      then Normal {| molarMass := NaN; ionCount := NaN |}
      else Throw TypeError
  end.

(** ** ElectrolyteModel *)

Definition computeXFromSalinity (salinity : num) (saltKey : string)
  : completion num :=
  let* p := destructureSalt saltKey in
  let massSalt := salinity in
  let massWater := (100 - salinity)%num in
  let molesSalt := (massSalt / molarMass p)%num in
  let molesWater := (massWater / WATER_MOLAR_MASS)%num in
  if String.eqb saltKey "MgCl2" then
    let totalMoles := (molesWater + 3 * molesSalt)%num in
    Normal ((4 * molesSalt) / totalMoles)%num
  else
    let totalMoles := (molesWater + 2 * molesSalt)%num in
    Normal ((2 * molesSalt) / totalMoles)%num.

Definition computeSalinityFromX (X : num) (saltKey : string)
  : completion num :=
  let* p := destructureSalt saltKey in
  if String.eqb saltKey "MgCl2" then
    Normal ((molarMass p * X * 100) /
            ((4 - 3 * X) * WATER_MOLAR_MASS + molarMass p * X))%num
  else
    Normal ((molarMass p * X * 100) /
            ((2 - 2 * X) * WATER_MOLAR_MASS + molarMass p * X))%num.

(** ** ActivityCorrelation *)

Definition computeLnawFromX (X : num) : num :=
  (B1 * X + B2 * X * X + B3 * X * X * X)%num.

(** The cubic of [computeLnawFromX] on rationals: its value at a finite
    [X] (lemma [computeLnawFromX_Fin]). *)
Definition lnawQ (X : Q) : Q := B1 * X + B2 * X * X + B3 * X * X * X.

(** ** EquilibriumShiftModel *)

Definition computeDeltaT (beta lnaw T0 : num) : num :=
  ((beta * lnaw * T0 * T0) / (1 + beta * lnaw * T0))%num.

Definition computeLnawFromDelta (beta dT T0 : num) : num :=
  let denominator := (beta * T0 * (T0 - dT))%num in
  (dT / denominator)%num.

(** ** RootFinder *)

(** [f(X) = computeLnawFromX(X) - lnawTarget]. *)
Definition solve_f (lnawTarget X : num) : num :=
  (computeLnawFromX X - lnawTarget)%num.

(** [while (f(high) > 0 && high < 1) high += 0.1].  [fuel] bounds the
    number of iterations; [expandHigh_fuel] shows that eight are always
    enough from [high = 0.2], so that the bound is never what stops the
    loop. *)
Fixpoint expandHigh (fuel : nat) (lnawTarget high : num) : num :=
  match fuel with
  | O => high
  | S fuel' =>
      if (solve_f lnawTarget high >? 0)%num && (high <? 1)%num
      then expandHigh fuel' lnawTarget (high + 0.1)%num
      else high
  end.

(** One pass of the bisection loop on the bracket [(low, high)]. *)
Definition bisectStep (lnawTarget : num) (b : num * num) : num * num :=
  let '(low, high) := b in
  let mid := ((low + high) / 2)%num in
  let val := solve_f lnawTarget mid in
  if (val >? 0)%num then (mid, high) else (low, mid).

(** [for (let i = 0; i < n; i++)] of the bisection. *)
Fixpoint bisect (n : nat) (lnawTarget : num) (b : num * num) : num * num :=
  match n with
  | O => b
  | S n' => bisect n' lnawTarget (bisectStep lnawTarget b)
  end.

Definition solveXFromLnaw (lnawTarget : num) : num :=
  let low : num := 0 in
  let high := expandHigh 8 lnawTarget 0.2 in
  let '(low, high) := bisect 50 lnawTarget (low, high) in
  ((low + high) / 2)%num.

(** The midpoint the bisection computes for a finite bracket, and the
    width of a bracket after [n] halvings (used to state the lemmas on
    [bisect]). *)
Definition midQ (lo hi : Q) : Q := Qred (Qred (lo + hi) / 2).

Fixpoint halvings (n : nat) (w : Q) : Q :=
  match n with
  | O => w
  | S n' => halvings n' (w / 2)
  end.

(** ** Arrays and loops *)

(** [a[i]] read in arithmetic: a missing element is [undefined], NaN. *)
Definition idx (a : list num) (i : nat) : num := default NaN (a !! i).

Definition matrix : Type := list (list num).

(** [A[r][j]] and [A[r][j] = v]; the source keeps [r] and [j] within the
    bounds of [A]. *)
Definition idx2 (A : matrix) (r j : nat) : num := idx (default [] (A !! r)) j.

Definition set2 (A : matrix) (r j : nat) (v : num) : matrix :=
  <[r := <[j := v]> (default [] (A !! r))]> A.

(** [[a[i], a[j]] = [a[j], a[i]]]. *)
Definition swap {X : Type} (a : list X) (i j : nat) : list X :=
  match a !! i, a !! j with
  | Some u, Some v => <[j := u]> (<[i := v]> a)
  | _, _ => a
  end.

(** [for (let i = lo; i < hi; i++) body] threading the state [s]. *)
Definition for_range {St : Type} (lo hi : nat) (body : nat -> St -> St)
  (s : St) : St :=
  fold_left (fun s i => body i s) (seq lo (hi - lo)) s.

(** ** ReferenceCurveFit: least-squares polynomial *)

(** Power sums [S[i]] of the abscissas, [i <= 2d]. *)
Definition powerSums (xs : list num) (d : nat) : list num :=
  for_range 0 (length xs)
    (fun k S =>
       fst (for_range 0 (2 * d + 1)
              (fun i '(S, xp) =>
                 (<[i := (idx S i + xp)%num]> S, (xp * idx xs k)%num))
              (S, Fin 1)))
    (replicate (2 * d + 1) (Fin 0)).

(** [A[i][j] = S[i + j]]. *)
Definition normalMatrix (S : list num) (d : nat) : matrix :=
  for_range 0 (d + 1)
    (fun i A =>
       for_range 0 (d + 1) (fun j A => set2 A i j (idx S (i + j))) A)
    (replicate (d + 1) (replicate (d + 1) (Fin 0))).

(** [b[i] += ys[k] * Math.pow(xs[k], i)]. *)
Definition moments (xs ys : list num) (d : nat) : list num :=
  for_range 0 (d + 1)
    (fun i b =>
       for_range 0 (length xs)
         (fun k b => <[i := (idx b i + idx ys k * pow (idx xs k) i)%num]> b)
         b)
    (replicate (d + 1) (Fin 0)).

(** Partial pivoting: the row of the largest [|A[r][i]|], [r >= i]. *)
Definition findMaxRow (A : matrix) (i d : nat) : nat :=
  for_range (i + 1) (d + 1)
    (fun r maxRow =>
       if (abs (idx2 A r i) >? abs (idx2 A maxRow i))%num then r else maxRow)
    i.

(** [const pivot = A[i][i] || 1e-12]. *)
Definition pivotOf (A : matrix) (i : nat) : num := or_else (idx2 A i i) 1e-12.

(** One pass of the elimination loop, for column [i].  The third component
    of the state is not in the source: it records the divisors used so
    far. *)
Definition elimStep (d i : nat) (st : matrix * list num * list num)
  : matrix * list num * list num :=
  let '(A, c, divisors) := st in
  let maxRow := findMaxRow A i d in
  let '(A, c) :=
    if Nat.eqb maxRow i then (A, c) else (swap A i maxRow, swap c i maxRow) in
  let pivot := pivotOf A i in
  let A := for_range i (d + 1)
             (fun j A => set2 A i j (idx2 A i j / pivot)%num) A in
  let c := <[i := (idx c i / pivot)%num]> c in
  let '(A, c) :=
    for_range 0 (d + 1)
      (fun r '(A, c) =>
         if Nat.eqb r i then (A, c) else
         let f := idx2 A r i in
         let A := for_range i (d + 1)
                    (fun j A => set2 A r j (idx2 A r j - f * idx2 A i j)%num)
                    A in
         (A, <[r := (idx c r - f * idx c i)%num]> c))
      (A, c) in
  (A, c, divisors ++ [pivot]).

(** The body of [fitPolynomial]: the coefficients and the divisors of the
    elimination.  [new Array(2 * d + 1)] raises for a negative length. *)
Definition fitPolynomial_run (xs ys : list num) (degree : Z)
  : completion (list num * list num) :=
  let n := length xs in
  let dz := Z.min degree (Z.of_nat n - 1) in
  if (2 * dz + 1 <? 0)%Z then Throw RangeError else
  let d := Z.to_nat dz in
  let S := powerSums xs d in
  let A := normalMatrix S d in
  let b := moments xs ys d in
  let c := b in
  let '(_, c, divisors) := for_range 0 (d + 1) (elimStep d) (A, c, []) in
  Normal (c, divisors).

Definition fitPolynomial (xs ys : list num) (degree : Z)
  : completion (list num) :=
  let* r := fitPolynomial_run xs ys degree in Normal (fst r).

Definition evalPolynomial (coeffs : list num) (x : num) : num :=
  fst (for_range 0 (length coeffs)
         (fun i '(y, xp) => ((y + idx coeffs i * xp)%num, (xp * x)%num))
         (Fin 0, Fin 1)).

(** ** ReferenceCurveFit: monotone cubic spline *)

Record spline : Type :=
  { sp_x : list num; sp_y : list num; sp_h : list num; sp_d : list num }.

(** Boundary derivative: zero when its sign differs from the secant's,
    capped at three times the secant. *)
Definition clipEnd (d0 delta : num) : num :=
  if (d0 * delta <=? 0)%num then Fin 0
  else if (abs d0 >? 3 * abs delta)%num then (3 * delta)%num
  else d0.

(** [new Array(n - 1)] raises for [n = 0].  Elements read before they are
    written, or outside the arrays, are [undefined]: NaN in arithmetic.
    The indices [n - 2] and [n - 3] are negative only for [n = 1], where
    [h] and [delta] are empty and every read of them is [undefined]. *)
Definition buildMonotoneSpline (x y : list num) : completion spline :=
  let n := length x in
  if Nat.eqb n 0 then Throw RangeError else
  let h := map (fun i => (idx x (i + 1) - idx x i)%num) (seq 0 (n - 1)) in
  let delta :=
    map (fun i => ((idx y (i + 1) - idx y i) / idx h i)%num) (seq 0 (n - 1)) in
  let d := replicate n NaN in
  let d :=
    if Nat.eqb n 2 then <[1%nat := idx delta 0]> (<[0%nat := idx delta 0]> d)
    else
      let d0 := (((2 * idx h 0 + idx h 1) * idx delta 0
                  - idx h 0 * idx delta 1) / (idx h 0 + idx h 1))%num in
      let d := <[0%nat := clipEnd d0 (idx delta 0)]> d in
      let dn := (((2 * idx h (n - 2) + idx h (n - 3)) * idx delta (n - 2)
                  - idx h (n - 2) * idx delta (n - 3))
                 / (idx h (n - 2) + idx h (n - 3)))%num in
      let d := <[(n - 1)%nat := clipEnd dn (idx delta (n - 2))]> d in
      for_range 1 (n - 1)
        (fun i d =>
           if (idx delta (i - 1) * idx delta i <=? 0)%num
           then <[i := Fin 0]> d
           else
             let w1 := (2 * idx h i + idx h (i - 1))%num in
             let w2 := (idx h i + 2 * idx h (i - 1))%num in
             <[i := ((w1 + w2)
                     / (w1 / idx delta (i - 1) + w2 / idx delta i))%num]> d)
        d in
  Normal {| sp_x := x; sp_y := y; sp_h := h; sp_d := d |}.

(** [let i = 0; while (i < n - 1 && xp > x[i + 1]) i++], entered with
    [fuel = n - 1 - i]: the loop leaves by [i < n - 1] when [fuel] is 0. *)
Fixpoint splineSegment (x : list num) (xp : num) (i fuel : nat) : nat :=
  match fuel with
  | O => i
  | S fuel' =>
      if (xp >? idx x (i + 1))%num then splineSegment x xp (i + 1) fuel' else i
  end.

Definition evalMonotoneSpline (s : spline) (xp : num) : num :=
  let x := sp_x s in let y := sp_y s in
  let h := sp_h s in let d := sp_d s in
  let n := length x in
  if (xp <=? idx x 0)%num then idx y 0
  else if (xp >=? idx x (n - 1))%num then idx y (n - 1)
  else
    let i := splineSegment x xp 0 (n - 1) in
    let t := ((xp - idx x i) / idx h i)%num in
    let h00 := ((1 + 2 * t) * (1 - t) * (1 - t))%num in
    let h10 := (t * (1 - t) * (1 - t))%num in
    let h01 := (t * t * (3 - 2 * t))%num in
    let h11 := (t * t * (t - 1))%num in
    (h00 * idx y i + h10 * idx h i * idx d i
     + h01 * idx y (i + 1) + h11 * idx h i * idx d (i + 1))%num.

(** ** Gases *)

(** A gas object.  [data] holds the (temperature K, pressure MPa)
    pairs; the fixed-reference gas has [t0_atm] and no [data]. *)
Record gas : Type :=
  { structure : string;
    betaX : num;
    data : option (list (num * num));
    t0_atm : option num }.

Definition mkGas (st : string) (b : Q) (pts : list (Q * Q)) : gas :=
  {| structure := st; betaX := b;
     data := Some (map (fun p => (Fin (fst p), Fin (snd p))) pts);
     t0_atm := None |}.

Definition CH4_data : list (Q * Q) :=
  [
    (273.4, 2.68); (274.6, 3.05); (276.7, 3.72); (278.3, 4.39);
    (279.6, 5.02); (280.9, 5.77); (282.3, 6.65); (283.6, 7.59);
    (284.7, 8.55); (285.7, 9.17); (286.4, 10.5) ].

Definition C2H6_data : list (Q * Q) :=
  [
    (273.7055556, 0.51021204); (274.8166667, 0.579159613);
    (275.9277778, 0.661896701); (277.5944444, 0.813581361);
    (278.7055556, 0.930792236); (279.2611111, 1.006634566);
    (279.8166667, 1.082476896); (280.3722222, 1.165213984);
    (280.9277778, 1.254845829); (281.4833333, 1.344477674);
    (282.0388889, 1.447899033); (282.5944444, 1.55821515);
    (283.15, 1.689215539); (284.2611111, 1.985690102);
    (285.3722222, 2.302848938); (286.4833333, 2.730323891) ].

Definition C3H8_data : list (Q * Q) :=
  [
    (273.6, 0.207); (274.6, 0.248); (276.2, 0.338); (277.2, 0.417);
    (278.0, 0.51) ].

Definition CO2_data : list (Q * Q) :=
  [
    (274.3, 1.42); (275.5, 1.63); (276.8, 1.9); (277.6, 2.11);
    (279.1, 2.55); (280.6, 3.12); (281.5, 3.51); (282.1, 3.81);
    (282.9, 4.37) ].

Definition gasData : gmap string gas :=
  <["CH4" := mkGas "sI" (-0.9115) CH4_data]>
  (<["C2H6" := mkGas "sI" (-0.8657) C2H6_data]>
  (<["C3H8" := mkGas "sII" (-1.0582) C3H8_data]>
  (<["CO2" := mkGas "sI" (-0.9143) CO2_data]>
  (<["CP" := {| structure := "sII"; betaX := -1.2426; data := None;
                t0_atm := Some (Fin 280.15) |}]> ∅)))).

(** The controls of the page the engine reads.  [customStructure] is the
    value of its box (empty when unset) and [customBetaX] the number
    [parseFloat] makes of the beta box or, when that is empty, of its
    default [-1.0].  [customTPData] is the text of the custom-gas box
    already split into lines and parsed, one (T, P) pair for each line
    with two fields; [None] in [t0FitMethodSelect] is a page without that
    control. *)
Record page : Type :=
  { customStructure : string;
    customBetaX : num;
    customTPData : list (num * num);
    siiAlphaToggle : bool;
    t0FitMethodSelect : option string }.

(** [if (isFinite(T) && isFinite(P)) pts.push([T, P])]. *)
Definition getCustomDataPoints (ui : page) : list (num * num) :=
  filter (fun p => isFinite (fst p) && isFinite (snd p) = true)
    (customTPData ui).

(** [getGasObject]: [None] is [undefined].  A key inherited from
    [Object.prototype] gives an object with none of the gas properties. *)
Definition getGasObject (ui : page) (gasKey : string) : option gas :=
  if String.eqb gasKey "Custom" then
    Some {| structure := if String.eqb (customStructure ui) EmptyString
                         then "sI"%string else customStructure ui;
            betaX := customBetaX ui;
            data := Some (getCustomDataPoints ui);
            t0_atm := None |}
  else
    match gasData !! gasKey with
    | Some g => Some g
    | None =>
        if inherited gasKey
        then Some {| structure := EmptyString; betaX := NaN; data := None;
                     t0_atm := None |}
        else None
    end.

(** ** ReferenceCurveFit: T0(P) and its caches *)

(** The process-wide state: the object [t0FitCache] and the property
    [getT0AtPressure._splineCache], [undefined] ([None]) until the first
    spline request creates it. *)
Record caches : Type :=
  { t0FitCache : gmap string (list num);
    splineCache : option (gmap string spline) }.

Definition noCaches : caches := {| t0FitCache := ∅; splineCache := None |}.

(** [getT0AtPressure(gasKey, P, method)].  An empty [method] is a falsy
    (or omitted) argument.  Both fits are looked up and stored under
    [gasKey] alone. *)
Definition getT0AtPressure (ui : page) (gasKey : string) (P : num)
  (method : string) (st : caches) : completion (num * caches) :=
  match getGasObject ui gasKey with
  | None => Normal (NaN, st)
  | Some gas =>
      if String.eqb gasKey "CP" then Normal (default NaN (t0_atm gas), st) else
      let pts := default [] (data gas) in
      if Nat.eqb (length pts) 0 then Normal (NaN, st) else
      let methodSel :=
        if String.eqb method EmptyString
        then default "poly"%string (t0FitMethodSelect ui) else method in
      let xs := map snd pts in
      let ys := map fst pts in
      if String.eqb methodSel "spline" then
        let cache := default ∅ (splineCache st) in
        match cache !! gasKey with
        | Some sp =>
            Normal (evalMonotoneSpline sp P,
                    {| t0FitCache := t0FitCache st;
                       splineCache := Some cache |})
        | None =>
            let* sp := buildMonotoneSpline xs ys in
            Normal (evalMonotoneSpline sp P,
                    {| t0FitCache := t0FitCache st;
                       splineCache := Some (<[gasKey := sp]> cache) |})
        end
      else
        match t0FitCache st !! gasKey with
        | Some coeffs => Normal (evalPolynomial coeffs P, st)
        | None =>
            let deg := Z.min 3 (Z.of_nat (length xs) - 1) in
            let* coeffs := fitPolynomial xs ys deg in
            Normal (evalPolynomial coeffs P,
                    {| t0FitCache := <[gasKey := coeffs]> (t0FitCache st);
                       splineCache := splineCache st |})
        end
  end.

(** ** Effective beta *)

Definition computeBetaCustom (ui : page) (gasKey : string)
  (useAlphaFlag : bool) : completion num :=
  match getGasObject ui gasKey with
  | None => Throw TypeError
  | Some gas =>
      let betaBase := (betaX gas * 1e-3)%num in
      let alpha : num :=
        if String.eqb (structure gas) "sII" && useAlphaFlag
        then ALPHA_SII else 1 in
      Normal (betaBase * alpha)%num
  end.

Definition computeBeta (ui : page) (gasKey : string) : completion num :=
  computeBetaCustom ui gasKey (siiAlphaToggle ui).

(** ** MassBalanceEngine, as the 1-D sweep computes it *)

Definition massBalanceMWY (initialNaClG initialWaterG mas : num) : num :=
  let totalWaterInSolutionTmp := (initialNaClG * (100 / mas - 1))%num in
  let waterInHydrateTmp := (initialWaterG - totalWaterInSolutionTmp)%num in
  ((waterInHydrateTmp / initialWaterG) * 100)%num.

(** ** SweepEngine, 1-D *)

(** One emitted step: the values pushed on the parallel result arrays. *)
Record sweepPoint : Type :=
  { p_dT_extra : num;
    p_mas : num;
    p_mwy : num;
    p_salinityMol : num;
    p_X_mas : num;
    p_lnawMas : num;
    p_dtT0T : num;
    p_thls : num;
    p_tmax : num;
    p_naclG : num;
    p_waterG : num;
    p_waterSolutionG : num;
    p_waterHydrateG : num;
    p_maxPureWaterYield : num }.

Definition nPoints : nat := 50.

Definition ofNat (i : nat) : num := Fin (inject_Z (Z.of_nat i)).

(** The operating point shared by all steps of a sweep. *)
Record sweepEnv : Type :=
  { e_beta : num;
    e_T0_op : num;
    e_dT_init_op : num;
    e_saltKey : string;
    e_initialNaClG : num;
    e_initialWaterG : num;
    e_dTmin : num;
    e_step : num }.

Definition stepTotal (e : sweepEnv) (i : nat) : num :=
  (e_dT_init_op e + (e_dTmin e + e_step e * ofNat i))%num.

(** The body of the sweep loop for step [i]: [None] is a [continue]. *)
Definition sweepStep (e : sweepEnv) (i : nat)
  : completion (option sweepPoint) :=
  let dT_extra := (e_dTmin e + e_step e * ofNat i)%num in
  let dT_total := (e_dT_init_op e + dT_extra)%num in
  if (dT_total >=? e_T0_op e)%num then Normal None else
  let lnawMas := computeLnawFromDelta (e_beta e) dT_total (e_T0_op e) in
  if negb (isFinite lnawMas) || (lnawMas >=? 0)%num then Normal None else
  let X_mas := solveXFromLnaw lnawMas in
  let* mas := computeSalinityFromX X_mas (e_saltKey e) in
  if negb (isFinite mas) || (mas <=? 0)%num then Normal None else
  let mwy := massBalanceMWY (e_initialNaClG e) (e_initialWaterG e) mas in
  let* props := destructureSalt (e_saltKey e) in
  let saltMolarMass := molarMass props in
  let molesNaCl := (e_initialNaClG e / saltMolarMass)%num in
  let molesWater := (e_initialWaterG e / WATER_MOLAR_MASS)%num in
  let ionCount := ionCount props in
  let totalMolesIons := (ionCount * molesNaCl + molesWater)%num in
  let salinityMol := (((ionCount * molesNaCl) / totalMolesIons) * 100)%num in
  let dtT0T := (dT_total / (e_T0_op e * (e_T0_op e - dT_total)))%num in
  let thls := (e_T0_op e * (1 / (1 + dtT0T * e_T0_op e)))%num in
  let tmax := (e_T0_op e - dT_total)%num in
  let finalNaClG := e_initialNaClG e in
  let totalWaterNeeded := ((finalNaClG / mas) * 100 - finalNaClG)%num in
  let waterInSolution := totalWaterNeeded in
  let waterInHydrate := (e_initialWaterG e - waterInSolution)%num in
  let maxPureWaterYield := ((waterInHydrate / e_initialWaterG e) * 100)%num in
  Normal (Some
    {| p_dT_extra := dT_extra; p_mas := mas; p_mwy := mwy;
       p_salinityMol := salinityMol; p_X_mas := X_mas;
       p_lnawMas := lnawMas; p_dtT0T := dtT0T; p_thls := thls;
       p_tmax := tmax; p_naclG := finalNaClG;
       p_waterG := e_initialWaterG e;
       p_waterSolutionG := waterInSolution;
       p_waterHydrateG := waterInHydrate;
       p_maxPureWaterYield := maxPureWaterYield |}).

(** [for (let i = 0; i < nPoints; i++)]: the emitted points, in order. *)
Definition sweepLoop (e : sweepEnv) : completion (list sweepPoint) :=
  for_range 0 nPoints
    (fun i acc =>
       let* pts := acc in
       let* r := sweepStep e i in
       Normal (match r with Some p => pts ++ [p] | None => pts end))
    (Normal []).

(** The values of the input controls after [parseFloat]. *)
Record inputs : Type :=
  { in_gas : string;
    in_salt : string;
    in_salinity : num;
    in_pressure : num;
    in_dTmin : num;
    in_dTmax : num }.

(** The three [alert]s of the handler, by what they report: an input that
    is not a number, no usable T0(P) for the gas, and a sweep that emitted
    no point. *)
Inductive alert : Type :=
| AlertInvalidInput
| AlertNoReferenceT0
| AlertNoFeasiblePoints.

Record sweepResult : Type :=
  { r_points : list sweepPoint;
    r_beta : num;
    r_T0_op : num;
    r_dT_init_op : num;
    r_masMax : num;
    r_mwyMax : num;
    r_dtExtraMax : num;
    r_dtTotalAtOp : num;
    r_tPureOp : num;
    r_tInitOp : num;
    r_tMasOp : num }.

Inductive outcome : Type :=
| Alerted (a : alert)
| Computed (r : sweepResult).

Definition lastOf (f : sweepPoint -> num) (pts : list sweepPoint) : num :=
  default NaN (f <$> last pts).

(** The operating point of a request, from beta and T0 on. *)
Definition sweepEnvOf (beta T0_op : num) (saltKey : string)
  (initialSalinity dTmin dTmax : num) : completion sweepEnv :=
  let* X_init := computeXFromSalinity initialSalinity saltKey in
  let lnaw_init := computeLnawFromX X_init in
  let dT_init_op := computeDeltaT beta lnaw_init T0_op in
  let step := ((dTmax - dTmin) / (ofNat nPoints - 1))%num in
  let initialNaClG := initialSalinity in
  let initialWaterG := (100 - initialNaClG)%num in
  Normal {| e_beta := beta; e_T0_op := T0_op; e_dT_init_op := dT_init_op;
            e_saltKey := saltKey; e_initialNaClG := initialNaClG;
            e_initialWaterG := initialWaterG; e_dTmin := dTmin;
            e_step := step |}.

(** The click handler of [calculateBtn], first part: the inputs are
    checked and the operating point computed.  [inl] is an [alert] followed
    by [return]. *)
Definition operatingPoint (ui : page) (inp : inputs) (st : caches)
  : completion ((alert + sweepEnv) * caches) :=
  let gasKey := in_gas inp in
  let saltKey := in_salt inp in
  let initialSalinity := in_salinity inp in
  let pressure : num :=
    if String.eqb gasKey "CP" then 0.1 else in_pressure inp in
  let dTmin := in_dTmin inp in
  let dTmax := in_dTmax inp in
  if isNaN initialSalinity || isNaN pressure || isNaN dTmin || isNaN dTmax
  then Normal (inl AlertInvalidInput, st) else
  let '(dTmin, dTmax) :=
    if (dTmin >? dTmax)%num then (dTmax, dTmin) else (dTmin, dTmax) in
  let* beta := computeBeta ui gasKey in
  let methodMain := default "poly"%string (t0FitMethodSelect ui) in
  let* t0 := getT0AtPressure ui gasKey pressure methodMain st in
  let '(T0_op, st) := t0 in
  if negb (isFinite T0_op) then Normal (inl AlertNoReferenceT0, st) else
  let* e := sweepEnvOf beta T0_op saltKey initialSalinity dTmin dTmax in
  Normal (inr e, st).

(** The handler, second part: the sweep and the headline values. *)
Definition calculate (ui : page) (inp : inputs) (st : caches)
  : completion (outcome * caches) :=
  let* r := operatingPoint ui inp st in
  match r with
  | (inl a, st) => Normal (Alerted a, st)
  | (inr e, st) =>
      let* pts := sweepLoop e in
      if Nat.eqb (length pts) 0
      then Normal (Alerted AlertNoFeasiblePoints, st) else
      let masMax := lastOf p_mas pts in
      let mwyMax := lastOf p_mwy pts in
      let dtExtraMax := lastOf p_dT_extra pts in
      let dtTotalAtOp := (e_dT_init_op e + dtExtraMax)%num in
      let T0_op := e_T0_op e in
      Normal (Computed
        {| r_points := pts; r_beta := e_beta e; r_T0_op := T0_op;
           r_dT_init_op := e_dT_init_op e; r_masMax := masMax;
           r_mwyMax := mwyMax; r_dtExtraMax := dtExtraMax;
           r_dtTotalAtOp := dtTotalAtOp; r_tPureOp := T0_op;
           r_tInitOp := (T0_op - e_dT_init_op e)%num;
           r_tMasOp := (T0_op - dtTotalAtOp)%num |}, st)
  end.

(** A reference request: cyclopentane (fixed T0), NaCl at 8 wt%, extra
    supercooling from 0.5 K to 5 K, on a page with empty custom-gas boxes. *)
Definition refPage : page :=
  {| customStructure := EmptyString; customBetaX := -1; customTPData := [];
     siiAlphaToggle := true; t0FitMethodSelect := Some "poly"%string |}.

Definition refInputs : inputs :=
  {| in_gas := "CP"; in_salt := "NaCl"; in_salinity := 8;
     in_pressure := 0.1; in_dTmin := 0.5; in_dTmax := 5 |}.

(** Two states of the custom-gas box: two (T, P) lines each, 10 K/MPa
    apart, the second set 20 K above the first. *)
Definition customPage (pts : list (num * num)) : page :=
  {| customStructure := "sI"; customBetaX := -1; customTPData := pts;
     siiAlphaToggle := true; t0FitMethodSelect := Some "poly"%string |}.

Definition customPointsA : list (num * num) :=
  [(Fin 280, Fin 1); (Fin 290, Fin 2)].

Definition customPointsB : list (num * num) :=
  [(Fin 300, Fin 1); (Fin 310, Fin 2)].

(** The same request with the extra supercooling running from -1 K to
    0 K. *)
Definition coldInputs : inputs :=
  {| in_gas := "CP"; in_salt := "NaCl"; in_salinity := 8;
     in_pressure := 0.1; in_dTmin := -1; in_dTmax := 0 |}.

(** The emission rule in the specification's words: a step is kept when
    its total supercooling is below T0, the inverse ln(aw) is finite and
    negative, and the resulting MAS is finite and positive. *)
Definition stepLnaw (e : sweepEnv) (i : nat) : num :=
  computeLnawFromDelta (e_beta e) (stepTotal e i) (e_T0_op e).

Definition stepMas (e : sweepEnv) (i : nat) : completion num :=
  computeSalinityFromX (solveXFromLnaw (stepLnaw e i)) (e_saltKey e).

Definition feasible (e : sweepEnv) (i : nat) : bool :=
  match stepMas e i with
  | Normal mas =>
      (stepTotal e i <? e_T0_op e)%num
      && isFinite (stepLnaw e i) && (stepLnaw e i <? 0)%num
      && isFinite mas && (mas >? 0)%num
  | Throw _ => false
  end.

(** The point step [i] pushes, if any. *)
Definition stepPoint (e : sweepEnv) (i : nat) : option sweepPoint :=
  match sweepStep e i with
  | Normal r => r
  | Throw _ => None
  end.

(** ** SweepEngine, 2-D *)

(** One cell of the two parallel grids ([dataMWY] and [dataMAS]). *)
Record heatCell : Type :=
  { c_x : num;
    c_y : num;
    c_mwy : num;
    c_masNorm : num;
    c_mas : num;
    c_dmas : num;
    c_vraw : num }.

(** The body of the inner loop of [generateParametricHeatmaps]. *)
Definition heatmapCell (beta T0_op : num) (saltKey : string)
  (masMinNorm range sInit dT_init_op Tform : num) : completion heatCell :=
  let dT_total := max 0 (T0_op - Tform)%num in
  let* r :=
    if (dT_total >=? dT_init_op)%num && (dT_total <? T0_op)%num then
      let lnawMas := computeLnawFromDelta beta dT_total T0_op in
      if isFinite lnawMas && (lnawMas <? 0)%num then
        let X_mas := solveXFromLnaw lnawMas in
        let* mas := computeSalinityFromX X_mas saltKey in
        if isFinite mas && (mas >? 0)%num then
          let masVal := mas in
          let masIncr := max 0 (masVal - sInit)%num in
          let mwy := (((mas - sInit) / mas) * 100)%num in
          Normal (max 0 (min 100 mwy), masVal, masIncr)
        else Normal (Fin 0, sInit, Fin 0)
      else Normal (Fin 0, sInit, Fin 0)
    else Normal (Fin 0, sInit, Fin 0) in
  let '(mwyVal, masVal, masIncr) := r in
  let headroom := max 0 (100 - sInit)%num in
  let masNormRaw : num :=
    if (headroom >? 0)%num then max 0 (min 1 (masIncr / headroom)%num)
    else 0 in
  let masNorm := max 0 (min 1 ((masNormRaw - masMinNorm) / range)%num) in
  Normal {| c_x := sInit; c_y := Tform; c_mwy := mwyVal;
            c_masNorm := masNorm; c_mas := masVal; c_dmas := masIncr;
            c_vraw := masNormRaw |}.

(** [for (const v of l)] threading a state through a body that can
    raise. *)
Fixpoint forOf {X St : Type} (l : list X) (body : X -> St -> completion St)
  (s : St) : completion St :=
  match l with
  | [] => Normal s
  | v :: l' => let* s' := body v s in forOf l' body s'
  end.

(** The initial supercooling of a row of the grid. *)
Definition rowInitialSupercooling (beta T0_op : num) (saltKey : string)
  (sInit : num) : completion num :=
  let* X_init := computeXFromSalinity sInit saltKey in
  let lnaw_init := computeLnawFromX X_init in
  Normal (computeDeltaT beta lnaw_init T0_op).

(** The two nested loops over the salinity and temperature grids, which
    [linspace] (not embedded) produces. *)
Definition heatmapGrid (beta T0_op : num) (saltKey : string)
  (masMinNorm range : num) (salts temps : list num)
  : completion (list heatCell) :=
  forOf salts
    (fun sInit cells =>
       let* dT_init_op := rowInitialSupercooling beta T0_op saltKey sInit in
       forOf temps
         (fun Tform cells =>
            let* c := heatmapCell beta T0_op saltKey masMinNorm range
                        sInit dT_init_op Tform in
            Normal (cells ++ [c]))
         cells)
    [].

(** ** Vocabulary for the cache laws

    The fits a request computes for a list of points, and a cache whose
    entries under the keys of [gasData] are the fits of those gases'
    data. *)
Definition polyFitOf (pts : list (num * num)) : completion (list num) :=
  fitPolynomial (map snd pts) (map fst pts)
    (Z.min 3 (Z.of_nat (length (map snd pts)) - 1)).

Definition splineFitOf (pts : list (num * num)) : completion spline :=
  buildMonotoneSpline (map snd pts) (map fst pts).

Definition cachesFaithful (st : caches) : Prop :=
  forall k g pts,
    gasData !! k = Some g -> data g = Some pts ->
    (forall c, t0FitCache st !! k = Some c -> polyFitOf pts = Normal c)
    /\ (forall cache sp,
          splineCache st = Some cache -> cache !! k = Some sp ->
          splineFitOf pts = Normal sp).

(** ** Vocabulary for the heat-map grid

    A cell whose plotted values are numbers in their ranges: the yield in
    [0, 100], the MAS increase non-negative, the raw normalised MAS in
    [0, 1].  A row of the grid: the cells one salinity gives for the list
    of temperatures. *)
Definition cellInRange (c : heatCell) : Prop :=
  exists m d v,
    c_mwy c = Fin m /\ 0 <= m <= 100
    /\ c_dmas c = Fin d /\ 0 <= d
    /\ c_vraw c = Fin v /\ 0 <= v <= 1.

Definition gridRow (beta T0_op : num) (saltKey : string)
  (masMinNorm range : num)
  (temps : list num) (sInit : num) (row : list heatCell) : Prop :=
  exists dT_init_op,
    rowInitialSupercooling beta T0_op saltKey sInit = Normal dT_init_op
    /\ Forall2 (fun Tform c =>
                  heatmapCell beta T0_op saltKey masMinNorm range sInit
                    dT_init_op Tform = Normal c) temps row.

(** ** Vocabulary for the fits

    [polyQ] is the polynomial with coefficients [cs], lowest degree first,
    on rationals.  [hermiteQ] is the cubic [evalMonotoneSpline] evaluates
    on a segment of width [h], at the fraction [t] of it, from the end
    values [y0], [y1] and the end derivatives [e0], [e1].  [within e d]
    says that a derivative [e] has the sign of the secant slope [d] and at
    most three times its size. *)
Definition polyQ (cs : list Q) (x : Q) : Q :=
  fold_right (fun c acc => c + x * acc) 0 cs.

Definition hermiteQ (t y0 y1 h e0 e1 : Q) : Q :=
  (1 + 2 * t) * (1 - t) * (1 - t) * y0 + t * (1 - t) * (1 - t) * h * e0
  + t * t * (3 - 2 * t) * y1 + t * t * (t - 1) * h * e1.

Definition within (e d : Q) : Prop :=
  (0 <= e /\ e <= 3 * d) \/ (3 * d <= e /\ e <= 0).

(** * The engine in binary64

    The arithmetic functions of the engine once more, over binary64: the
    same expressions, in the order the source evaluates them, on Rocq's
    primitive floats.  A decimal literal is the double nearest to it, as in
    the source. *)

Set Warnings "-inexact-float".

Module F64.

(** The exact value of a finite double; [None] for NaN and the
    infinities. *)
Definition toQ (f : float) : option Q :=
  match Prim2SF f with
  | S754_zero _ => Some 0
  | S754_finite s m e =>
      let mag :=
        match e with
        | Z0 => Zpos m # 1
        | Zpos p => (Zpos m * Z.pow_pos 2 p) # 1
        | Zneg p => Zpos m # Pos.pow 2 p
        end in
      Some (if s then - mag else mag)
  | S754_infinity _ | S754_nan => None
  end.

(** The double of a small non-negative integer. *)
Definition ofZ (k : Z) : float := of_uint63 (Uint63Axioms.of_Z k).

Definition B1 : float := (-1.06152)%float.
Definition B2 : float := 3.25726%float.
Definition B3 : float := (-37.2263)%float.
Definition WATER_MOLAR_MASS : float := 18.01528%float.

Record salt : Type := { molarMass : float; ionCount : float }.

Definition saltProps : gmap string salt :=
  <["NaCl" := {| molarMass := 58.44; ionCount := 2 |}]>
  (<["KCl" := {| molarMass := 74.55; ionCount := 2 |}]>
  (<["MgCl2" := {| molarMass := 95.21; ionCount := 3 |}]> ∅)).

Definition destructureSalt (saltKey : string) : completion salt :=
  match saltProps !! saltKey with
  | Some p => Normal p
  | None =>
      if inherited saltKey
      then Normal {| molarMass := nan; ionCount := nan |}
      else Throw TypeError
  end.

Definition computeXFromSalinity (salinity : float) (saltKey : string)
  : completion float :=
  let* p := destructureSalt saltKey in
  let massSalt := salinity in
  let massWater := (100 - salinity)%float in
  let molesSalt := (massSalt / molarMass p)%float in
  let molesWater := (massWater / WATER_MOLAR_MASS)%float in
  if String.eqb saltKey "MgCl2" then
    let totalMoles := (molesWater + 3 * molesSalt)%float in
    Normal ((4 * molesSalt) / totalMoles)%float
  else
    let totalMoles := (molesWater + 2 * molesSalt)%float in
    Normal ((2 * molesSalt) / totalMoles)%float.

Definition computeSalinityFromX (X : float) (saltKey : string)
  : completion float :=
  let* p := destructureSalt saltKey in
  if String.eqb saltKey "MgCl2" then
    Normal ((molarMass p * X * 100) /
            ((4 - 3 * X) * WATER_MOLAR_MASS + molarMass p * X))%float
  else
    Normal ((molarMass p * X * 100) /
            ((2 - 2 * X) * WATER_MOLAR_MASS + molarMass p * X))%float.

Definition computeLnawFromX (X : float) : float :=
  (B1 * X + B2 * X * X + B3 * X * X * X)%float.

Definition computeDeltaT (beta lnaw T0 : float) : float :=
  ((beta * lnaw * T0 * T0) / (1 + beta * lnaw * T0))%float.

Definition computeLnawFromDelta (beta dT T0 : float) : float :=
  let denominator := (beta * T0 * (T0 - dT))%float in
  (dT / denominator)%float.

Definition solve_f (lnawTarget X : float) : float :=
  (computeLnawFromX X - lnawTarget)%float.

(** [while (f(high) > 0 && high < 1) high += 0.1].  In binary64 the sum
    of 0.2 and eight times 0.1 is 0.9999999999999999, still below 1, so the
    loop can make a ninth pass, to 1.0999999999999999; no more
    ([F64_expandHigh_fuel]). *)
Fixpoint expandHigh (fuel : nat) (lnawTarget high : float) : float :=
  match fuel with
  | O => high
  | S fuel' =>
      if (0 <? solve_f lnawTarget high)%float && (high <? 1)%float
      then expandHigh fuel' lnawTarget (high + 0.1)%float
      else high
  end.

Definition bisectStep (lnawTarget : float) (b : float * float)
  : float * float :=
  let '(low, high) := b in
  let mid := ((low + high) / 2)%float in
  let val := solve_f lnawTarget mid in
  if (0 <? val)%float then (mid, high) else (low, mid).

Fixpoint bisect (n : nat) (lnawTarget : float) (b : float * float)
  : float * float :=
  match n with
  | O => b
  | S n' => bisect n' lnawTarget (bisectStep lnawTarget b)
  end.

Definition solveXFromLnaw (lnawTarget : float) : float :=
  let low : float := 0%float in
  let high := expandHigh 9 lnawTarget 0.2%float in
  let '(low, high) := bisect 50 lnawTarget (low, high) in
  ((low + high) / 2)%float.

(** [computeSalinityFromX(computeXFromSalinity(s, salt), salt)]. *)
Definition roundTrip (s : float) (saltKey : string) : completion float :=
  let* X := computeXFromSalinity s saltKey in computeSalinityFromX X saltKey.

(** The round trip of [s] returns, with [s] in (0, 100), a relative error
    of at most 1e-9 and an absolute error of at most 1e-6. *)
Definition roundTripWithin (saltKey : string) (s : float) : bool :=
  match roundTrip s saltKey with
  | Normal r =>
      match toQ s, toQ r with
      | Some sq, Some rq =>
          negb (Qle_bool sq 0) && negb (Qle_bool 100 sq)
          && Qle_bool (Qabs (rq - sq)) (1e-9 * Qabs sq)
          && Qle_bool (Qabs (rq - sq)) 1e-6
      | _, _ => false
      end
  | Throw _ => false
  end.

(** [computeLnawFromX(x1) > computeLnawFromX(x2)], both finite. *)
Definition lnawDrops (x1 x2 : float) : bool :=
  match toQ (computeLnawFromX x1), toQ (computeLnawFromX x2) with
  | Some a, Some b => negb (Qle_bool a b)
  | _, _ => false
  end.

End F64.

(** The sampled inputs: the salinities [k / 100] and the mole fractions
    [k / 10000], as the program would compute them from an integer [k]. *)
Definition salinityGrid (k : Z) : float := (F64.ofZ k / 100)%float.

Definition xGrid (k : Z) : float := (F64.ofZ k / 10000)%float.

(** The salinities [100 / 2^k], which reach down to the smallest normal
    doubles. *)
Fixpoint halved (n : nat) (f : float) : float :=
  match n with
  | O => f
  | S n => halved n (f / 2)%float
  end.

Definition salinityScale (k : Z) : float := halved (Z.to_nat k) 100%float.

(** A test on the [n] integers from [lo] on. *)
Fixpoint forallbFrom (P : Z -> bool) (lo : Z) (n : nat) : bool :=
  match n with
  | O => true
  | S n' => P lo && forallbFrom P (lo + 1)%Z n'
  end.

(** * Facts about numbers *)

Section NumberFacts.

#[global] Instance num_equiv : Equiv num := eqv.

#[global] Instance eqv_equivalence : Equivalence (≡@{num}).
Proof.
  split.
  - intros [x| | |]; unfold equiv, num_equiv; simpl; try exact I.
    reflexivity.
  - intros [x| | |] [y| | |]; unfold equiv, num_equiv; simpl; try tauto.
    intros H. symmetry. exact H.
  - intros [x| | |] [y| | |] [z| | |]; unfold equiv, num_equiv; simpl;
      try tauto.
    intros H1 H2. rewrite H1. exact H2.
Qed.

Lemma Fin_equiv (x y : Q) : Fin x ≡ Fin y <-> x == y.
Proof. reflexivity. Qed.

#[global] Instance Fin_proper : Proper (Qeq ==> (≡)) Fin.
Proof. intros x y H. exact H. Qed.

(** A number equal to a finite one is finite, with an equal value. *)
Lemma equiv_Fin_inv (a : num) (q : Q) :
  a ≡ Fin q -> exists r, a = Fin r /\ r == q.
Proof.
  destruct a as [x| | |]; unfold equiv, num_equiv; simpl; try tauto.
  intros H. exists x. split; [reflexivity | exact H].
Qed.

Ltac num_cases :=
  repeat match goal with
         | a : num |- _ => destruct a
         end;
  unfold equiv, num_equiv in *; simpl in *; try tauto.

#[global] Instance neg_proper : Proper ((≡) ==> (≡)) neg.
Proof.
  intros a a' Ha. num_cases. rewrite Ha. reflexivity.
Qed.

#[global] Instance add_proper : Proper ((≡) ==> (≡) ==> (≡)) add.
Proof.
  intros a a' Ha b b' Hb. num_cases.
  rewrite !Qred_correct, Ha, Hb. reflexivity.
Qed.

#[global] Instance sub_proper : Proper ((≡) ==> (≡) ==> (≡)) sub.
Proof. intros a a' Ha b b' Hb. unfold sub. rewrite Ha, Hb. reflexivity. Qed.

#[global] Instance mul_proper : Proper ((≡) ==> (≡) ==> (≡)) mul.
Proof.
  intros a a' Ha b b' Hb. num_cases;
    try (rewrite ?Ha, ?Hb; destruct (_ ?= _); simpl; tauto).
  rewrite !Qred_correct, Ha, Hb. reflexivity.
Qed.

#[global] Instance div_proper : Proper ((≡) ==> (≡) ==> (≡)) div.
Proof.
  intros a a' Ha b b' Hb. num_cases;
    try (rewrite ?Ha, ?Hb; destruct (Qle_bool _ _); simpl; tauto).
  - rewrite Ha, Hb. destruct (Qeq_bool _ 0).
    + destruct (_ ?= _); simpl; tauto.
    + simpl. rewrite !Qred_correct, Ha, Hb. reflexivity.
  - reflexivity.
  - reflexivity.
Qed.

#[global] Instance ltb_proper : Proper ((≡) ==> (≡) ==> (=)) ltb.
Proof. intros a a' Ha b b' Hb. num_cases. rewrite Ha, Hb. reflexivity. Qed.

#[global] Instance leb_proper : Proper ((≡) ==> (≡) ==> (=)) leb.
Proof. intros a a' Ha b b' Hb. num_cases. rewrite Ha, Hb. reflexivity. Qed.

#[global] Instance gtb_proper : Proper ((≡) ==> (≡) ==> (=)) gtb.
Proof. intros a a' Ha b b' Hb. unfold gtb. rewrite Ha, Hb. reflexivity. Qed.

#[global] Instance geb_proper : Proper ((≡) ==> (≡) ==> (=)) geb.
Proof. intros a a' Ha b b' Hb. unfold geb. rewrite Ha, Hb. reflexivity. Qed.

#[global] Instance isFinite_proper : Proper ((≡) ==> (=)) isFinite.
Proof. intros a a' Ha. num_cases. Qed.

(** Arithmetic on finite numbers is the arithmetic of rationals. *)
Lemma add_Fin (x y : Q) : (Fin x + Fin y)%num ≡ Fin (x + y).
Proof. apply Qred_correct. Qed.

Lemma neg_Fin (x : Q) : (- Fin x)%num ≡ Fin (- x).
Proof. reflexivity. Qed.

Lemma sub_Fin (x y : Q) : (Fin x - Fin y)%num ≡ Fin (x - y).
Proof. apply Qred_correct. Qed.

Lemma mul_Fin (x y : Q) : (Fin x * Fin y)%num ≡ Fin (x * y).
Proof. apply Qred_correct. Qed.

Lemma div_Fin (x y : Q) : ~ y == 0 -> (Fin x / Fin y)%num ≡ Fin (x / y).
Proof.
  intros Hy. simpl. destruct (Qeq_bool y 0) eqn:E.
  - apply Qeq_bool_eq in E. contradiction.
  - apply Qred_correct.
Qed.

Lemma ltb_Fin (x y : Q) : (Fin x <? Fin y)%num = true <-> x < y.
Proof.
  simpl. rewrite negb_true_iff. split.
  - intros H. apply Qnot_le_lt. intros Hle.
    apply Qle_bool_iff in Hle. congruence.
  - intros H. destruct (Qle_bool y x) eqn:E; [|reflexivity].
    apply Qle_bool_iff in E. lra.
Qed.

Lemma leb_Fin (x y : Q) : (Fin x <=? Fin y)%num = true <-> x <= y.
Proof. apply Qle_bool_iff. Qed.

Lemma gtb_Fin (x y : Q) : (Fin x >? Fin y)%num = true <-> y < x.
Proof. apply ltb_Fin. Qed.

Lemma geb_Fin (x y : Q) : (Fin x >=? Fin y)%num = true <-> y <= x.
Proof. apply leb_Fin. Qed.

#[global] Instance max_proper : Proper ((≡) ==> (≡) ==> (≡)) max.
Proof.
  intros a a' Ha b b' Hb. unfold max.
  rewrite (ltb_proper _ _ Ha _ _ Hb).
  destruct a, a', b, b'; unfold equiv, num_equiv in *; cbn in *;
    try tauto; destruct (negb _); assumption.
Qed.

#[global] Instance min_proper : Proper ((≡) ==> (≡) ==> (≡)) min.
Proof.
  intros a a' Ha b b' Hb. unfold min.
  rewrite (ltb_proper _ _ Hb _ _ Ha).
  destruct a, a', b, b'; unfold equiv, num_equiv in *; cbn in *;
    try tauto; destruct (negb _); assumption.
Qed.

Lemma max_Fin_r (a b : Q) : a <= b -> max (Fin a) (Fin b) ≡ Fin b.
Proof.
  intros H. unfold max. destruct (Fin a <? Fin b)%num eqn:E; [reflexivity|].
  apply Fin_proper.
  destruct (Qlt_le_dec a b) as [Hlt|Hge]; [|lra].
  apply ltb_Fin in Hlt. congruence.
Qed.

Lemma min_Fin_r (a b : Q) : b <= a -> min (Fin a) (Fin b) ≡ Fin b.
Proof.
  intros H. unfold min. destruct (Fin b <? Fin a)%num eqn:E; [reflexivity|].
  apply Fin_proper.
  destruct (Qlt_le_dec b a) as [Hlt|Hge]; [|lra].
  apply ltb_Fin in Hlt. congruence.
Qed.

(** Equal rationals are within every tolerance of each other. *)
Lemma Qabs_zero_le (x y e : Q) : x == y -> 0 <= e -> Qabs (x - y) <= e.
Proof.
  intros E He. assert (H : x - y == 0) by (rewrite E; ring).
  rewrite H. exact He.
Qed.

Lemma Qabs_zero_le_scaled (x y e : Q) :
  x == y -> 0 <= e -> Qabs (x - y) <= e * Qabs y.
Proof.
  intros E He. assert (H : x - y == 0) by (rewrite E; ring).
  rewrite H. apply Qmult_le_0_compat; [exact He | apply Qabs_nonneg].
Qed.

End NumberFacts.

(** * ElectrolyteModel *)

Section Electrolyte.

Lemma saltProps_cases (key : string) (p : salt) :
  saltProps !! key = Some p ->
  (key = "NaCl"%string /\ p = {| molarMass := 58.44; ionCount := 2 |})
  \/ (key = "KCl"%string /\ p = {| molarMass := 74.55; ionCount := 2 |})
  \/ (key = "MgCl2"%string /\ p = {| molarMass := 95.21; ionCount := 3 |}).
Proof.
  unfold saltProps. intros H.
  destruct (decide (key = "NaCl"%string)) as [->|N1].
  { rewrite lookup_insert_eq in H. left. split; congruence. }
  rewrite lookup_insert_ne in H by congruence.
  destruct (decide (key = "KCl"%string)) as [->|N2].
  { rewrite lookup_insert_eq in H. right; left. split; congruence. }
  rewrite lookup_insert_ne in H by congruence.
  destruct (decide (key = "MgCl2"%string)) as [->|N3].
  { rewrite lookup_insert_eq in H. right; right. split; congruence. }
  rewrite lookup_insert_ne in H by congruence.
  rewrite lookup_empty in H. discriminate.
Qed.

Lemma destructureSalt_own (key : string) (p : salt) :
  saltProps !! key = Some p -> destructureSalt key = Normal p.
Proof. intros H. unfold destructureSalt. rewrite H. reflexivity. Qed.

(** The mole-fraction formulas on rationals, for a salt of molar mass [M]
    giving two, or (last two) three, ionic species. *)
Lemma xFromSalinity2_Fin (M s : Q) :
  0 < M -> 0 < s -> s < 100 ->
  ((2 * (Fin s / Fin M)) /
   ((100 - Fin s) / Fin WATER_MOLAR_MASS + 2 * (Fin s / Fin M)))%num
  ≡ Fin (2 * (s / M) / ((100 - s) / WATER_MOLAR_MASS + 2 * (s / M))).
Proof.
  intros HM H0 H1.
  assert (HW : 0 < WATER_MOLAR_MASS) by reflexivity.
  assert (Hs : 0 < s / M) by (apply Qlt_shift_div_l; lra).
  assert (Hw : 0 < (100 - s) / WATER_MOLAR_MASS)
    by (apply Qlt_shift_div_l; lra).
  rewrite sub_Fin, !div_Fin, mul_Fin, add_Fin, div_Fin by lra.
  reflexivity.
Qed.

Lemma salinityFromX2_Fin (M X : Q) :
  0 < M -> 0 < X -> X < 1 ->
  ((Fin M * Fin X * 100) /
   ((2 - 2 * Fin X) * Fin WATER_MOLAR_MASS + Fin M * Fin X))%num
  ≡ Fin (M * X * 100 / ((2 - 2 * X) * WATER_MOLAR_MASS + M * X)).
Proof.
  intros HM H0 H1.
  assert (HW : 0 < WATER_MOLAR_MASS) by reflexivity.
  rewrite !mul_Fin, sub_Fin, mul_Fin, add_Fin.
  rewrite div_Fin; [reflexivity|]. nra.
Qed.

Lemma xFromSalinity3_Fin (M s : Q) :
  0 < M -> 0 < s -> s < 100 ->
  ((4 * (Fin s / Fin M)) /
   ((100 - Fin s) / Fin WATER_MOLAR_MASS + 3 * (Fin s / Fin M)))%num
  ≡ Fin (4 * (s / M) / ((100 - s) / WATER_MOLAR_MASS + 3 * (s / M))).
Proof.
  intros HM H0 H1.
  assert (HW : 0 < WATER_MOLAR_MASS) by reflexivity.
  assert (Hs : 0 < s / M) by (apply Qlt_shift_div_l; lra).
  assert (Hw : 0 < (100 - s) / WATER_MOLAR_MASS)
    by (apply Qlt_shift_div_l; lra).
  rewrite sub_Fin, !div_Fin, !mul_Fin, add_Fin, div_Fin by lra.
  reflexivity.
Qed.

Lemma salinityFromX3_Fin (M X : Q) :
  0 < M -> 0 < X -> 3 * X < 4 ->
  ((Fin M * Fin X * 100) /
   ((4 - 3 * Fin X) * Fin WATER_MOLAR_MASS + Fin M * Fin X))%num
  ≡ Fin (M * X * 100 / ((4 - 3 * X) * WATER_MOLAR_MASS + M * X)).
Proof.
  intros HM H0 H1.
  assert (HW : 0 < WATER_MOLAR_MASS) by reflexivity.
  rewrite !mul_Fin, sub_Fin, mul_Fin, add_Fin.
  rewrite div_Fin; [reflexivity|]. nra.
Qed.

(** The closed-form inverses on rationals. *)
Lemma roundtrip2 (M s : Q) :
  0 < M -> 0 < s -> s < 100 ->
  let X := 2 * (s / M) / ((100 - s) / WATER_MOLAR_MASS + 2 * (s / M)) in
  0 < X /\ X < 1 /\
  M * X * 100 / ((2 - 2 * X) * WATER_MOLAR_MASS + M * X) == s.
Proof.
  intros HM H0 H1 X.
  assert (HW : 0 < WATER_MOLAR_MASS) by reflexivity.
  assert (Hs : 0 < s / M) by (apply Qlt_shift_div_l; lra).
  assert (Hw : 0 < (100 - s) / WATER_MOLAR_MASS)
    by (apply Qlt_shift_div_l; lra).
  assert (HX0 : 0 < X) by (apply Qlt_shift_div_l; lra).
  assert (HX1 : X < 1) by (apply Qlt_shift_div_r; lra).
  split; [exact HX0|]. split; [exact HX1|].
  unfold X. field. repeat split; nra.
Qed.

Lemma roundtrip3 (M s : Q) :
  0 < M -> 0 < s -> s < 100 ->
  let X := 4 * (s / M) / ((100 - s) / WATER_MOLAR_MASS + 3 * (s / M)) in
  0 < X /\ 3 * X < 4 /\
  M * X * 100 / ((4 - 3 * X) * WATER_MOLAR_MASS + M * X) == s.
Proof.
  intros HM H0 H1 X.
  assert (HW : 0 < WATER_MOLAR_MASS) by reflexivity.
  assert (Hs : 0 < s / M) by (apply Qlt_shift_div_l; lra).
  assert (Hw : 0 < (100 - s) / WATER_MOLAR_MASS)
    by (apply Qlt_shift_div_l; lra).
  assert (HX0 : 0 < X) by (apply Qlt_shift_div_l; lra).
  assert (HX1 : X < (4 # 3)) by (apply Qlt_shift_div_r; lra).
  split; [exact HX0|]. split; [lra|].
  unfold X. field. repeat split; nra.
Qed.

(** The round trip in exact arithmetic.  For every salt of the catalog
    and every salinity in (0, 100),
    [computeSalinityFromX(computeXFromSalinity(s, salt), salt)] is [s]:
    the relative error is below 1e-9 and the absolute error below 1e-6. *)
Theorem salinity_roundtrip (saltKey : string) (s : Q) :
  saltKey ∈ dom saltProps -> 0 < s -> s < 100 ->
  exists X r,
    computeXFromSalinity (Fin s) saltKey = Normal X
    /\ computeSalinityFromX X saltKey = Normal (Fin r)
    /\ r == s
    /\ Qabs (r - s) <= 1e-9 * Qabs s
    /\ Qabs (r - s) <= 1e-6.
Proof.
  intros Hin H0 H1. apply elem_of_dom in Hin as [p Hp].
  assert (Hgoal : exists X,
             computeXFromSalinity (Fin s) saltKey = Normal X
             /\ exists Y, computeSalinityFromX X saltKey = Normal Y
                          /\ Y ≡ Fin s).
  { unfold computeXFromSalinity, computeSalinityFromX.
    rewrite (destructureSalt_own _ _ Hp). unfold bind.
    destruct (saltProps_cases _ _ Hp) as [[-> ->]|[[-> ->]|[-> ->]]];
      cbn [String.eqb Ascii.eqb Bool.eqb molarMass];
      eexists; (split; [reflexivity|]); eexists; (split; [reflexivity|]).
    - destruct (roundtrip2 58.44 s) as (Ha & Hb & Hc); try lra.
      rewrite xFromSalinity2_Fin, salinityFromX2_Fin by lra.
      apply Fin_proper, Hc.
    - destruct (roundtrip2 74.55 s) as (Ha & Hb & Hc); try lra.
      rewrite xFromSalinity2_Fin, salinityFromX2_Fin by lra.
      apply Fin_proper, Hc.
    - destruct (roundtrip3 95.21 s) as (Ha & Hb & Hc); try lra.
      rewrite xFromSalinity3_Fin, salinityFromX3_Fin by lra.
      apply Fin_proper, Hc. }
  destruct Hgoal as (X & HX & Y & HY & HYs).
  apply equiv_Fin_inv in HYs as (r & -> & Hr).
  exists X, r. repeat split; try assumption.
  - apply Qabs_zero_le_scaled; [exact Hr|]. unfold Qle. simpl. lia.
  - apply Qabs_zero_le; [exact Hr|]. unfold Qle. simpl. lia.
Qed.

Lemma salinity_roundtrip_witness :
  exists X r,
    computeXFromSalinity (Fin 8) "NaCl" = Normal X
    /\ computeSalinityFromX X "NaCl" = Normal (Fin r)
    /\ r == 8
    /\ Qabs (r - 8) <= 1e-9 * Qabs 8
    /\ Qabs (r - 8) <= 1e-6.
Proof.
  apply (salinity_roundtrip "NaCl" 8);
    [apply elem_of_dom; eexists; reflexivity | lra | lra].
Defined.

(** A key of an inherited property is no failure at all: the conversion
    returns NaN. *)
Lemma computeXFromSalinity_inherited_key (salinity : num) (saltKey : string) :
  saltKey ∉ dom saltProps -> inherited saltKey = true ->
  computeXFromSalinity salinity saltKey = Normal NaN.
Proof.
  intros Hdom Hinh. apply not_elem_of_dom in Hdom.
  unfold computeXFromSalinity, destructureSalt. rewrite Hdom, Hinh.
  cbn [bind molarMass].
  destruct (String.eqb saltKey "MgCl2"); destruct salinity; reflexivity.
Qed.

(** The conversion raises no error value of the taxonomy. *)
Lemma computeXFromSalinity_no_AppError (salinity : num) (saltKey : string)
  (e : spec_error) :
  computeXFromSalinity salinity saltKey <> Throw (AppError e).
Proof.
  unfold computeXFromSalinity, destructureSalt.
  destruct (saltProps !! saltKey); [|destruct (inherited saltKey)];
    cbn [bind]; try discriminate;
    destruct (String.eqb saltKey "MgCl2"); discriminate.
Qed.

(** C9, as the code has it.  For a key that is no property of
    [saltProps], own or inherited, [computeXFromSalinity] raises the
    runtime's [TypeError] whatever the salinity. *)
Theorem computeXFromSalinity_unknown_key (salinity : num) (saltKey : string) :
  saltKey ∉ dom saltProps -> inherited saltKey = false ->
  computeXFromSalinity salinity saltKey = Throw TypeError.
Proof.
  intros Hdom Hinh. apply not_elem_of_dom in Hdom.
  unfold computeXFromSalinity, destructureSalt. rewrite Hdom, Hinh.
  reflexivity.
Qed.

Lemma computeXFromSalinity_unknown_key_witness :
  computeXFromSalinity (Fin 8) "LiCl" = Throw TypeError.
Proof.
  apply (computeXFromSalinity_unknown_key (Fin 8) "LiCl");
    [apply not_elem_of_dom; reflexivity | reflexivity].
Defined.

(** C9 as stated fails: for the unrecognized key [LiCl] the call ends in
    [TypeError], which is not the [UnknownSpecies] error value. *)
Lemma computeXFromSalinity_UnknownSpecies_counterexample :
  ("LiCl"%string ∉ dom saltProps)
  /\ computeXFromSalinity (Fin 8) "LiCl" = Throw TypeError
  /\ computeXFromSalinity (Fin 8) "LiCl" <> Throw (AppError UnknownSpecies).
Proof.
  split; [apply not_elem_of_dom; reflexivity|].
  split; [reflexivity|]. apply computeXFromSalinity_no_AppError.
Qed.

End Electrolyte.

(** * ActivityCorrelation *)

Section Activity.

#[global] Instance computeLnawFromX_proper :
  Proper ((≡) ==> (≡)) computeLnawFromX.
Proof. intros a a' Ha. unfold computeLnawFromX. rewrite Ha. reflexivity. Qed.

Lemma computeLnawFromX_Fin (X : Q) : computeLnawFromX (Fin X) ≡ Fin (lnawQ X).
Proof.
  unfold computeLnawFromX, lnawQ. rewrite !mul_Fin, !add_Fin. reflexivity.
Qed.

Lemma Qsquare_nonneg (u : Q) : 0 <= u * u.
Proof. nra. Qed.

(** The slope of every chord of the cubic is negative: the quadratic form
    below is bounded by squares in [x + y] and [x - y]. *)
Lemma lnawQ_slope (x y : Q) :
  B1 + B2 * (x + y) + B3 * (x * x + x * y + y * y) < 0.
Proof.
  unfold B1, B2, B3.
  pose proof (Qsquare_nonneg (x + y - 0.05)) as H1.
  pose proof (Qsquare_nonneg (x + y - 0.06)) as H2.
  pose proof (Qsquare_nonneg (x - y)) as H3.
  nra.
Qed.

(** The cubic has no critical point: it decreases on the whole line. *)
Lemma lnawQ_decreasing (x y : Q) : x < y -> lnawQ y < lnawQ x.
Proof.
  intros Hxy. pose proof (lnawQ_slope x y) as Hs.
  assert (Hp : 0 < (y - x)
                   * - (B1 + B2 * (x + y) + B3 * (x * x + x * y + y * y))).
  { apply Qmult_lt_0_compat; lra. }
  unfold lnawQ. nra.
Qed.

Lemma lnawQ_monotone (x y : Q) : x <= y -> lnawQ y <= lnawQ x.
Proof.
  intros Hxy. destruct (Qlt_le_dec x y) as [Hlt|Hge].
  - apply Qlt_le_weak, lnawQ_decreasing, Hlt.
  - assert (E : x == y) by lra. unfold lnawQ. rewrite E. lra.
Qed.

Lemma lnawQ_0 : lnawQ 0 == 0.
Proof. unfold lnawQ. ring. Qed.

(** The correlation in exact arithmetic: [computeLnawFromX] is strictly
    decreasing on [0, 0.3], that is, for [X1 < X2] in that interval
    [computeLnawFromX(X1) > computeLnawFromX(X2)]. *)
Theorem computeLnawFromX_strictly_decreasing (X1 X2 : Q) :
  0 <= X1 -> X1 < X2 -> X2 <= 0.3 ->
  (computeLnawFromX (Fin X1) >? computeLnawFromX (Fin X2))%num = true.
Proof.
  intros _ Hlt _. rewrite !computeLnawFromX_Fin.
  apply gtb_Fin. apply lnawQ_decreasing. exact Hlt.
Qed.

Lemma computeLnawFromX_strictly_decreasing_witness :
  (computeLnawFromX (Fin 0.1) >? computeLnawFromX (Fin 0.2))%num = true.
Proof.
  apply (computeLnawFromX_strictly_decreasing 0.1 0.2); lra.
Defined.

End Activity.

(** * EquilibriumShiftModel *)

Section EquilibriumShift.

#[global] Instance computeDeltaT_proper :
  Proper ((≡) ==> (≡) ==> (≡) ==> (≡)) computeDeltaT.
Proof.
  intros b b' Hb l l' Hl t t' Ht. unfold computeDeltaT.
  rewrite Hb, Hl, Ht. reflexivity.
Qed.

#[global] Instance computeLnawFromDelta_proper :
  Proper ((≡) ==> (≡) ==> (≡) ==> (≡)) computeLnawFromDelta.
Proof.
  intros b b' Hb d d' Hd t t' Ht. unfold computeLnawFromDelta.
  rewrite Hb, Hd, Ht. reflexivity.
Qed.

Lemma computeDeltaT_Fin (beta lnaw T0 : Q) :
  ~ 1 + beta * lnaw * T0 == 0 ->
  computeDeltaT (Fin beta) (Fin lnaw) (Fin T0)
  ≡ Fin (beta * lnaw * T0 * T0 / (1 + beta * lnaw * T0)).
Proof.
  intros H. unfold computeDeltaT. rewrite !mul_Fin, add_Fin.
  rewrite div_Fin by exact H. reflexivity.
Qed.

Lemma computeLnawFromDelta_Fin (beta dT T0 : Q) :
  ~ beta * T0 * (T0 - dT) == 0 ->
  computeLnawFromDelta (Fin beta) (Fin dT) (Fin T0)
  ≡ Fin (dT / (beta * T0 * (T0 - dT))).
Proof.
  intros H. unfold computeLnawFromDelta. rewrite sub_Fin, !mul_Fin.
  rewrite div_Fin by exact H. reflexivity.
Qed.



End EquilibriumShift.

(** * RootFinder *)

Section RootFinder.

#[global] Instance solve_f_proper : Proper ((≡) ==> (≡) ==> (≡)) solve_f.
Proof.
  intros t t' Ht x x' Hx. unfold solve_f. rewrite Ht, Hx. reflexivity.
Qed.

Lemma solve_f_Fin (t X : Q) : solve_f (Fin t) (Fin X) ≡ Fin (lnawQ X - t).
Proof. unfold solve_f. rewrite computeLnawFromX_Fin, sub_Fin. reflexivity. Qed.

(** The sign test of the bisection, for the target [lnawQ X]. *)
Lemma solve_f_pos_iff (t : num) (X m : Q) :
  t ≡ Fin (lnawQ X) ->
  (solve_f t (Fin m) >? 0)%num = true <-> m < X.
Proof.
  intros Ht. rewrite Ht, solve_f_Fin, gtb_Fin. split.
  - intros H. destruct (Qlt_le_dec m X) as [Hlt|Hge]; [exact Hlt|].
    pose proof (lnawQ_monotone X m Hge). lra.
  - intros H. pose proof (lnawQ_decreasing m X H). lra.
Qed.

Lemma midQ_correct (lo hi : Q) : midQ lo hi == (1 # 2) * (lo + hi).
Proof. unfold midQ. rewrite !Qred_correct. field. Qed.

Lemma bisectStep_Fin (t : num) (lo hi : Q) :
  bisectStep t (Fin lo, Fin hi)
  = if (solve_f t (Fin (midQ lo hi)) >? 0)%num
    then (Fin (midQ lo hi), Fin hi) else (Fin lo, Fin (midQ lo hi)).
Proof. reflexivity. Qed.

Lemma halvings_half (n : nat) (w : Q) : halvings n (w / 2) == halvings n w / 2.
Proof.
  revert w. induction n as [|n IH]; intros w; simpl; [reflexivity|].
  apply IH.
Qed.

Lemma halvings_comp (n : nat) (w w' : Q) :
  w == w' -> halvings n w == halvings n w'.
Proof.
  revert w w'. induction n as [|n IH]; intros w w' E; simpl; [exact E|].
  apply IH. rewrite E. reflexivity.
Qed.

Lemma halvings_scale (n : nat) (w : Q) : halvings n w == w * halvings n 1.
Proof.
  revert w. induction n as [|n IH]; intros w; simpl; [ring|].
  rewrite (IH (w / 2)), (IH (1 / 2)). field.
Qed.

(** Whatever the target, [n] passes keep a finite bracket finite and
    inside itself, and halve its width [n] times. *)
Lemma bisect_range (n : nat) (t : num) (lo hi : Q) :
  lo <= hi ->
  exists lo' hi',
    bisect n t (Fin lo, Fin hi) = (Fin lo', Fin hi')
    /\ lo <= lo' /\ lo' <= hi' /\ hi' <= hi
    /\ hi' - lo' == halvings n (hi - lo).
Proof.
  revert lo hi. induction n as [|n IH]; intros lo hi Hle.
  - exists lo, hi. simpl. repeat split; lra.
  - cbn [bisect]. rewrite bisectStep_Fin.
    pose proof (midQ_correct lo hi) as Hm.
    destruct (solve_f t (Fin (midQ lo hi)) >? 0)%num.
    + destruct (IH (midQ lo hi) hi) as (lo' & hi' & E & H1 & H2 & H3 & H4);
        [lra|].
      exists lo', hi'. repeat split; try lra; try exact E.
      rewrite H4. cbn [halvings]. apply halvings_comp. rewrite Hm. field.
    + destruct (IH lo (midQ lo hi)) as (lo' & hi' & E & H1 & H2 & H3 & H4);
        [lra|].
      exists lo', hi'. repeat split; try lra; try exact E.
      rewrite H4. cbn [halvings]. apply halvings_comp. rewrite Hm. field.
Qed.

(** For the target [lnawQ X], a bracket that holds [X] keeps holding it. *)
Lemma bisect_bracket (n : nat) (t : num) (X lo hi : Q) :
  t ≡ Fin (lnawQ X) -> lo <= X -> X <= hi ->
  exists lo' hi',
    bisect n t (Fin lo, Fin hi) = (Fin lo', Fin hi')
    /\ lo' <= X /\ X <= hi'
    /\ hi' - lo' == halvings n (hi - lo).
Proof.
  intros Ht. revert lo hi. induction n as [|n IH]; intros lo hi Hlo Hhi.
  - exists lo, hi. simpl. repeat split; lra.
  - cbn [bisect]. rewrite bisectStep_Fin.
    pose proof (midQ_correct lo hi) as Hm.
    destruct (solve_f t (Fin (midQ lo hi)) >? 0)%num eqn:Hsign.
    + apply (solve_f_pos_iff t X _ Ht) in Hsign.
      destruct (IH (midQ lo hi) hi) as (lo' & hi' & E & H1 & H2 & H4);
        [lra|lra|].
      exists lo', hi'. repeat split; try lra; try exact E.
      rewrite H4. cbn [halvings]. apply halvings_comp. rewrite Hm. field.
    + assert (Hge : X <= midQ lo hi).
      { destruct (Qlt_le_dec (midQ lo hi) X) as [Hlt|Hge]; [|exact Hge].
        apply (solve_f_pos_iff t X _ Ht) in Hlt. congruence. }
      destruct (IH lo (midQ lo hi)) as (lo' & hi' & E & H1 & H2 & H4);
        [lra|lra|].
      exists lo', hi'. repeat split; try lra; try exact E.
      rewrite H4. cbn [halvings]. apply halvings_comp. rewrite Hm. field.
Qed.

(** The grid [0.2 + 0.1 k] the upper bound walks on. *)
Lemma grid_succ (k : nat) :
  inject_Z (Z.of_nat (S k)) == inject_Z (Z.of_nat k) + 1.
Proof.
  rewrite Nat2Z.inj_succ. unfold Z.succ. rewrite inject_Z_plus. reflexivity.
Qed.

Lemma grid_bounds (k : nat) :
  (k <= 8)%nat ->
  0 <= inject_Z (Z.of_nat k) /\ inject_Z (Z.of_nat k) <= 8.
Proof.
  intros Hk. split.
  - change 0 with (inject_Z 0). rewrite <- Zle_Qle. lia.
  - change 8 with (inject_Z 8). rewrite <- Zle_Qle. lia.
Qed.

Lemma ltb_one_false (h : Q) : 1 <= h -> (Fin h <? 1)%num = false.
Proof.
  intros H. destruct (Fin h <? 1)%num eqn:E; [|reflexivity].
  apply ltb_Fin in E. lra.
Qed.

(** From [0.2], with the eight iterations [solveXFromLnaw] allows, the
    expansion loop ends on a finite bound in [0.2, 1], and it ends by its
    own test, which is false there. *)
Lemma expandHigh_grid (fuel k : nat) (t : num) (h : Q) :
  (k + fuel = 8)%nat ->
  h == 0.2 + 0.1 * inject_Z (Z.of_nat k) ->
  exists h',
    expandHigh fuel t (Fin h) = Fin h'
    /\ h <= h' /\ h' <= 1
    /\ (solve_f t (Fin h') >? 0)%num && (Fin h' <? 1)%num = false.
Proof.
  revert k h. induction fuel as [|fuel IH]; intros k h Hk Hh.
  - assert (k = 8%nat) as -> by lia.
    assert (E : h == 1) by (rewrite Hh; reflexivity).
    exists h. cbn [expandHigh]. repeat split; try lra.
    rewrite ltb_one_false by lra. apply andb_false_r.
  - cbn [expandHigh].
    destruct ((solve_f t (Fin h) >? 0)%num && (Fin h <? 1)%num) eqn:C.
    + destruct (IH (S k) (Qred (h + 0.1))) as (h' & E & H1 & H2 & H3).
      * lia.
      * rewrite Qred_correct, Hh, grid_succ. ring.
      * exists h'. change (Fin h + 0.1)%num with (Fin (Qred (h + 0.1))).
        rewrite Qred_correct in H1. repeat split; try assumption; lra.
    + destruct (grid_bounds k) as [G0 G8]; [lia|].
      exists h. repeat split; try lra. exact C.
Qed.

(** More fuel changes nothing. *)
Lemma expandHigh_fuel (extra fuel k : nat) (t : num) (h : Q) :
  (k + fuel = 8)%nat ->
  h == 0.2 + 0.1 * inject_Z (Z.of_nat k) ->
  expandHigh (fuel + extra) t (Fin h) = expandHigh fuel t (Fin h).
Proof.
  revert k h. induction fuel as [|fuel IH]; intros k h Hk Hh.
  - assert (k = 8%nat) as -> by lia.
    assert (E : h == 1) by (rewrite Hh; reflexivity).
    destruct extra as [|extra]; [reflexivity|]. cbn [expandHigh Nat.add].
    rewrite ltb_one_false by lra. rewrite andb_false_r. reflexivity.
  - cbn [expandHigh Nat.add].
    destruct ((solve_f t (Fin h) >? 0)%num && (Fin h <? 1)%num);
      [|reflexivity].
    change (Fin h + 0.1)%num with (Fin (Qred (h + 0.1))).
    apply (IH (S k)); [lia|].
    rewrite Qred_correct, Hh, grid_succ. ring.
Qed.

Lemma expandHigh_range (t : num) :
  exists h, expandHigh 8 t (Fin 0.2) = Fin h /\ 0.2 <= h /\ h <= 1.
Proof.
  destruct (expandHigh_grid 8 0 t 0.2) as (h & E & H1 & H2 & _);
    [reflexivity|reflexivity|].
  exists h. auto.
Qed.

(** [solveXFromLnaw] has no failure path: whatever the target, NaN and the
    infinities included, it returns a finite number of [0, 1]. *)
Lemma solveXFromLnaw_range (t : num) :
  exists x, solveXFromLnaw t = Fin x /\ 0 <= x /\ x <= 1.
Proof.
  unfold solveXFromLnaw.
  destruct (expandHigh_range t) as (h & -> & H1 & H2).
  destruct (bisect_range 50 t 0 h) as (lo & hi & -> & L1 & L2 & L3 & _);
    [lra|].
  exists (midQ lo hi). split; [reflexivity|].
  pose proof (midQ_correct lo hi). lra.
Qed.

(** For a target [lnawQ X] with [X] in (0, 0.3) the expansion stops at
    0.2 or at 0.3, above [X]. *)
Lemma expandHigh_bracket (t : num) (X : Q) :
  t ≡ Fin (lnawQ X) -> 0 < X -> X < 0.3 ->
  exists h, expandHigh 8 t (Fin 0.2) = Fin h /\ X <= h /\ h <= 0.3.
Proof.
  intros Ht H0 H3. cbn [expandHigh].
  destruct (solve_f t (Fin 0.2) >? 0)%num eqn:C1.
  - apply (solve_f_pos_iff t X _ Ht) in C1.
    change (Fin 0.2 <? 1)%num with true. cbn [andb].
    change (Fin 0.2 + 0.1)%num with (Fin (3 # 10)).
    destruct (solve_f t (Fin (3 # 10)) >? 0)%num eqn:C2.
    + apply (solve_f_pos_iff t X _ Ht) in C2. lra.
    + cbn [andb]. exists (3 # 10). repeat split; lra.
  - cbn [andb]. exists 0.2. split; [reflexivity|]. split; [|lra].
    destruct (Qlt_le_dec 0.2 X) as [Hlt|Hge]; [|exact Hge].
    apply (solve_f_pos_iff t X _ Ht) in Hlt. congruence.
Qed.

Lemma halvings_50 : halvings 50 1 <= 0.000001 /\ 0 <= halvings 50 1.
Proof. split; vm_compute; discriminate. Qed.

(** C6.  The bisection inverts the activity correlation: for [X] in
    (0, 0.3), [solveXFromLnaw(computeLnawFromX(X))] is within 1e-6 of [X].
    The bracket starts at [0, 0.2], its upper end grows by 0.1 while
    [f(high) > 0] and [high < 1], and 50 halvings follow. *)
Theorem solveXFromLnaw_inverts_computeLnawFromX (X : Q) :
  0 < X -> X < 0.3 ->
  exists r,
    solveXFromLnaw (computeLnawFromX (Fin X)) = Fin r
    /\ Qabs (r - X) <= 1e-6.
Proof.
  intros H0 H3. unfold solveXFromLnaw.
  pose proof (computeLnawFromX_Fin X) as Ht.
  destruct (expandHigh_bracket _ X Ht H0 H3) as (h & -> & Hh1 & Hh2).
  destruct (bisect_bracket 50 _ X 0 h Ht) as (lo & hi & -> & L1 & L2 & L3);
    [lra|lra|].
  exists (midQ lo hi). split; [reflexivity|].
  assert (Htol : 1e-6 == 0.000001) by reflexivity. rewrite Htol.
  pose proof (midQ_correct lo hi) as Hm.
  rewrite halvings_scale in L3. destruct halvings_50 as [Hs1 Hs0].
  assert (Hw : (h - 0) * halvings 50 1 <= 1 * 0.000001).
  { apply Qmult_le_compat_nonneg; split; lra. }
  apply Qabs_Qle_condition. split; lra.
Qed.

Lemma solveXFromLnaw_inverts_computeLnawFromX_witness :
  exists r,
    solveXFromLnaw (computeLnawFromX (Fin 0.25)) = Fin r
    /\ Qabs (r - 0.25) <= 1e-6.
Proof.
  apply (solveXFromLnaw_inverts_computeLnawFromX 0.25); lra.
Defined.

End RootFinder.

(** * SweepEngine, 1-D *)

Section Sweep1D.

(** A finite inverse ln(aw) leaves no room for a NaN or infinite total
    supercooling: the guard [dT_total >= T0_op], once passed, is the strict
    order [dT_total < T0_op]. *)
Lemma finite_lnaw_total_lt (beta dT T0 : num) :
  isFinite (computeLnawFromDelta beta dT T0) = true ->
  (dT >=? T0)%num = false -> (dT <? T0)%num = true.
Proof.
  unfold computeLnawFromDelta.
  destruct dT as [d| | |], T0 as [t| | |], beta as [b| | |];
    cbn; try discriminate; try reflexivity;
    try (intros _ ->; reflexivity);
    repeat match goal with
           | |- context [Qeq_bool ?x ?y] => destruct (Qeq_bool x y)
           | |- context [Qle_bool ?x ?y] => destruct (Qle_bool x y)
           | |- context [?x ?= ?y] => destruct (x ?= y)
           end; cbn; try discriminate; try reflexivity.
Qed.

Lemma ltb_not_geb (a b : num) : (a <? b)%num = true -> (a >=? b)%num = false.
Proof.
  destruct a as [x| | |], b as [y| | |]; cbn; try discriminate;
    try reflexivity.
  apply negb_true_iff.
Qed.

Lemma finite_neg_guard (l : num) :
  negb (isFinite l) || (l >=? 0)%num = false
  <-> isFinite l = true /\ (l <? 0)%num = true.
Proof.
  destruct l as [x| | |]; cbn; try (split; [discriminate | intros [? ?]; discriminate]).
  destruct (Qle_bool 0 x); cbn; split; try discriminate; auto.
  intros [_ H]. discriminate.
Qed.

Lemma finite_pos_guard (m : num) :
  negb (isFinite m) || (m <=? 0)%num = false
  <-> isFinite m = true /\ (m >? 0)%num = true.
Proof.
  destruct m as [x| | |]; cbn; try (split; [discriminate | intros [? ?]; discriminate]).
  destruct (Qle_bool x 0); cbn; split; try discriminate; auto.
  intros [_ H]. discriminate.
Qed.

Lemma computeSalinityFromX_Normal (X : num) (key : string) (p : salt) :
  destructureSalt key = Normal p ->
  exists mas, computeSalinityFromX X key = Normal mas.
Proof.
  intros H. unfold computeSalinityFromX. rewrite H. cbn [bind].
  destruct (String.eqb key "MgCl2"); eexists; reflexivity.
Qed.

Lemma computeSalinityFromX_Throw (X : num) (key : string) (x : exn) :
  destructureSalt key = Throw x -> computeSalinityFromX X key = Throw x.
Proof. intros H. unfold computeSalinityFromX. rewrite H. reflexivity. Qed.

(** The loop body emits a point exactly for the feasible steps. *)
Lemma sweepStep_emits_iff (e : sweepEnv) (i : nat) :
  (exists p, sweepStep e i = Normal (Some p)) <-> feasible e i = true.
Proof.
  unfold feasible, stepMas, stepLnaw, sweepStep.
  fold (stepTotal e i).
  set (dT := stepTotal e i).
  set (l := computeLnawFromDelta (e_beta e) dT (e_T0_op e)).
  set (X := solveXFromLnaw l).
  destruct (destructureSalt (e_saltKey e)) as [props|x] eqn:Hsalt.
  - destruct (computeSalinityFromX_Normal X _ _ Hsalt) as [mas ->].
    cbn [bind].
    destruct (dT >=? e_T0_op e)%num eqn:G1.
    { split; [intros [p H]; discriminate|].
      intros H. rewrite !andb_true_iff in H.
      destruct H as [[[[H _] _] _] _].
      apply ltb_not_geb in H. congruence. }
    destruct (negb (isFinite l) || (l >=? 0)%num) eqn:G2.
    { split; [intros [p H]; discriminate|].
      intros H. rewrite !andb_true_iff in H.
      destruct H as [[[[_ H1] H2] _] _].
      rewrite (proj2 (finite_neg_guard l)) in G2 by auto. discriminate. }
    destruct (negb (isFinite mas) || (mas <=? 0)%num) eqn:G3.
    { split; [intros [p H]; discriminate|].
      intros H. rewrite !andb_true_iff in H.
      destruct H as [[[[_ _] _] H1] H2].
      rewrite (proj2 (finite_pos_guard mas)) in G3 by auto. discriminate. }
    apply finite_neg_guard in G2 as [F2 N2].
    apply finite_pos_guard in G3 as [F3 P3].
    split; [intros _|intros _; eexists; reflexivity].
    rewrite (finite_lnaw_total_lt _ _ _ F2 G1), F2, N2, F3, P3. reflexivity.
  - rewrite (computeSalinityFromX_Throw X _ _ Hsalt). cbn [bind].
    split; [|discriminate]. intros [p H].
    destruct (dT >=? e_T0_op e)%num; [discriminate|].
    destruct (negb (isFinite l) || (l >=? 0)%num); discriminate.
Qed.

(** What an emitted point holds. *)
Lemma sweepStep_inv (e : sweepEnv) (i : nat) (p : sweepPoint) :
  sweepStep e i = Normal (Some p) ->
  exists mas,
    stepMas e i = Normal mas
    /\ p_mas p = mas
    /\ p_mwy p = massBalanceMWY (e_initialNaClG e) (e_initialWaterG e) mas
    /\ p_dT_extra p = (e_dTmin e + e_step e * ofNat i)%num
    /\ p_lnawMas p = stepLnaw e i
    /\ p_X_mas p = solveXFromLnaw (stepLnaw e i)
    /\ p_naclG p = e_initialNaClG e.
Proof.
  unfold stepMas, stepLnaw, sweepStep. fold (stepTotal e i).
  destruct (stepTotal e i >=? e_T0_op e)%num; [discriminate|].
  destruct (negb _ || _); [discriminate|].
  destruct (computeSalinityFromX _ _) as [mas|x]; [|discriminate].
  cbn [bind]. destruct (negb _ || _); [discriminate|].
  destruct (destructureSalt _) as [props|x]; [|discriminate].
  cbn [bind]. intros [= <-]. exists mas. cbn. repeat split; reflexivity.
Qed.

Lemma sweepStep_Normal (e : sweepEnv) (i : nat) (props : salt) :
  destructureSalt (e_saltKey e) = Normal props ->
  exists r, sweepStep e i = Normal r.
Proof.
  intros Hsalt. unfold sweepStep.
  destruct (_ >=? _)%num; [eexists; reflexivity|].
  destruct (negb _ || _); [eexists; reflexivity|].
  destruct (computeSalinityFromX_Normal
              (solveXFromLnaw
                 (computeLnawFromDelta (e_beta e)
                    (e_dT_init_op e + (e_dTmin e + e_step e * ofNat i))%num
                    (e_T0_op e)))
              _ _ Hsalt) as [mas ->].
  cbn [bind]. destruct (negb _ || _); [eexists; reflexivity|].
  rewrite Hsalt. cbn [bind]. eexists; reflexivity.
Qed.

(** The loop pushes the points of its steps, in the order of the steps. *)
Lemma sweepLoop_fold (e : sweepEnv) (l : list nat) (acc : list sweepPoint) :
  (forall i, exists r, sweepStep e i = Normal r) ->
  fold_left
    (fun s i =>
       let* pts := s in
       let* r := sweepStep e i in
       Normal (match r with Some p => pts ++ [p] | None => pts end))
    l (Normal acc)
  = Normal (acc ++ omap (stepPoint e) l).
Proof.
  intros Hn. revert acc. induction l as [|i l IH]; intros acc.
  - cbn. rewrite app_nil_r. reflexivity.
  - cbn [fold_left omap list_omap]. unfold stepPoint at 1.
    destruct (Hn i) as [r ->]. cbn [bind]. rewrite IH.
    destruct r as [p|]; [|reflexivity].
    rewrite <- app_assoc. reflexivity.
Qed.

Lemma sweepLoop_Normal (e : sweepEnv) (props : salt) :
  destructureSalt (e_saltKey e) = Normal props ->
  sweepLoop e = Normal (omap (stepPoint e) (seq 0 nPoints)).
Proof.
  intros Hsalt. unfold sweepLoop, for_range.
  rewrite sweepLoop_fold; [reflexivity|].
  intros i. apply (sweepStep_Normal e i props Hsalt).
Qed.

Lemma stepPoint_Some (e : sweepEnv) (i : nat) (p : sweepPoint) :
  stepPoint e i = Some p <-> sweepStep e i = Normal (Some p).
Proof.
  unfold stepPoint. destruct (sweepStep e i) as [r|x].
  - split; [intros ->; reflexivity | intros [= ->]; reflexivity].
  - split; discriminate.
Qed.

Lemma sweepEnvOf_inv (beta T0_op : num) (saltKey : string)
  (s dTmin dTmax : num) (e : sweepEnv) :
  sweepEnvOf beta T0_op saltKey s dTmin dTmax = Normal e ->
  e_saltKey e = saltKey /\ e_beta e = beta /\ e_T0_op e = T0_op
  /\ e_initialNaClG e = s /\ e_initialWaterG e = (100 - s)%num
  /\ exists props, destructureSalt saltKey = Normal props.
Proof.
  unfold sweepEnvOf, computeXFromSalinity.
  destruct (destructureSalt saltKey) as [props|x]; [|discriminate].
  cbn [bind]. destruct (String.eqb saltKey "MgCl2"); cbn [bind];
    intros [= <-]; cbn; repeat split; eauto.
Qed.

Lemma operatingPoint_inv (ui : page) (inp : inputs) (st st' : caches)
  (e : sweepEnv) :
  operatingPoint ui inp st = Normal (inr e, st') ->
  exists beta T0_op dTmin dTmax,
    sweepEnvOf beta T0_op (in_salt inp) (in_salinity inp) dTmin dTmax
    = Normal e
    /\ isFinite T0_op = true.
Proof.
  unfold operatingPoint.
  destruct (isNaN _ || _ || _ || _); [discriminate|].
  destruct (if (in_dTmin inp >? in_dTmax inp)%num then _ else _)
    as [dTmin dTmax].
  destruct (computeBeta _ _) as [beta|x]; [|discriminate]. cbn [bind].
  destruct (getT0AtPressure _ _ _ _ _) as [[T0_op st1]|x]; [|discriminate].
  cbn [bind]. destruct (isFinite T0_op) eqn:F; [|discriminate]. cbn [negb].
  destruct (sweepEnvOf _ _ _ _ _ _) as [e1|x] eqn:He; [|discriminate].
  cbn [bind]. intros [= <- <-]. exists beta, T0_op, dTmin, dTmax. auto.
Qed.

(** The last alert of the handler is raised by the sweep alone. *)
Lemma calculate_NoFeasible_inv (ui : page) (inp : inputs) (st st' : caches) :
  calculate ui inp st = Normal (Alerted AlertNoFeasiblePoints, st') ->
  exists e, operatingPoint ui inp st = Normal (inr e, st')
            /\ sweepLoop e = Normal [].
Proof.
  unfold calculate.
  destruct (operatingPoint ui inp st) as [[[a|e] st1]|x] eqn:Hop;
    cbn [bind]; [| |discriminate].
  - intros [= Ha <-]. exfalso. revert Hop. unfold operatingPoint.
    destruct (isNaN _ || _ || _ || _); [intros [= <- _]; discriminate|].
    destruct (if (in_dTmin inp >? in_dTmax inp)%num then _ else _)
      as [dTmin dTmax].
    destruct (computeBeta _ _) as [beta|x]; [|discriminate]. cbn [bind].
    destruct (getT0AtPressure _ _ _ _ _) as [[T0_op st2]|x]; [|discriminate].
    cbn [bind]. destruct (isFinite T0_op); cbn [negb];
      [|intros [= <- _]; discriminate].
    destruct (sweepEnvOf _ _ _ _ _ _); discriminate.
  - destruct (sweepLoop e) as [pts|x] eqn:Hl; [|discriminate]. cbn [bind].
    destruct pts as [|p pts]; [|discriminate]. cbn [length Nat.eqb].
    intros [= <-]. exists e. auto.
Qed.

(** C7.  In a sweep the handler reaches, a step is emitted if and only if
    its total supercooling is strictly below T0, the inverse ln(aw) is
    finite and negative, and the MAS is finite and positive ([feasible]);
    the emitted points are those of the steps, none of them with a total
    supercooling at or above T0; and the handler ends in the
    no-feasible-points alert exactly when no step is emitted. *)
Theorem sweep_emission_rule (ui : page) (inp : inputs) (st st' : caches)
  (e : sweepEnv) :
  operatingPoint ui inp st = Normal (inr e, st') ->
  (forall i,
      (exists p, sweepStep e i = Normal (Some p)) <-> feasible e i = true)
  /\ exists pts,
      sweepLoop e = Normal pts
      /\ (forall p,
             p ∈ pts <->
             exists i, (i < nPoints)%nat /\ sweepStep e i = Normal (Some p))
      /\ (forall p,
             p ∈ pts ->
             (e_dT_init_op e + p_dT_extra p <? e_T0_op e)%num = true
             /\ (e_dT_init_op e + p_dT_extra p >=? e_T0_op e)%num = false)
      /\ (calculate ui inp st = Normal (Alerted AlertNoFeasiblePoints, st')
           <-> pts = [])
      /\ (pts = [] <->
           forall i, (i < nPoints)%nat -> feasible e i = false).
Proof.
  intros Hop. split; [apply sweepStep_emits_iff|].
  destruct (operatingPoint_inv _ _ _ _ _ Hop)
    as (beta & T0_op & dTmin & dTmax & He & _).
  destruct (sweepEnvOf_inv _ _ _ _ _ _ _ He)
    as (Hkey & _ & _ & _ & _ & props & Hsalt).
  rewrite <- Hkey in Hsalt.
  pose proof (sweepLoop_Normal e props Hsalt) as Hloop.
  exists (omap (stepPoint e) (seq 0 nPoints)).
  assert (Hmem : forall p,
             p ∈ omap (stepPoint e) (seq 0 nPoints) <->
             exists i, (i < nPoints)%nat /\ sweepStep e i = Normal (Some p)).
  { intros p. rewrite list_elem_of_omap. split.
    - intros (i & Hi & Hp). apply elem_of_seq in Hi.
      exists i. split; [lia|]. apply stepPoint_Some, Hp.
    - intros (i & Hi & Hp). exists i. split.
      + apply elem_of_seq. lia.
      + apply stepPoint_Some, Hp. }
  split; [exact Hloop|]. split; [exact Hmem|]. split; [|split].
  - intros p Hp. apply Hmem in Hp as (i & _ & Hstep).
    destruct (sweepStep_inv _ _ _ Hstep) as (mas & _ & _ & _ & Hx & _).
    assert (Hf : feasible e i = true)
      by (apply sweepStep_emits_iff; eauto).
    unfold feasible in Hf. destruct (stepMas e i); [|discriminate].
    rewrite !andb_true_iff in Hf. destruct Hf as [[[[Hlt _] _] _] _].
    rewrite Hx. fold (stepTotal e i). split; [exact Hlt|].
    apply ltb_not_geb, Hlt.
  - unfold calculate. rewrite Hop. cbn [bind]. rewrite Hloop. cbn [bind].
    destruct (omap (stepPoint e) (seq 0 nPoints)) as [|p pts]; cbn.
    + split; reflexivity.
    + split; discriminate.
  - split.
    + intros Hnil i Hi. destruct (feasible e i) eqn:Hf; [|reflexivity].
      apply sweepStep_emits_iff in Hf as [p Hp].
      assert (Hin : p ∈ omap (stepPoint e) (seq 0 nPoints))
        by (apply Hmem; eauto).
      rewrite Hnil in Hin. apply not_elem_of_nil in Hin. contradiction.
    + intros Hall. apply elem_of_nil_inv. intros p Hp.
      apply Hmem in Hp as (i & Hi & Hstep).
      assert (Hf : feasible e i = true)
        by (apply sweepStep_emits_iff; eauto).
      rewrite (Hall i Hi) in Hf. discriminate.
Qed.

Lemma sweep_emission_rule_witness :
  exists e st',
    operatingPoint refPage refInputs noCaches = Normal (inr e, st')
    /\ (forall i,
          (exists p, sweepStep e i = Normal (Some p)) <-> feasible e i = true)
    /\ exists pts,
        sweepLoop e = Normal pts
        /\ (forall p,
               p ∈ pts <->
               exists i, (i < nPoints)%nat /\ sweepStep e i = Normal (Some p))
        /\ (forall p,
               p ∈ pts ->
               (e_dT_init_op e + p_dT_extra p <? e_T0_op e)%num = true
               /\ (e_dT_init_op e + p_dT_extra p >=? e_T0_op e)%num = false)
        /\ (calculate refPage refInputs noCaches
             = Normal (Alerted AlertNoFeasiblePoints, st')
             <-> pts = [])
        /\ (pts = [] <->
             forall i, (i < nPoints)%nat -> feasible e i = false).
Proof.
  eexists. eexists. split; [vm_compute; reflexivity|].
  apply (sweep_emission_rule refPage refInputs noCaches).
  vm_compute. reflexivity.
Defined.

#[global] Instance massBalanceMWY_proper :
  Proper ((≡) ==> (≡) ==> (≡) ==> (≡)) massBalanceMWY.
Proof.
  intros a a' Ha w w' Hw m m' Hm. unfold massBalanceMWY.
  rewrite Ha, Hw, Hm. reflexivity.
Qed.

Lemma massBalanceMWY_Fin (s w mas : Q) :
  ~ w == 0 -> ~ mas == 0 ->
  massBalanceMWY (Fin s) (Fin w) (Fin mas)
  ≡ Fin ((w - s * (100 / mas - 1)) / w * 100).
Proof.
  intros Hw Hm. unfold massBalanceMWY.
  rewrite (div_Fin 100 mas) by exact Hm.
  rewrite sub_Fin, mul_Fin, sub_Fin, div_Fin, mul_Fin by exact Hw.
  reflexivity.
Qed.

(** The mass balance stays in [0, 100] exactly for a MAS between the
    initial salinity and 100. *)
Lemma massBalance_range (s mas m : Q) :
  0 < s -> s < 100 -> 0 < mas ->
  m == ((100 - s) - s * (100 / mas - 1)) / (100 - s) * 100 ->
  (0 <= m /\ m <= 100) <-> (s <= mas /\ mas <= 100).
Proof.
  intros H0 H1 Hm E.
  assert (K : m * ((100 - s) * mas) == 10000 * (mas - s)).
  { rewrite E. field. split; lra. }
  assert (Hp : 0 < (100 - s) * mas) by (apply Qmult_lt_0_compat; lra).
  split; intros [A B]; split; nra.
Qed.

(** C8, as the code has it.  The 1-D sweep neither clamps MWY nor
    filters on it: an emitted point carries the mass-balance value of its
    MAS as computed, whether or not that value lies in [0, 100]. *)
Theorem sweep_mwy_unclamped (beta T0_op dTmin dTmax : num) (saltKey : string)
  (s : Q) (e : sweepEnv) (i : nat) (p : sweepPoint) :
  0 < s -> s < 100 ->
  sweepEnvOf beta T0_op saltKey (Fin s) dTmin dTmax = Normal e ->
  sweepStep e i = Normal (Some p) ->
  p_mwy p = massBalanceMWY (Fin s) (100 - Fin s)%num (p_mas p)
  /\ exists mas m,
       p_mas p = Fin mas /\ 0 < mas
       /\ p_mwy p = Fin m
       /\ m == ((100 - s) - s * (100 / mas - 1)) / (100 - s) * 100.
Proof.
  intros H0 H1 He Hstep.
  destruct (sweepEnvOf_inv _ _ _ _ _ _ _ He)
    as (_ & _ & _ & Hsalt & Hwater & _).
  assert (Hf : feasible e i = true) by (apply sweepStep_emits_iff; eauto).
  destruct (sweepStep_inv _ _ _ Hstep) as (mas & Hmas & Hp & Hmwy & _).
  unfold feasible in Hf. rewrite Hmas in Hf.
  rewrite !andb_true_iff in Hf. destruct Hf as [[_ Hfin] Hpos].
  destruct mas as [q| | |]; try discriminate. apply gtb_Fin in Hpos.
  destruct (equiv_Fin_inv (p_mwy p)
              (((100 - s) - s * (100 / q - 1)) / (100 - s) * 100))
    as (m & Hm & Hmq).
  { rewrite Hmwy, Hsalt, Hwater, sub_Fin.
    apply massBalanceMWY_Fin; lra. }
  split; [rewrite Hmwy, Hsalt, Hwater, Hp; reflexivity|].
  exists q, m.
  split; [exact Hp|]. split; [exact Hpos|]. split; [exact Hm|]. exact Hmq.
Qed.

Lemma sweep_mwy_unclamped_witness :
  exists e p,
    sweepEnvOf (Fin (-0.0012426)) (Fin 280.15) "NaCl" (Fin 8) 0.5 5
    = Normal e
    /\ sweepStep e 0 = Normal (Some p)
    /\ p_mwy p = massBalanceMWY (Fin 8) (100 - Fin 8)%num (p_mas p)
    /\ exists mas m,
        p_mas p = Fin mas /\ 0 < mas
        /\ p_mwy p = Fin m
        /\ m == ((100 - 8) - 8 * (100 / mas - 1)) / (100 - 8) * 100.
Proof.
  eexists. eexists. split; [vm_compute; reflexivity|].
  split; [vm_compute; reflexivity|].
  eapply (sweep_mwy_unclamped (Fin (-0.0012426)) (Fin 280.15) 0.5 5 "NaCl" 8)
    with (i := 0%nat);
    [lra | lra | vm_compute; reflexivity | vm_compute; reflexivity].
Defined.

(** C8 as stated fails: with the extra supercooling running from -1 K to
    0 K the handler stores a result whose first point has a negative
    MWY. *)
Lemma sweep_mwy_range_counterexample :
  exists r st' p,
    calculate refPage coldInputs noCaches = Normal (Computed r, st')
    /\ r_points r !! 0%nat = Some p
    /\ (p_mwy p <? 0)%num = true.
Proof.
  eexists. eexists. eexists. split; [vm_compute; reflexivity|].
  split; [reflexivity|]. vm_compute. reflexivity.
Qed.

End Sweep1D.

(** * ReferenceCurveFit: the caches *)

Section FitCaches.

(** A cached polynomial answers for its key whatever points the gas
    object holds now. *)
Lemma getT0AtPressure_cached (ui : page) (P : num) (st : caches)
  (coeffs : list num) :
  t0FitCache st !! "Custom"%string = Some coeffs ->
  getCustomDataPoints ui <> [] ->
  getT0AtPressure ui "Custom" P "poly" st
  = Normal (evalPolynomial coeffs P, st).
Proof.
  intros Hc Hpts. unfold getT0AtPressure.
  change (getGasObject ui "Custom") with
    (Some {| structure := if String.eqb (customStructure ui) EmptyString
                          then "sI"%string else customStructure ui;
             betaX := customBetaX ui;
             data := Some (getCustomDataPoints ui);
             t0_atm := None |}).
  cbn [data default String.eqb Ascii.eqb Bool.eqb].
  destruct (getCustomDataPoints ui) as [|pt pts]; [contradiction|].
  cbn [length Nat.eqb]. rewrite Hc. reflexivity.
Qed.

(** Every polynomial request that finds custom points leaves a fit under
    the key [Custom] in the cache. *)
Lemma getT0AtPressure_caches_custom (ui : page) (P t : num)
  (st st' : caches) :
  getCustomDataPoints ui <> [] ->
  getT0AtPressure ui "Custom" P "poly" st = Normal (t, st') ->
  is_Some (t0FitCache st' !! "Custom"%string).
Proof.
  intros Hpts. unfold getT0AtPressure.
  change (getGasObject ui "Custom") with
    (Some {| structure := if String.eqb (customStructure ui) EmptyString
                          then "sI"%string else customStructure ui;
             betaX := customBetaX ui;
             data := Some (getCustomDataPoints ui);
             t0_atm := None |}).
  cbn [data default String.eqb Ascii.eqb Bool.eqb].
  destruct (getCustomDataPoints ui) as [|pt pts]; [contradiction|].
  cbn [length Nat.eqb].
  destruct (t0FitCache st !! "Custom"%string) as [coeffs|] eqn:Hc.
  - intros [= _ <-]. rewrite Hc. eexists; reflexivity.
  - destruct (fitPolynomial _ _ _) as [coeffs|x]; [|discriminate].
    cbn [bind]. intros [= _ <-]. cbn [t0FitCache].
    rewrite lookup_insert_eq. eexists; reflexivity.
Qed.

(** C2 fails on the code.  A first polynomial request for the Custom gas
    stores its fit under the key [Custom]; a second request, made after the
    custom points have changed, returns the T0 of the first points (280 K
    at 1 MPa) and not that of the current ones (300 K). *)
Theorem custom_fit_is_cached :
  exists st1,
    getT0AtPressure (customPage customPointsA) "Custom" 1 "poly" noCaches
    = Normal (Fin 280, st1)
    /\ t0FitCache st1 !! "Custom"%string = Some [Fin 270; Fin 10]
    /\ getT0AtPressure (customPage customPointsB) "Custom" 1 "poly" st1
       = Normal (Fin 280, st1)
    /\ exists st2,
        getT0AtPressure (customPage customPointsB) "Custom" 1 "poly" noCaches
        = Normal (Fin 300, st2).
Proof.
  eexists. split; [vm_compute; reflexivity|].
  split; [vm_compute; reflexivity|].
  split; [vm_compute; reflexivity|].
  eexists. vm_compute. reflexivity.
Qed.

(** The spline cache behaves alike. *)
Lemma custom_spline_is_cached :
  exists st1,
    getT0AtPressure (customPage customPointsA) "Custom" 1 "spline" noCaches
    = Normal (Fin 280, st1)
    /\ getT0AtPressure (customPage customPointsB) "Custom" 1 "spline" st1
       = Normal (Fin 280, st1).
Proof.
  eexists. split; vm_compute; reflexivity.
Qed.

End FitCaches.

(** * SweepEngine, 2-D *)

Section Sweep2D.

(** The grid's yield formula against the mass balance of the 1-D sweep:
    the two differ by the water fraction of the initial solution. *)
Lemma grid_formula_scaled (s mas : Q) :
  ~ mas == 0 -> ~ 100 - s == 0 ->
  (mas - s) / mas * 100
  == ((100 - s) - s * (100 / mas - 1)) / (100 - s) * 100 * ((100 - s) / 100).
Proof. intros Hm Hs. field. split; assumption. Qed.

(** The active branch of a cell: the MAS of the inversion chain, and the
    yield [(mas - sInit) / mas * 100] clamped into [0, 100]. *)
Lemma heatmapCell_active (beta T0_op masMinNorm range sInit dT_init_op
  Tform mas : num) (saltKey : string) (cell : heatCell) :
  let dT_total := max 0 (T0_op - Tform)%num in
  let lnawMas := computeLnawFromDelta beta dT_total T0_op in
  (dT_total >=? dT_init_op)%num = true -> (dT_total <? T0_op)%num = true ->
  isFinite lnawMas = true -> (lnawMas <? 0)%num = true ->
  computeSalinityFromX (solveXFromLnaw lnawMas) saltKey = Normal mas ->
  isFinite mas = true -> (mas >? 0)%num = true ->
  heatmapCell beta T0_op saltKey masMinNorm range sInit dT_init_op Tform
  = Normal cell ->
  c_mas cell = mas
  /\ c_mwy cell = max 0 (min 100 (((mas - sInit) / mas) * 100)%num).
Proof.
  intros dT_total lnawMas G1 G2 F1 N1 Hmas F2 P2. unfold heatmapCell.
  fold dT_total. fold lnawMas.
  rewrite G1, G2, F1, N1, Hmas. cbn [andb bind]. rewrite F2, P2.
  cbn [andb bind]. intros [= <-]. split; reflexivity.
Qed.

(** Wherever the initial salinity lies in (0, 100) and the MAS above it,
    an active cell shows less than the mass balance of the 1-D sweep. *)
Lemma heatmap_mwy_lt_sweep_mwy (beta T0_op masMinNorm range dT_init_op
  Tform : num) (saltKey : string) (s q : Q) (cell : heatCell) :
  let dT_total := max 0 (T0_op - Tform)%num in
  let lnawMas := computeLnawFromDelta beta dT_total T0_op in
  0 < s -> s < 100 -> s < q ->
  (dT_total >=? dT_init_op)%num = true -> (dT_total <? T0_op)%num = true ->
  isFinite lnawMas = true -> (lnawMas <? 0)%num = true ->
  computeSalinityFromX (solveXFromLnaw lnawMas) saltKey = Normal (Fin q) ->
  heatmapCell beta T0_op saltKey masMinNorm range (Fin s) dT_init_op Tform
  = Normal cell ->
  (c_mwy cell
   <? massBalanceMWY (Fin s) (100 - Fin s)%num (c_mas cell))%num = true.
Proof.
  intros dT_total lnawMas H0 H1 Hq G1 G2 F1 N1 Hmas Hcell.
  destruct (heatmapCell_active beta T0_op masMinNorm range (Fin s)
              dT_init_op Tform (Fin q) saltKey cell G1 G2 F1 N1 Hmas)
    as [-> ->]; [reflexivity | apply gtb_Fin; lra | exact Hcell |].
  set (t := (q - s) / q).
  assert (Ht : t * q == q - s) by (unfold t; field; lra).
  assert (Ht0 : 0 < t) by (apply Qlt_shift_div_l; lra).
  assert (Ht1 : t < 1) by (apply Qlt_shift_div_r; lra).
  rewrite sub_Fin, div_Fin, mul_Fin by lra. fold t.
  rewrite min_Fin_r, max_Fin_r by lra.
  rewrite sub_Fin, massBalanceMWY_Fin by lra.
  apply ltb_Fin.
  pose proof (grid_formula_scaled s q) as E. fold t in E.
  set (w := (100 - s - s * (100 / q - 1)) / (100 - s) * 100) in *.
  assert (Hr : (100 - s) / 100 == (1 # 100) * (100 - s)) by field.
  rewrite Hr in E.
  assert (E' : t * 100 == w * ((1 # 100) * (100 - s))) by (apply E; lra).
  nra.
Qed.

(** C1 fails on the code.  For NaCl at 8 wt% under cyclopentane
    (T0 = 280.15 K) and a formation temperature of 270 K the cell lies in
    the active branch, with a finite positive MAS, and its MWY is below the
    mass-balance value the 1-D sweep computes for that MAS. *)
Theorem heatmap_mwy_below_sweep_mwy :
  exists dT_init cell,
    rowInitialSupercooling (Fin (-0.0012426)) (Fin 280.15) "NaCl" (Fin 8)
    = Normal dT_init
    /\ heatmapCell (Fin (-0.0012426)) (Fin 280.15) "NaCl" 0 1 (Fin 8)
         dT_init (Fin 270)
       = Normal cell
    /\ (max 0 (280.15 - 270)%num >=? dT_init)%num = true
    /\ (max 0 (280.15 - 270)%num <? 280.15)%num = true
    /\ isFinite (c_mas cell) = true /\ (c_mas cell >? 0)%num = true
    /\ (c_mwy cell
         <? massBalanceMWY (Fin 8) (100 - 8)%num (c_mas cell))%num = true.
Proof.
  eexists. eexists. split; [vm_compute; reflexivity|].
  split; [vm_compute; reflexivity|].
  repeat split; vm_compute; reflexivity.
Qed.

End Sweep2D.

(** * ReferenceCurveFit: Gaussian elimination *)

Section Elimination.

(** Loop invariants: a property the body keeps holds after the loop, and
    a property indexed by the number of passes holds at [hi - lo]. *)
Lemma for_range_inv {St : Type} (P : St -> Prop) (lo hi : nat)
  (body : nat -> St -> St) (s : St) :
  P s -> (forall i s, P s -> P (body i s)) -> P (for_range lo hi body s).
Proof.
  intros H0 Hstep. unfold for_range.
  generalize (seq lo (hi - lo)). intros l. revert s H0.
  induction l as [|i l IH]; intros s H0; cbn; [exact H0|].
  apply IH, Hstep, H0.
Qed.

Lemma for_range_count {St : Type} (P : nat -> St -> Prop) (lo hi : nat)
  (body : nat -> St -> St) (s : St) :
  P 0%nat s -> (forall k i s, P k s -> P (S k) (body i s)) ->
  P (hi - lo)%nat (for_range lo hi body s).
Proof.
  intros H0 Hstep. unfold for_range.
  assert (G : forall l k s, P k s ->
                P (k + length l)%nat (fold_left (fun s i => body i s) l s)).
  { induction l as [|i l IH]; intros k s' Hk; cbn.
    - rewrite Nat.add_0_r. exact Hk.
    - rewrite <- Nat.add_succ_comm. apply IH, Hstep, Hk. }
  pose proof (G (seq lo (hi - lo)) 0%nat s H0) as H.
  rewrite length_seq in H. exact H.
Qed.

Lemma swap_length {X : Type} (a : list X) (i j : nat) :
  length (swap a i j) = length a.
Proof.
  unfold swap. destruct (a !! i), (a !! j); try reflexivity.
  rewrite !length_insert. reflexivity.
Qed.

Lemma or_else_truthy (a b : num) :
  truthy b = true -> truthy (or_else a b) = true.
Proof.
  intros Hb. unfold or_else. destruct (truthy a) eqn:Ha; assumption.
Qed.

(** The divisor of a column is never zero and never NaN. *)
Lemma pivotOf_truthy (A : matrix) (i : nat) : truthy (pivotOf A i) = true.
Proof. apply or_else_truthy. reflexivity. Qed.

Lemma truthy_nonzero (a : num) : truthy a = true -> ~ a ≡ Fin 0.
Proof.
  destruct a as [x| | |]; cbn; try discriminate;
    unfold equiv, num_equiv; cbn; try tauto.
  intros H E. apply negb_true_iff in H. apply Qeq_bool_neq in H.
  contradiction.
Qed.

(** A pass of the elimination keeps the length of [c] and records one
    more divisor, usable as such. *)
Lemma elimStep_spec (d i : nat) (A : matrix) (c divisors : list num) :
  exists A' c' p,
    elimStep d i (A, c, divisors) = (A', c', divisors ++ [p])
    /\ length c' = length c /\ truthy p = true.
Proof.
  unfold elimStep.
  destruct (if Nat.eqb (findMaxRow A i d) i then (A, c) else _)
    as [A1 c1] eqn:Hswap.
  assert (Hc1 : length c1 = length c).
  { destruct (Nat.eqb (findMaxRow A i d) i); injection Hswap as <- <-;
      [reflexivity | apply swap_length]. }
  set (pivot := pivotOf A1 i).
  set (A2 := for_range i (d + 1) _ A1).
  set (c2 := <[i := (idx c1 i / pivot)%num]> c1).
  assert (Hc2 : length c2 = length c1) by apply length_insert.
  match goal with
  | |- context [for_range 0 (d + 1) ?body (A2, c2)] =>
      pose proof (for_range_inv (fun st => length (snd st) = length c)
                    0 (d + 1) body (A2, c2)) as Hinv
  end.
  destruct (for_range 0 (d + 1) _ (A2, c2)) as [A3 c3].
  exists A3, c3, pivot. split; [reflexivity|].
  split; [|apply pivotOf_truthy].
  apply Hinv; [cbn; congruence|].
  intros r [Ar cr] Hr. cbn in Hr.
  destruct (Nat.eqb r i); cbn; [exact Hr|].
  rewrite length_insert. exact Hr.
Qed.

Lemma moments_length (xs ys : list num) (d : nat) :
  length (moments xs ys d) = (d + 1)%nat.
Proof.
  unfold moments.
  apply (for_range_inv (fun b => length b = (d + 1)%nat)).
  - apply length_replicate.
  - intros i b Hb.
    apply (for_range_inv (fun b => length b = (d + 1)%nat)); [exact Hb|].
    intros k b' Hb'. rewrite length_insert. exact Hb'.
Qed.

(** C10, as the code has it.  For a non-empty sample list and a
    non-negative degree, [fitPolynomial] returns an array of
    [min(degree, n - 1) + 1] coefficients without raising, and each of the
    divisors of its elimination, one for each column, is neither zero nor
    NaN: a zero (or NaN) diagonal entry is replaced by 1e-12. *)
Theorem fitPolynomial_total (xs ys : list num) (degree : Z) :
  xs <> [] -> (0 <= degree)%Z ->
  exists c divisors,
    fitPolynomial_run xs ys degree = Normal (c, divisors)
    /\ fitPolynomial xs ys degree = Normal c
    /\ Z.of_nat (length c)
       = (Z.min degree (Z.of_nat (length xs) - 1) + 1)%Z
    /\ length divisors = length c
    /\ Forall (fun p => truthy p = true /\ ~ p ≡ Fin 0) divisors.
Proof.
  intros Hxs Hdeg. unfold fitPolynomial, fitPolynomial_run.
  assert (Hn : (1 <= Z.of_nat (length xs))%Z)
    by (destruct xs; [contradiction | cbn [length]; lia]).
  set (dz := Z.min degree (Z.of_nat (length xs) - 1)).
  assert (Hdz : (0 <= dz)%Z) by (unfold dz; lia).
  destruct (2 * dz + 1 <? 0)%Z eqn:Hneg; [apply Z.ltb_lt in Hneg; lia|].
  set (d := Z.to_nat dz).
  pose proof (for_range_count
                (fun k (st : matrix * list num * list num) =>
                   length (snd (fst st)) = (d + 1)%nat
                   /\ length (snd st) = k
                   /\ Forall (fun p => truthy p = true /\ ~ p ≡ Fin 0)
                        (snd st))
                0 (d + 1) (elimStep d)
                (normalMatrix (powerSums xs d) d, moments xs ys d, []))
    as Hloop.
  destruct (for_range 0 (d + 1) (elimStep d) _) as [[A c] divisors].
  destruct Hloop as (Hc & Hd & Hall).
  - cbn. split; [apply moments_length|]. split; [reflexivity|constructor].
  - intros k i [[A1 c1] div1] (H1 & H2 & H3). cbn in H1, H2, H3.
    destruct (elimStep_spec d i A1 c1 div1) as (A' & c' & p & -> & Hl & Hp).
    cbn. split; [congruence|]. split.
    + rewrite length_app. cbn. lia.
    + apply Forall_app. split; [exact H3|].
      constructor; [|constructor]. split; [exact Hp|].
      apply truthy_nonzero, Hp.
  - cbn in Hc, Hd, Hall. exists c, divisors. cbn [bind fst].
    repeat split; try assumption; [|rewrite Hd, Hc; lia].
    rewrite Hc. unfold d. fold dz. lia.
Qed.

Lemma fitPolynomial_total_witness :
  exists c divisors,
    fitPolynomial_run [Fin 1; Fin 1] [Fin 1; Fin 4] 3 = Normal (c, divisors)
    /\ fitPolynomial [Fin 1; Fin 1] [Fin 1; Fin 4] 3 = Normal c
    /\ Z.of_nat (length c)
       = (Z.min 3 (Z.of_nat (length [Fin 1; Fin 1]) - 1) + 1)%Z
    /\ length divisors = length c
    /\ Forall (fun p => truthy p = true /\ ~ p ≡ Fin 0) divisors.
Proof.
  apply (fitPolynomial_total [Fin 1; Fin 1] [Fin 1; Fin 4] 3);
    [discriminate | lia].
Defined.

(** C10 as stated fails: on the empty sample list [new Array(2 * d + 1)]
    has the length -1 and the call raises, where the claim has it return
    an empty array. *)
Lemma fitPolynomial_empty_counterexample :
  fitPolynomial [] [] 3 = Throw RangeError.
Proof. reflexivity. Qed.

End Elimination.

(** * RootFinder: the whole search range and the targets without a root *)

Section RootFinderRange.

(** Where the expansion stops for a target [lnawQ X] with [X] in [0, 1]:
    on a bound of the grid at or above [X]. *)
Lemma expandHigh_covers (t : num) (X : Q) :
  t ≡ Fin (lnawQ X) -> 0 <= X -> X <= 1 ->
  exists h, expandHigh 8 t (Fin 0.2) = Fin h /\ X <= h /\ h <= 1.
Proof.
  intros Ht H0 H1.
  destruct (expandHigh_grid 8 0 t 0.2) as (h & E & Hl & Hu & Hexit);
    [reflexivity|reflexivity|].
  exists h. split; [exact E|]. split; [|exact Hu].
  apply andb_false_iff in Hexit as [Hf|Hone].
  - destruct (Qlt_le_dec h X) as [Hlt|Hge]; [|exact Hge].
    apply (solve_f_pos_iff t X h Ht) in Hlt. congruence.
  - destruct (Qlt_le_dec h 1) as [Hlt|Hge]; [|lra].
    apply ltb_Fin in Hlt. congruence.
Qed.

(** X1.  On the whole search range the bisection inverts the activity
    correlation: for every [X] in [0, 1],
    [solveXFromLnaw(computeLnawFromX(X))] is within 1e-12 of [X]. *)
Theorem solveXFromLnaw_inverts_on_unit_interval (X : Q) :
  0 <= X -> X <= 1 ->
  exists r,
    solveXFromLnaw (computeLnawFromX (Fin X)) = Fin r
    /\ Qabs (r - X) <= 0.000000000001.
Proof.
  intros H0 H1. unfold solveXFromLnaw.
  pose proof (computeLnawFromX_Fin X) as Ht.
  destruct (expandHigh_covers _ X Ht H0 H1) as (h & -> & Hh1 & Hh2).
  destruct (bisect_bracket 50 _ X 0 h Ht) as (lo & hi & -> & L1 & L2 & L3);
    [lra|lra|].
  exists (midQ lo hi). split; [reflexivity|].
  pose proof (midQ_correct lo hi) as Hm.
  rewrite halvings_scale in L3.
  assert (Hs : halvings 50 1 <= 0.000000000001 /\ 0 <= halvings 50 1)
    by (split; vm_compute; discriminate).
  destruct Hs as [Hs1 Hs0].
  assert (Hw : (h - 0) * halvings 50 1 <= 1 * 0.000000000001).
  { apply Qmult_le_compat_nonneg; split; lra. }
  apply Qabs_Qle_condition. split; lra.
Qed.

Lemma solveXFromLnaw_inverts_on_unit_interval_witness :
  exists r,
    solveXFromLnaw (computeLnawFromX (Fin 0.75)) = Fin r
    /\ Qabs (r - 0.75) <= 0.000000000001.
Proof.
  apply (solveXFromLnaw_inverts_on_unit_interval 0.75); lra.
Defined.

(** X2.  [solveXFromLnaw] has no failure path: for every target, NaN and
    the infinities included, it returns a finite, strictly positive
    number. *)
Theorem solveXFromLnaw_finite_positive (t : num) :
  exists x, solveXFromLnaw t = Fin x /\ 0 < x.
Proof.
  unfold solveXFromLnaw.
  destruct (expandHigh_range t) as (h & -> & H1 & H2).
  destruct (bisect_range 50 t 0 h) as (lo & hi & -> & L1 & L2 & L3 & L4);
    [lra|].
  exists (midQ lo hi). split; [reflexivity|].
  pose proof (midQ_correct lo hi) as Hm.
  rewrite halvings_scale in L4.
  assert (Hs : 0 < halvings 50 1) by (vm_compute; reflexivity).
  assert (Hw : 0 < (h - 0) * halvings 50 1)
    by (apply Qmult_lt_0_compat; lra).
  lra.
Qed.

Lemma sub_NaN (a : num) : (a - NaN)%num = NaN.
Proof. destruct a; reflexivity. Qed.

(** The sign test of the bisection never fires for a target that is NaN,
    or not below zero. *)
Lemma solve_f_no_root (t : num) (m : Q) :
  isNaN t = true \/ (t >=? 0)%num = true ->
  0 <= m -> (solve_f t (Fin m) >? 0)%num = false.
Proof.
  intros Ht Hm. unfold solve_f.
  destruct (equiv_Fin_inv _ _ (computeLnawFromX_Fin m)) as (r & -> & Hr).
  pose proof (lnawQ_monotone 0 m Hm) as Hle. rewrite lnawQ_0 in Hle.
  destruct t as [q| | |].
  - destruct Ht as [Ht|Ht]; [discriminate|]. apply geb_Fin in Ht.
    destruct (Fin r - Fin q >? 0)%num eqn:E; [|reflexivity].
    rewrite sub_Fin in E. apply gtb_Fin in E. lra.
  - reflexivity.
  - destruct Ht as [Ht|Ht]; discriminate.
  - reflexivity.
Qed.

Lemma bisect_no_root (n : nat) (t : num) (lo hi : Q) :
  isNaN t = true \/ (t >=? 0)%num = true ->
  0 <= lo -> lo <= hi ->
  bisect n t (Fin lo, Fin hi) = bisect n NaN (Fin lo, Fin hi).
Proof.
  intros Ht. revert hi. induction n as [|n IH]; intros hi Hlo Hhi;
    [reflexivity|].
  cbn [bisect]. rewrite !bisectStep_Fin.
  pose proof (midQ_correct lo hi) as Hm.
  rewrite (solve_f_no_root t (midQ lo hi) Ht) by lra.
  rewrite (solve_f_no_root NaN (midQ lo hi)) by (auto; lra).
  apply IH; lra.
Qed.

(** X3.  A target without a root in the range, that is NaN or a number
    not below zero, makes the bisection collapse on the lower end of its
    first bracket: the result is [0.2 / 2^51] whatever the target. *)
Theorem solveXFromLnaw_no_root (t : num) :
  isNaN t = true \/ (t >=? 0)%num = true ->
  solveXFromLnaw t = Fin (1 # 11258999068426240).
Proof.
  intros Ht. unfold solveXFromLnaw. cbn [expandHigh].
  rewrite (solve_f_no_root t 0.2 Ht) by lra. cbn [andb].
  rewrite (bisect_no_root 50 t 0 0.2 Ht) by lra.
  vm_compute. reflexivity.
Qed.

Lemma solveXFromLnaw_no_root_witness :
  solveXFromLnaw (Fin 0.5) = Fin (1 # 11258999068426240).
Proof.
  apply (solveXFromLnaw_no_root (Fin 0.5)). right. reflexivity.
Defined.

End RootFinderRange.

(** * ElectrolyteModel: order and the reverse round trip *)

Section ElectrolyteOrder.

Lemma Qfrac_lt (a b c d : Q) :
  0 < b -> 0 < d -> a * d < c * b -> a / b < c / d.
Proof.
  intros Hb Hd H. apply Qlt_shift_div_r; [exact Hb|].
  assert (E : c / d * b == c * b / d) by (field; lra).
  rewrite E. apply Qlt_shift_div_l; [exact Hd|exact H].
Qed.

(** The mole-fraction formula with its two stoichiometric coefficients
    ([2, 2] for the 1:1 salts, [4, 3] for MgCl2), on the closed interval of
    salinities. *)
Lemma ionFraction_simpl (k1 k2 M s : Q) :
  0 < M -> 0 < k2 -> 0 <= s -> s <= 100 ->
  0 < (100 - s) * M + k2 * s * WATER_MOLAR_MASS
  /\ k1 * (s / M) / ((100 - s) / WATER_MOLAR_MASS + k2 * (s / M))
     == k1 * s * WATER_MOLAR_MASS
        / ((100 - s) * M + k2 * s * WATER_MOLAR_MASS).
Proof.
  intros HM Hk H0 H1.
  assert (HW : 0 < WATER_MOLAR_MASS) by reflexivity.
  assert (Hpos : 0 < (100 - s) * M + k2 * s * WATER_MOLAR_MASS).
  { destruct (Qlt_le_dec s 50).
    - assert (0 < (100 - s) * M) by (apply Qmult_lt_0_compat; lra).
      assert (0 <= k2 * s * WATER_MOLAR_MASS)
        by (repeat apply Qmult_le_0_compat; lra).
      lra.
    - assert (0 <= (100 - s) * M) by (apply Qmult_le_0_compat; lra).
      assert (0 < k2 * s * WATER_MOLAR_MASS)
        by (repeat apply Qmult_lt_0_compat; lra).
      lra. }
  split; [exact Hpos|]. field. repeat split; lra.
Qed.

Lemma ionFraction_Fin (k1 k2 M s : Q) :
  0 < M -> 0 < k2 -> 0 <= s -> s <= 100 ->
  ((Fin k1 * (Fin s / Fin M)) /
   ((100 - Fin s) / Fin WATER_MOLAR_MASS + Fin k2 * (Fin s / Fin M)))%num
  ≡ Fin (k1 * (s / M) / ((100 - s) / WATER_MOLAR_MASS + k2 * (s / M))).
Proof.
  intros HM Hk H0 H1.
  assert (HW : 0 < WATER_MOLAR_MASS) by reflexivity.
  destruct (ionFraction_simpl k1 k2 M s HM Hk H0 H1) as [Hpos _].
  assert (Hden : ~ (100 - s) / WATER_MOLAR_MASS + k2 * (s / M) == 0).
  { intros E.
    assert (E' : (100 - s) * M + k2 * s * WATER_MOLAR_MASS
                 == ((100 - s) / WATER_MOLAR_MASS + k2 * (s / M))
                    * (M * WATER_MOLAR_MASS)) by (field; split; lra).
    rewrite E in E'. lra. }
  rewrite sub_Fin, !div_Fin, !mul_Fin, add_Fin by lra.
  rewrite div_Fin by exact Hden. reflexivity.
Qed.

Lemma ionFraction_increasing (k1 k2 M s1 s2 : Q) :
  0 < M -> 0 < k1 -> 0 < k2 -> 0 <= s1 -> s1 < s2 -> s2 <= 100 ->
  k1 * (s1 / M) / ((100 - s1) / WATER_MOLAR_MASS + k2 * (s1 / M))
  < k1 * (s2 / M) / ((100 - s2) / WATER_MOLAR_MASS + k2 * (s2 / M)).
Proof.
  intros HM Hk1 Hk2 H0 Hlt H1.
  assert (HW : 0 < WATER_MOLAR_MASS) by reflexivity.
  destruct (ionFraction_simpl k1 k2 M s1) as [P1 ->]; try lra.
  destruct (ionFraction_simpl k1 k2 M s2) as [P2 ->]; try lra.
  apply Qfrac_lt; [exact P1|exact P2|].
  assert (Hc : 0 < k1 * WATER_MOLAR_MASS * M)
    by (repeat apply Qmult_lt_0_compat; lra).
  assert (E : k1 * s2 * WATER_MOLAR_MASS
              * ((100 - s1) * M + k2 * s1 * WATER_MOLAR_MASS)
              - k1 * s1 * WATER_MOLAR_MASS
                * ((100 - s2) * M + k2 * s2 * WATER_MOLAR_MASS)
              == k1 * WATER_MOLAR_MASS * M * (100 * (s2 - s1))) by ring.
  assert (0 < k1 * WATER_MOLAR_MASS * M * (100 * (s2 - s1)))
    by (apply Qmult_lt_0_compat; lra).
  lra.
Qed.

(** X4.  In exact arithmetic, for every salt of the catalog
    [computeXFromSalinity] is strictly increasing in the salinity on [0,
    100] and starts from zero or above: salinities [0 <= s1 < s2 <= 100]
    give finite values [0 <= x1 < x2]. *)
Theorem computeXFromSalinity_increasing (saltKey : string) (s1 s2 : Q) :
  saltKey ∈ dom saltProps -> 0 <= s1 -> s1 < s2 -> s2 <= 100 ->
  exists x1 x2,
    computeXFromSalinity (Fin s1) saltKey = Normal (Fin x1)
    /\ computeXFromSalinity (Fin s2) saltKey = Normal (Fin x2)
    /\ 0 <= x1 /\ x1 < x2.
Proof.
  intros Hin H0 Hlt H1. apply elem_of_dom in Hin as [p Hp].
  assert (G : forall k1 k2 M : Q,
             0 < M -> 0 < k1 -> 0 < k2 ->
             exists x1 x2,
               ((Fin k1 * (Fin s1 / Fin M)) /
                ((100 - Fin s1) / Fin WATER_MOLAR_MASS
                 + Fin k2 * (Fin s1 / Fin M)))%num = Fin x1
               /\ ((Fin k1 * (Fin s2 / Fin M)) /
                   ((100 - Fin s2) / Fin WATER_MOLAR_MASS
                    + Fin k2 * (Fin s2 / Fin M)))%num = Fin x2
               /\ 0 <= x1 /\ x1 < x2).
  { intros k1 k2 M HM Hk1 Hk2.
    destruct (equiv_Fin_inv _ _ (ionFraction_Fin k1 k2 M s1 HM Hk2 H0
                                   ltac:(lra))) as (x1 & E1 & Hx1).
    destruct (equiv_Fin_inv _ _ (ionFraction_Fin k1 k2 M s2 HM Hk2
                                   ltac:(lra) H1)) as (x2 & E2 & Hx2).
    exists x1, x2. split; [exact E1|]. split; [exact E2|].
    pose proof (ionFraction_increasing k1 k2 M s1 s2 HM Hk1 Hk2 H0 Hlt H1).
    destruct (ionFraction_simpl k1 k2 M s1 HM Hk2 H0 ltac:(lra))
      as [P1 S1].
    assert (0 <= k1 * (s1 / M)
                 / ((100 - s1) / WATER_MOLAR_MASS + k2 * (s1 / M))).
    { rewrite S1. apply Qle_shift_div_l; [exact P1|].
      assert (0 <= k1 * s1 * WATER_MOLAR_MASS).
      { repeat apply Qmult_le_0_compat; try lra. discriminate. }
      lra. }
    split; lra. }
  unfold computeXFromSalinity.
  rewrite (destructureSalt_own _ _ Hp). unfold bind.
  destruct (saltProps_cases _ _ Hp) as [[-> ->]|[[-> ->]|[-> ->]]];
    cbn [String.eqb Ascii.eqb Bool.eqb molarMass].
  - destruct (G 2 2 58.44) as (x1 & x2 & -> & -> & Hx); try lra. eauto.
  - destruct (G 2 2 74.55) as (x1 & x2 & -> & -> & Hx); try lra. eauto.
  - destruct (G 4 3 95.21) as (x1 & x2 & -> & -> & Hx); try lra. eauto.
Qed.

Lemma computeXFromSalinity_increasing_witness :
  exists x1 x2,
    computeXFromSalinity (Fin 0) "MgCl2" = Normal (Fin x1)
    /\ computeXFromSalinity (Fin 100) "MgCl2" = Normal (Fin x2)
    /\ 0 <= x1 /\ x1 < x2.
Proof.
  apply (computeXFromSalinity_increasing "MgCl2" 0 100);
    [apply elem_of_dom; eexists; reflexivity | lra | lra | lra].
Defined.

Lemma ionFraction_bound (k1 k2 M s : Q) :
  0 < M -> 0 < k1 -> 0 < k2 -> 0 <= s -> s <= 100 ->
  k2 * (k1 * (s / M) / ((100 - s) / WATER_MOLAR_MASS + k2 * (s / M)))
  <= k1.
Proof.
  intros HM Hk1 Hk2 H0 H1.
  assert (HW : 0 < WATER_MOLAR_MASS) by reflexivity.
  destruct (ionFraction_simpl k1 k2 M s HM Hk2 H0 H1) as [P ->].
  assert (E : k2 * (k1 * s * WATER_MOLAR_MASS
                    / ((100 - s) * M + k2 * s * WATER_MOLAR_MASS))
              == k2 * (k1 * s * WATER_MOLAR_MASS)
                 / ((100 - s) * M + k2 * s * WATER_MOLAR_MASS))
    by (field; lra).
  rewrite E. apply Qle_shift_div_r; [exact P|].
  assert (0 <= k1 * ((100 - s) * M))
    by (repeat apply Qmult_le_0_compat; lra).
  lra.
Qed.

(** X5.  In exact arithmetic, for a salt of the catalog and a salinity in
    [0, 100], [computeXFromSalinity] returns a finite X of at most 4/3, of
    at most 1 unless the salt is MgCl2, and of exactly 4/3 for MgCl2 at 100
    wt%. *)
Theorem computeXFromSalinity_upper_bound (saltKey : string) (s : Q) :
  saltKey ∈ dom saltProps -> 0 <= s -> s <= 100 ->
  exists x,
    computeXFromSalinity (Fin s) saltKey = Normal (Fin x)
    /\ (saltKey <> "MgCl2"%string -> x <= 1)
    /\ 3 * x <= 4
    /\ (saltKey = "MgCl2"%string -> s == 100 -> x == 4 # 3).
Proof.
  intros Hin H0 H1. apply elem_of_dom in Hin as [p Hp].
  unfold computeXFromSalinity.
  rewrite (destructureSalt_own _ _ Hp). unfold bind.
  destruct (saltProps_cases _ _ Hp) as [[-> ->]|[[-> ->]|[-> ->]]];
    cbn [String.eqb Ascii.eqb Bool.eqb molarMass].
  - destruct (equiv_Fin_inv _ _ (ionFraction_Fin 2 2 58.44 s ltac:(lra)
                                   ltac:(lra) H0 H1)) as (x & -> & Hx).
    pose proof (ionFraction_bound 2 2 58.44 s) as B. rewrite <- Hx in B.
    exists x. split; [reflexivity|]. repeat split; try discriminate;
      intros; lra.
  - destruct (equiv_Fin_inv _ _ (ionFraction_Fin 2 2 74.55 s ltac:(lra)
                                   ltac:(lra) H0 H1)) as (x & -> & Hx).
    pose proof (ionFraction_bound 2 2 74.55 s) as B. rewrite <- Hx in B.
    exists x. split; [reflexivity|]. repeat split; try discriminate;
      intros; lra.
  - destruct (equiv_Fin_inv _ _ (ionFraction_Fin 4 3 95.21 s ltac:(lra)
                                   ltac:(lra) H0 H1)) as (x & -> & Hx).
    pose proof (ionFraction_bound 4 3 95.21 s) as B. rewrite <- Hx in B.
    exists x. split; [reflexivity|].
    split; [intros N; contradiction|]. split; [lra|].
    intros _ E. rewrite Hx, E. reflexivity.
Qed.

Lemma computeXFromSalinity_upper_bound_witness :
  exists x,
    computeXFromSalinity (Fin 100) "MgCl2" = Normal (Fin x)
    /\ ("MgCl2"%string <> "MgCl2"%string -> x <= 1)
    /\ 3 * x <= 4
    /\ ("MgCl2"%string = "MgCl2"%string -> 100 == 100 -> x == 4 # 3).
Proof.
  apply (computeXFromSalinity_upper_bound "MgCl2" 100);
    [apply elem_of_dom; eexists; reflexivity | lra | lra].
Defined.

(** The reverse round trip on rationals, for both stoichiometries. *)
Lemma reverse_roundtrip (k1 k2 M X : Q) :
  0 < M -> 0 < k1 -> 0 < k2 -> 0 < X -> k2 * X < k1 ->
  let s := M * X * 100 / ((k1 - k2 * X) * WATER_MOLAR_MASS + M * X) in
  0 < s /\ s < 100
  /\ k1 * (s / M) / ((100 - s) / WATER_MOLAR_MASS + k2 * (s / M)) == X.
Proof.
  intros HM Hk1 Hk2 H0 H1 s.
  assert (HW : 0 < WATER_MOLAR_MASS) by reflexivity.
  assert (HD : 0 < (k1 - k2 * X) * WATER_MOLAR_MASS + M * X) by nra.
  assert (Hs0 : 0 < s) by (apply Qlt_shift_div_l; [exact HD|nra]).
  assert (Hs1 : s < 100) by (apply Qlt_shift_div_r; [exact HD|nra]).
  split; [exact Hs0|]. split; [exact Hs1|].
  unfold s. field. repeat split; try lra.
  nra.
Qed.

(** X6.  In exact arithmetic the round trip holds the other way too: for a
    salt of the catalog and an X strictly between 0 and 1 (strictly between
    0 and 4/3 for MgCl2), [computeSalinityFromX] gives a finite salinity
    strictly between 0 and 100, which [computeXFromSalinity] maps back to X. *)
Theorem x_roundtrip (saltKey : string) (X : Q) :
  saltKey ∈ dom saltProps -> 0 < X ->
  (if String.eqb saltKey "MgCl2" then 3 * X < 4 else X < 1) ->
  exists s r,
    computeSalinityFromX (Fin X) saltKey = Normal (Fin s)
    /\ 0 < s /\ s < 100
    /\ computeXFromSalinity (Fin s) saltKey = Normal (Fin r)
    /\ r == X.
Proof.
  intros Hin H0 H1. apply elem_of_dom in Hin as [p Hp].
  assert (G : forall k1 k2 M : Q,
             0 < M -> 0 < k1 -> 0 < k2 -> k2 * X < k1 ->
             ((Fin M * Fin X * 100) /
              ((Fin k1 - Fin k2 * Fin X) * Fin WATER_MOLAR_MASS
               + Fin M * Fin X))%num
             ≡ Fin (M * X * 100
                    / ((k1 - k2 * X) * WATER_MOLAR_MASS + M * X)) ->
             exists s r,
               ((Fin M * Fin X * 100) /
                ((Fin k1 - Fin k2 * Fin X) * Fin WATER_MOLAR_MASS
                 + Fin M * Fin X))%num = Fin s
               /\ 0 < s /\ s < 100
               /\ ((Fin k1 * (Fin s / Fin M)) /
                   ((100 - Fin s) / Fin WATER_MOLAR_MASS
                    + Fin k2 * (Fin s / Fin M)))%num = Fin r
               /\ r == X).
  { intros k1 k2 M HM Hk1 Hk2 Hk E.
    destruct (reverse_roundtrip k1 k2 M X HM Hk1 Hk2 H0 Hk)
      as (S0 & S1 & SX).
    apply equiv_Fin_inv in E as (s & Es & Hs).
    assert (Hs0 : 0 < s) by (rewrite Hs; exact S0).
    assert (Hs1 : s < 100) by (rewrite Hs; exact S1).
    destruct (equiv_Fin_inv _ _ (ionFraction_Fin k1 k2 M s HM Hk2
                                   ltac:(lra) ltac:(lra)))
      as (r & Er & Hr).
    exists s, r. repeat split; try assumption.
    rewrite Hr, Hs. exact SX. }
  unfold computeXFromSalinity, computeSalinityFromX.
  rewrite (destructureSalt_own _ _ Hp). unfold bind.
  destruct (saltProps_cases _ _ Hp) as [[-> ->]|[[-> ->]|[-> ->]]];
    cbn [String.eqb Ascii.eqb Bool.eqb molarMass] in *.
  - destruct (G 2 2 58.44) as (s & r & Es & A & B & Er & C); try lra.
    { apply salinityFromX2_Fin; lra. }
    exists s, r. rewrite Es, Er. auto.
  - destruct (G 2 2 74.55) as (s & r & Es & A & B & Er & C); try lra.
    { apply salinityFromX2_Fin; lra. }
    exists s, r. rewrite Es, Er. auto.
  - destruct (G 4 3 95.21) as (s & r & Es & A & B & Er & C); try lra.
    { apply salinityFromX3_Fin; lra. }
    exists s, r. rewrite Es, Er. auto.
Qed.

Lemma x_roundtrip_witness :
  exists s r,
    computeSalinityFromX (Fin 1.2) "MgCl2" = Normal (Fin s)
    /\ 0 < s /\ s < 100
    /\ computeXFromSalinity (Fin s) "MgCl2" = Normal (Fin r)
    /\ r == 1.2.
Proof.
  apply (x_roundtrip "MgCl2" 1.2);
    [apply elem_of_dom; eexists; reflexivity | lra | cbn; lra].
Defined.

End ElectrolyteOrder.

(** * EquilibriumShiftModel: the forward relation *)

Section EquilibriumShiftForward.

(** X7.  In exact arithmetic [computeDeltaT] undoes [computeLnawFromDelta]:
    for non-zero [beta] and [T0] and a supercooling [dT] other than [T0],
    the forward relation applied to the inverse ln(aw) returns [dT]. *)
Theorem computeDeltaT_inverts_computeLnawFromDelta (beta dT T0 : Q) :
  ~ beta == 0 -> ~ T0 == 0 -> ~ dT == T0 ->
  computeDeltaT (Fin beta) (computeLnawFromDelta (Fin beta) (Fin dT) (Fin T0))
    (Fin T0)
  ≡ Fin dT.
Proof.
  intros Hb HT Hd.
  assert (Hden : ~ beta * T0 * (T0 - dT) == 0).
  { intros E. apply Qmult_integral in E as [E|E]; [|lra].
    apply Qmult_integral in E as [E|E]; contradiction. }
  rewrite computeLnawFromDelta_Fin by exact Hden.
  assert (E1 : 1 + beta * (dT / (beta * T0 * (T0 - dT))) * T0
               == T0 / (T0 - dT)) by (field; repeat split; lra).
  assert (Hq : ~ T0 / (T0 - dT) == 0).
  { intros E. assert (E' : T0 == T0 / (T0 - dT) * (T0 - dT)) by (field; lra).
    rewrite E in E'. lra. }
  rewrite computeDeltaT_Fin by (rewrite E1; exact Hq).
  apply Fin_proper. field. repeat split; lra.
Qed.

Lemma computeDeltaT_inverts_computeLnawFromDelta_witness :
  computeDeltaT (Fin (-0.001))
    (computeLnawFromDelta (Fin (-0.001)) (Fin 5) (Fin 280)) (Fin 280)
  ≡ Fin 5.
Proof.
  apply (computeDeltaT_inverts_computeLnawFromDelta (-0.001) 5 280); lra.
Defined.

(** The forward relation on rationals, with [a = beta * lnaw]. *)
Lemma deltaT_bounds (a T0 : Q) :
  0 <= a -> 0 < T0 ->
  0 <= a * T0 * T0 / (1 + a * T0) /\ a * T0 * T0 / (1 + a * T0) < T0.
Proof.
  intros Ha HT.
  assert (H1 : 0 <= a * T0) by (apply Qmult_le_0_compat; lra).
  assert (H2 : 0 <= a * T0 * T0) by (apply Qmult_le_0_compat; lra).
  split.
  - apply Qle_shift_div_l; lra.
  - apply Qlt_shift_div_r; [lra|]. nra.
Qed.

Lemma deltaT_increasing (a1 a2 T0 : Q) :
  0 <= a1 -> a1 < a2 -> 0 < T0 ->
  a1 * T0 * T0 / (1 + a1 * T0) < a2 * T0 * T0 / (1 + a2 * T0).
Proof.
  intros H1 H2 HT.
  assert (P1 : 0 <= a1 * T0) by (apply Qmult_le_0_compat; lra).
  assert (P2 : 0 < a2 * T0) by (apply Qmult_lt_0_compat; lra).
  apply Qfrac_lt; [lra|lra|].
  assert (P3 : 0 < (a2 - a1) * (T0 * T0))
    by (repeat apply Qmult_lt_0_compat; lra).
  nra.
Qed.

(** X8.  In exact arithmetic, for a negative [beta], a positive [T0] and
    ln(aw) values [l1 < l2 <= 0], [computeDeltaT] returns finite
    supercoolings [d1] and [d2] with [0 <= d2 < d1 < T0]: never negative,
    strictly below [T0], and strictly larger for the lower ln(aw). *)
Theorem computeDeltaT_range_and_order (beta T0 l1 l2 : Q) :
  beta < 0 -> 0 < T0 -> l1 < l2 -> l2 <= 0 ->
  exists d1 d2,
    computeDeltaT (Fin beta) (Fin l1) (Fin T0) = Fin d1
    /\ computeDeltaT (Fin beta) (Fin l2) (Fin T0) = Fin d2
    /\ 0 <= d2 /\ d2 < d1 /\ d1 < T0.
Proof.
  intros Hb HT Hl H0.
  assert (A1 : 0 < beta * l1) by nra.
  assert (A2 : 0 <= beta * l2) by nra.
  assert (A3 : beta * l2 < beta * l1) by nra.
  assert (P1 : 0 < beta * l1 * T0) by (apply Qmult_lt_0_compat; lra).
  assert (P2 : 0 <= beta * l2 * T0) by (apply Qmult_le_0_compat; lra).
  destruct (equiv_Fin_inv _ _ (computeDeltaT_Fin beta l1 T0 ltac:(lra)))
    as (d1 & E1 & Hd1).
  destruct (equiv_Fin_inv _ _ (computeDeltaT_Fin beta l2 T0 ltac:(lra)))
    as (d2 & E2 & Hd2).
  exists d1, d2. split; [exact E1|]. split; [exact E2|].
  destruct (deltaT_bounds (beta * l1) T0) as [_ B1]; try lra.
  destruct (deltaT_bounds (beta * l2) T0) as [B2 _]; try lra.
  pose proof (deltaT_increasing (beta * l2) (beta * l1) T0 A2 A3 HT) as I.
  rewrite Hd1, Hd2. repeat split; lra.
Qed.

Lemma computeDeltaT_range_and_order_witness :
  exists d1 d2,
    computeDeltaT (Fin (-0.001)) (Fin (-0.1)) (Fin 280) = Fin d1
    /\ computeDeltaT (Fin (-0.001)) (Fin (-0.05)) (Fin 280) = Fin d2
    /\ 0 <= d2 /\ d2 < d1 /\ d1 < 280.
Proof.
  apply (computeDeltaT_range_and_order (-0.001) 280 (-0.1) (-0.05)); lra.
Defined.

End EquilibriumShiftForward.

(** * SweepEngine, 1-D: what the emitted points hold *)

Section SweepPoints.

(** A finite, negative inverse ln(aw) needs finite arguments and a
    non-zero denominator. *)
Lemma negative_lnaw_finite_args (beta dT T0 : num) :
  isFinite (computeLnawFromDelta beta dT T0) = true ->
  (computeLnawFromDelta beta dT T0 <? 0)%num = true ->
  exists b d t,
    beta = Fin b /\ dT = Fin d /\ T0 = Fin t
    /\ ~ b * t * (t - d) == 0.
Proof.
  unfold computeLnawFromDelta.
  destruct beta as [b| | |], dT as [d| | |], T0 as [t| | |];
    cbn; try discriminate;
    repeat (match goal with
            | |- context [Qeq_bool ?x ?y] => destruct (Qeq_bool x y) eqn:?
            | |- context [Qle_bool ?x ?y] => destruct (Qle_bool x y) eqn:?
            | |- context [?x ?= ?y] => destruct (x ?= y) eqn:?
            end; cbn);
    try discriminate; try (intros ? ?; discriminate).
  intros _ _. exists b, d, t. repeat split.
  match goal with H : Qeq_bool _ 0 = false |- _ => apply Qeq_bool_neq in H;
    rewrite !Qred_correct in H end.
  assumption.
Qed.

(** The fields of an emitted point. *)
Lemma sweepStep_fields (e : sweepEnv) (i : nat) (p : sweepPoint) :
  sweepStep e i = Normal (Some p) ->
  exists mas,
    stepMas e i = Normal mas
    /\ p_mas p = mas
    /\ p_waterG p = e_initialWaterG e
    /\ p_waterSolutionG p
       = ((e_initialNaClG e / mas) * 100 - e_initialNaClG e)%num
    /\ p_waterHydrateG p
       = (e_initialWaterG e
          - ((e_initialNaClG e / mas) * 100 - e_initialNaClG e))%num
    /\ p_maxPureWaterYield p
       = (((e_initialWaterG e
            - ((e_initialNaClG e / mas) * 100 - e_initialNaClG e))
           / e_initialWaterG e) * 100)%num
    /\ p_dtT0T p
       = (stepTotal e i / (e_T0_op e * (e_T0_op e - stepTotal e i)))%num
    /\ p_thls p
       = (e_T0_op e
          * (1 / (1 + stepTotal e i
                      / (e_T0_op e * (e_T0_op e - stepTotal e i))
                      * e_T0_op e)))%num
    /\ p_tmax p = (e_T0_op e - stepTotal e i)%num.
Proof.
  unfold stepMas, stepLnaw, sweepStep. fold (stepTotal e i).
  destruct (stepTotal e i >=? e_T0_op e)%num; [discriminate|].
  destruct (negb _ || _); [discriminate|].
  destruct (computeSalinityFromX _ _) as [mas|x]; [|discriminate].
  cbn [bind]. destruct (negb _ || _); [discriminate|].
  destruct (destructureSalt _) as [props|x]; [|discriminate].
  cbn [bind]. intros [= <-]. exists mas. cbn. repeat split; reflexivity.
Qed.

(** What emission says of a step, on rationals. *)
Lemma emitted_step_finite (e : sweepEnv) (i : nat) (p : sweepPoint) :
  sweepStep e i = Normal (Some p) ->
  exists b d t mas,
    e_beta e = Fin b /\ stepTotal e i = Fin d /\ e_T0_op e = Fin t
    /\ ~ b * t * (t - d) == 0 /\ d < t
    /\ p_mas p = Fin mas /\ 0 < mas.
Proof.
  intros Hstep.
  assert (Hf : feasible e i = true) by (apply sweepStep_emits_iff; eauto).
  destruct (sweepStep_inv _ _ _ Hstep) as (mas & Hmas & Hp & _).
  unfold feasible in Hf. rewrite Hmas in Hf.
  rewrite !andb_true_iff in Hf.
  destruct Hf as [[[[Hlt Hfin] Hneg] Hmfin] Hmpos].
  unfold stepLnaw in Hfin, Hneg.
  destruct (negative_lnaw_finite_args _ _ _ Hfin Hneg)
    as (b & d & t & Eb & Ed & Et & Hden).
  destruct mas as [q| | |]; try discriminate.
  exists b, d, t, q. rewrite Ed, Et in Hlt. apply ltb_Fin in Hlt.
  apply gtb_Fin in Hmpos. repeat split; assumption.
Qed.

(** X9.  In exact arithmetic, the mass bookkeeping of an emitted point, for
    an initial salinity [s] in (0, 100): the salt mass is [s] and the water
    mass [100 - s]; the water left in solution and the water bound in
    hydrate add up to the initial water; and the salt fraction of the
    residual brine is the point's MAS. *)
Theorem sweep_mass_balance (beta T0_op dTmin dTmax : num) (saltKey : string)
  (s : Q) (e : sweepEnv) (i : nat) (p : sweepPoint) :
  0 < s -> s < 100 ->
  sweepEnvOf beta T0_op saltKey (Fin s) dTmin dTmax = Normal e ->
  sweepStep e i = Normal (Some p) ->
  p_naclG p = Fin s
  /\ p_waterG p ≡ Fin (100 - s)
  /\ (p_waterSolutionG p + p_waterHydrateG p)%num ≡ p_waterG p
  /\ ((p_naclG p / (p_naclG p + p_waterSolutionG p)) * 100)%num ≡ p_mas p.
Proof.
  intros H0 H1 He Hstep.
  destruct (sweepEnvOf_inv _ _ _ _ _ _ _ He)
    as (_ & _ & _ & Hsalt & Hwater & _).
  destruct (emitted_step_finite _ _ _ Hstep)
    as (b & d & t & q & _ & _ & _ & _ & _ & Hq & Hqpos).
  destruct (sweepStep_inv _ _ _ Hstep) as (mas & _ & Hmas & _ & _ & _ & _ & Hn).
  destruct (sweepStep_fields _ _ _ Hstep)
    as (mas' & _ & Hmas' & Hw & Hsol & Hhyd & _).
  rewrite Hq in Hmas'. subst mas'.
  rewrite Hn, Hw, Hsol, Hhyd, Hq, Hsalt, Hwater.
  split; [reflexivity|].
  rewrite !sub_Fin, (div_Fin s q), mul_Fin, !sub_Fin, add_Fin by lra.
  split; [reflexivity|]. split.
  - apply Fin_proper. ring.
  - assert (Hsum : ~ s + (s / q * 100 - s) == 0).
    { assert (E : s + (s / q * 100 - s) == s * 100 / q) by (field; lra).
      rewrite E. intros Z.
      assert (E' : s * 100 == s * 100 / q * q) by (field; lra).
      rewrite Z in E'. lra. }
    rewrite add_Fin, div_Fin, mul_Fin by exact Hsum.
    apply Fin_proper. field. split; [lra|].
    intros Z. assert (E : s * 100 == 0) by (rewrite <- Z; ring). lra.
Qed.

Lemma sweep_mass_balance_witness :
  exists e p,
    sweepEnvOf (Fin (-0.0012426)) (Fin 280.15) "NaCl" (Fin 8) 0.5 5
    = Normal e
    /\ sweepStep e 0 = Normal (Some p)
    /\ p_naclG p = Fin 8
    /\ p_waterG p ≡ Fin (100 - 8)
    /\ (p_waterSolutionG p + p_waterHydrateG p)%num ≡ p_waterG p
    /\ ((p_naclG p / (p_naclG p + p_waterSolutionG p)) * 100)%num ≡ p_mas p.
Proof.
  eexists. eexists. split; [vm_compute; reflexivity|].
  split; [vm_compute; reflexivity|].
  eapply (sweep_mass_balance (Fin (-0.0012426)) (Fin 280.15) 0.5 5 "NaCl" 8)
    with (i := 0%nat);
    [lra | lra | vm_compute; reflexivity | vm_compute; reflexivity].
Defined.

(** X10.  In exact arithmetic, for an initial salinity in (0, 100), the two
    yield columns of an emitted point agree: the MWY of the headline arrays
    and the maximum pure water yield of the detailed table, computed by two
    different expressions, are the same number. *)
Theorem sweep_yield_columns_agree (beta T0_op dTmin dTmax : num)
  (saltKey : string) (s : Q) (e : sweepEnv) (i : nat) (p : sweepPoint) :
  0 < s -> s < 100 ->
  sweepEnvOf beta T0_op saltKey (Fin s) dTmin dTmax = Normal e ->
  sweepStep e i = Normal (Some p) ->
  p_mwy p ≡ p_maxPureWaterYield p.
Proof.
  intros H0 H1 He Hstep.
  destruct (sweepEnvOf_inv _ _ _ _ _ _ _ He)
    as (_ & _ & _ & Hsalt & Hwater & _).
  destruct (emitted_step_finite _ _ _ Hstep)
    as (b & d & t & q & _ & _ & _ & _ & _ & Hq & Hqpos).
  destruct (sweepStep_inv _ _ _ Hstep) as (mas & _ & Hmas & Hmwy & _).
  destruct (sweepStep_fields _ _ _ Hstep)
    as (mas' & _ & Hmas' & _ & _ & _ & Hy & _).
  rewrite Hq in Hmas, Hmas'. subst mas mas'.
  rewrite Hmwy, Hy, Hsalt, Hwater, sub_Fin.
  rewrite massBalanceMWY_Fin by lra.
  rewrite (div_Fin s q), mul_Fin, !sub_Fin, div_Fin, mul_Fin by lra.
  apply Fin_proper. field. split; lra.
Qed.

Lemma sweep_yield_columns_agree_witness :
  exists e p,
    sweepEnvOf (Fin (-0.0012426)) (Fin 280.15) "NaCl" (Fin 8) 0.5 5
    = Normal e
    /\ sweepStep e 0 = Normal (Some p)
    /\ p_mwy p ≡ p_maxPureWaterYield p.
Proof.
  eexists. eexists. split; [vm_compute; reflexivity|].
  split; [vm_compute; reflexivity|].
  eapply (sweep_yield_columns_agree (Fin (-0.0012426)) (Fin 280.15) 0.5 5
            "NaCl" 8) with (i := 0%nat);
    [lra | lra | vm_compute; reflexivity | vm_compute; reflexivity].
Defined.

(** X11.  In exact arithmetic, for every emitted point the temperature
    [T_HLS], computed as [T0 * (1 + dT/(T0 (T0 - dT)) * T0)^-1], is the same
    number as [T_max = T0 - dT_total], and [T_max] is positive. *)
Theorem sweep_thls_is_tmax (e : sweepEnv) (i : nat) (p : sweepPoint) :
  sweepStep e i = Normal (Some p) ->
  p_thls p ≡ p_tmax p /\ (p_tmax p >? 0)%num = true.
Proof.
  intros Hstep.
  destruct (emitted_step_finite _ _ _ Hstep)
    as (b & d & t & q & _ & Hd & Ht & Hden & Hlt & _).
  destruct (sweepStep_fields _ _ _ Hstep)
    as (mas' & _ & _ & _ & _ & _ & _ & _ & Hthls & Htmax).
  rewrite Hthls, Htmax, Hd, Ht.
  assert (Ht0 : ~ t == 0).
  { intros Z. apply Hden. rewrite Z. ring. }
  assert (Hden' : ~ t * (t - d) == 0).
  { intros Z. apply Hden.
    assert (E : b * t * (t - d) == b * (t * (t - d))) by ring.
    rewrite E, Z. ring. }
  assert (E1 : 1 + d / (t * (t - d)) * t == t / (t - d))
    by (field; split; lra).
  assert (Hq : ~ 1 + d / (t * (t - d)) * t == 0).
  { rewrite E1. intros Z.
    assert (E' : t == t / (t - d) * (t - d)) by (field; lra).
    rewrite Z in E'. lra. }
  rewrite !sub_Fin, mul_Fin, div_Fin, mul_Fin, add_Fin by exact Hden'.
  rewrite div_Fin, mul_Fin by exact Hq.
  split.
  - apply Fin_proper. field. split; lra.
  - apply gtb_Fin. lra.
Qed.

Lemma sweep_thls_is_tmax_witness :
  exists e p,
    sweepEnvOf (Fin (-0.0012426)) (Fin 280.15) "NaCl" (Fin 8) 0.5 5
    = Normal e
    /\ sweepStep e 0 = Normal (Some p)
    /\ p_thls p ≡ p_tmax p /\ (p_tmax p >? 0)%num = true.
Proof.
  eexists. eexists. split; [vm_compute; reflexivity|].
  match goal with |- sweepStep ?E _ = _ /\ _ => set (e0 := E) end.
  split; [vm_compute; reflexivity|].
  apply (sweep_thls_is_tmax e0 0%nat). vm_compute. reflexivity.
Defined.

End SweepPoints.

(** * SweepEngine, 1-D: the handler *)

Section Handler.

Lemma gtb_asym (a b : num) :
  (a >? b)%num = true ->
  (b >? a)%num = false /\ isNaN a = false /\ isNaN b = false.
Proof.
  destruct a as [x| | |], b as [y| | |]; cbn; try discriminate; auto.
  intros H. apply negb_true_iff in H. repeat split.
  destruct (Qle_bool y x) eqn:E; [reflexivity|].
  destruct (Qlt_le_dec x y) as [Hlt|Hge].
  - apply Qlt_le_weak, Qle_bool_iff in Hlt. congruence.
  - apply Qle_bool_iff in Hge. congruence.
Qed.

(** X12.  An inverted supercooling range is swapped: entering the two
    bounds in the wrong order gives the same outcome, alert or result, and
    the same caches as entering them in the right order. *)
Theorem calculate_swaps_inverted_range (ui : page) (inp : inputs)
  (st : caches) :
  (in_dTmin inp >? in_dTmax inp)%num = true ->
  calculate ui inp st
  = calculate ui
      {| in_gas := in_gas inp; in_salt := in_salt inp;
         in_salinity := in_salinity inp; in_pressure := in_pressure inp;
         in_dTmin := in_dTmax inp; in_dTmax := in_dTmin inp |} st.
Proof.
  intros Hgt. destruct (gtb_asym _ _ Hgt) as (Hlt & Na & Nb).
  unfold calculate. f_equal. unfold operatingPoint.
  cbn [in_gas in_salt in_salinity in_pressure in_dTmin in_dTmax].
  rewrite Hgt, Hlt, Na, Nb. reflexivity.
Qed.

Lemma calculate_swaps_inverted_range_witness :
  calculate refPage
    {| in_gas := "CP"; in_salt := "NaCl"; in_salinity := 8;
       in_pressure := 0.1; in_dTmin := 5; in_dTmax := 0.5 |} noCaches
  = calculate refPage
      {| in_gas := "CP"; in_salt := "NaCl"; in_salinity := 8;
         in_pressure := 0.1; in_dTmin := 0.5; in_dTmax := 5 |} noCaches.
Proof.
  apply (calculate_swaps_inverted_range refPage
           {| in_gas := "CP"; in_salt := "NaCl"; in_salinity := 8;
              in_pressure := 0.1; in_dTmin := 5; in_dTmax := 0.5 |}).
  reflexivity.
Defined.

(** X13.  With the Custom gas selected and no usable (T, P) line in its
    box, the handler stops on the reference-data alert: no fit is made, no
    cache is touched, and the salt is not even looked up. *)
Theorem calculate_custom_without_points (ui : page) (inp : inputs)
  (st : caches) :
  in_gas inp = "Custom"%string ->
  getCustomDataPoints ui = [] ->
  isNaN (in_salinity inp) || isNaN (in_pressure inp)
  || isNaN (in_dTmin inp) || isNaN (in_dTmax inp) = false ->
  calculate ui inp st = Normal (Alerted AlertNoReferenceT0, st).
Proof.
  intros Hgas Hpts Hnan. unfold calculate, operatingPoint.
  rewrite Hgas. cbn [String.eqb Ascii.eqb Bool.eqb]. rewrite Hnan.
  destruct (if (in_dTmin inp >? in_dTmax inp)%num then _ else _)
    as [dTmin dTmax].
  unfold computeBeta, computeBetaCustom, getT0AtPressure.
  change (getGasObject ui "Custom") with
    (Some {| structure := if String.eqb (customStructure ui) EmptyString
                          then "sI"%string else customStructure ui;
             betaX := customBetaX ui;
             data := Some (getCustomDataPoints ui);
             t0_atm := None |}).
  cbn [bind data default String.eqb Ascii.eqb Bool.eqb].
  rewrite Hpts. reflexivity.
Qed.

Lemma calculate_custom_without_points_witness :
  calculate refPage
    {| in_gas := "Custom"; in_salt := "NaCl"; in_salinity := 8;
       in_pressure := 5; in_dTmin := 0.5; in_dTmax := 5 |} noCaches
  = Normal (Alerted AlertNoReferenceT0, noCaches).
Proof.
  apply (calculate_custom_without_points refPage
           {| in_gas := "Custom"; in_salt := "NaCl"; in_salinity := 8;
              in_pressure := 5; in_dTmin := 0.5; in_dTmax := 5 |});
    reflexivity.
Defined.

Lemma omap_lookup_source {A B : Type} (f : A -> option B) (l : list A)
  (k : nat) (z : B) :
  omap f l !! k = Some z -> exists b x, l !! b = Some x /\ f x = Some z.
Proof.
  intros H. apply list_elem_of_lookup_2 in H.
  apply list_elem_of_omap in H as (x & Hx & Hf).
  apply list_elem_of_lookup_1 in Hx as [b Hb]. eauto.
Qed.

(** [omap] keeps the order of the elements it keeps. *)
Lemma omap_lookup_order {A B : Type} (f : A -> option B) (l : list A)
  (j k : nat) (y z : B) :
  (j < k)%nat -> omap f l !! j = Some y -> omap f l !! k = Some z ->
  exists a b x1 x2,
    (a < b)%nat /\ l !! a = Some x1 /\ l !! b = Some x2
    /\ f x1 = Some y /\ f x2 = Some z.
Proof.
  revert j k. induction l as [|x l IH]; intros j k Hjk Hj Hk;
    [discriminate|].
  cbn [omap list_omap] in Hj, Hk. destruct (f x) as [v|] eqn:Hfx.
  - destruct k as [|k]; [lia|]. cbn in Hk. destruct j as [|j].
    + cbn in Hj. injection Hj as ->.
      destruct (omap_lookup_source f l k z Hk) as (b & x2 & Hb & Hf2).
      exists 0%nat, (S b), x, x2. repeat split; auto. lia.
    + cbn in Hj.
      destruct (IH j k ltac:(lia) Hj Hk)
        as (a & b & x1 & x2 & Hab & Ha & Hb & F1 & F2).
      exists (S a), (S b), x1, x2. repeat split; auto. lia.
  - destruct (IH j k Hjk Hj Hk)
      as (a & b & x1 & x2 & Hab & Ha & Hb & F1 & F2).
    exists (S a), (S b), x1, x2. repeat split; auto. lia.
Qed.

Lemma Normal_inj {A : Type} (a b : A) : Normal a = Normal b -> a = b.
Proof. intros [= H]. exact H. Qed.

Lemma add_Fin_inv (x y : num) (d : Q) :
  (x + y)%num = Fin d -> exists x' y', x = Fin x' /\ y = Fin y'.
Proof.
  destruct x as [a| | |], y as [b| | |]; cbn; try discriminate. eauto.
Qed.

Lemma mul_Fin_inv (x y : num) (d : Q) :
  (x * y)%num = Fin d -> exists x' y', x = Fin x' /\ y = Fin y'.
Proof.
  destruct x as [a| | |], y as [b| | |]; cbn; try discriminate; eauto;
    destruct (_ ?= _); discriminate.
Qed.

(** The range a reached sweep steps over is not inverted. *)
Lemma operatingPoint_range (ui : page) (inp : inputs) (st st' : caches)
  (e : sweepEnv) :
  operatingPoint ui inp st = Normal (inr e, st') ->
  exists dTmax,
    e_step e = ((dTmax - e_dTmin e) / (ofNat nPoints - 1))%num
    /\ (e_dTmin e >? dTmax)%num = false.
Proof.
  unfold operatingPoint.
  destruct (isNaN _ || _ || _ || _); [discriminate|].
  destruct (in_dTmin inp >? in_dTmax inp)%num eqn:G.
  - apply gtb_asym in G as (G' & _ & _).
    destruct (computeBeta _ _) as [beta|x]; [|discriminate]. cbn [bind].
    destruct (getT0AtPressure _ _ _ _ _) as [[T0_op st1]|x]; [|discriminate].
    cbn [bind]. destruct (isFinite T0_op); [|discriminate]. cbn [negb].
    unfold sweepEnvOf.
    destruct (computeXFromSalinity _ _) as [X|x]; [|discriminate].
    cbn [bind]. intros [= <- <-]. cbn. eauto.
  - destruct (computeBeta _ _) as [beta|x]; [|discriminate]. cbn [bind].
    destruct (getT0AtPressure _ _ _ _ _) as [[T0_op st1]|x]; [|discriminate].
    cbn [bind]. destruct (isFinite T0_op); [|discriminate]. cbn [negb].
    unfold sweepEnvOf.
    destruct (computeXFromSalinity _ _) as [X|x]; [|discriminate].
    cbn [bind]. intros [= <- <-]. cbn. eauto.
Qed.

Lemma ofNat_le (a b : nat) :
  (a < b)%nat -> inject_Z (Z.of_nat a) <= inject_Z (Z.of_nat b).
Proof. intros H. rewrite <- Zle_Qle. lia. Qed.

(** X14.  The points of a sweep are stored in the order of the steps:
    along the result arrays the extra supercooling never decreases. *)
Theorem sweep_points_ascend (ui : page) (inp : inputs) (st st' : caches)
  (e : sweepEnv) (pts : list sweepPoint) (j k : nat) (pj pk : sweepPoint) :
  operatingPoint ui inp st = Normal (inr e, st') ->
  sweepLoop e = Normal pts ->
  (j < k)%nat -> pts !! j = Some pj -> pts !! k = Some pk ->
  (p_dT_extra pj <=? p_dT_extra pk)%num = true.
Proof.
  intros Hop Hloop Hjk Hj Hk.
  destruct (operatingPoint_range _ _ _ _ _ Hop) as (dTmax & Hstep & Hord).
  destruct (operatingPoint_inv _ _ _ _ _ Hop)
    as (beta & T0_op & dTmin0 & dTmax0 & He & _).
  destruct (sweepEnvOf_inv _ _ _ _ _ _ _ He)
    as (Hkey & _ & _ & _ & _ & props & Hsalt).
  rewrite <- Hkey in Hsalt.
  rewrite (sweepLoop_Normal e props Hsalt) in Hloop.
  apply Normal_inj in Hloop. subst pts.
  destruct (omap_lookup_order _ _ _ _ _ _ Hjk Hj Hk)
    as (a & b & x1 & x2 & Hab & Ha & Hb & F1 & F2).
  apply lookup_seq in Ha as [-> _]. apply lookup_seq in Hb as [-> _].
  cbn [Nat.add] in F1, F2.
  apply stepPoint_Some in F1. apply stepPoint_Some in F2.
  destruct (sweepStep_inv _ _ _ F1) as (m1 & _ & _ & _ & X1 & _).
  destruct (sweepStep_inv _ _ _ F2) as (m2 & _ & _ & _ & X2 & _).
  destruct (emitted_step_finite _ _ _ F1)
    as (? & d1 & ? & ? & _ & D1 & _).
  destruct (emitted_step_finite _ _ _ F2)
    as (? & d2 & ? & ? & _ & D2 & _).
  unfold stepTotal in D1, D2.
  apply add_Fin_inv in D1 as (i0 & u1 & _ & U1).
  apply add_Fin_inv in D2 as (i0' & u2 & _ & U2).
  destruct (add_Fin_inv _ _ _ U1) as (m & v1 & Hm & V1).
  destruct (mul_Fin_inv _ _ _ V1) as (c & ? & Hc & _).
  rewrite X1, X2, Hm, Hc. unfold ofNat.
  rewrite !mul_Fin, !add_Fin. apply leb_Fin.
  assert (Hc0 : 0 <= c).
  { rewrite Hm, Hc in Hstep. rewrite Hm in Hord.
    destruct dTmax as [M| | |]; try discriminate.
    assert (Hle : m <= M).
    { destruct (Qlt_le_dec M m) as [Hlt|Hge]; [|exact Hge].
      apply gtb_Fin in Hlt. rewrite Hlt in Hord. discriminate. }
    assert (E : Fin c ≡ Fin ((M - m) / (inject_Z (Z.of_nat nPoints) - 1))).
    { rewrite Hstep. unfold ofNat. rewrite !sub_Fin, div_Fin;
        [reflexivity|]. vm_compute. discriminate. }
    change (c == (M - m) / (inject_Z (Z.of_nat nPoints) - 1)) in E.
    rewrite E. apply Qle_shift_div_l; [reflexivity|]. lra. }
  pose proof (ofNat_le a b Hab) as Hn. nra.
Qed.

Lemma sweep_points_ascend_witness :
  exists e st' pts pj pk,
    operatingPoint refPage refInputs noCaches = Normal (inr e, st')
    /\ sweepLoop e = Normal pts
    /\ (0 < 1)%nat /\ pts !! 0%nat = Some pj /\ pts !! 1%nat = Some pk
    /\ (p_dT_extra pj <=? p_dT_extra pk)%num = true.
Proof.
  do 5 eexists. split; [vm_compute; reflexivity|].
  split; [vm_compute; reflexivity|]. split; [lia|].
  split; [reflexivity|]. split; [reflexivity|].
  eapply (sweep_points_ascend refPage refInputs noCaches) with (j := 0%nat)
    (k := 1%nat);
    [vm_compute; reflexivity | vm_compute; reflexivity | lia
    | reflexivity | reflexivity].
Defined.

End Handler.

(** * ReferenceCurveFit: what a request does to the caches *)

Section CacheLaws.

(** X15.  The fixed-reference gas: for cyclopentane [getT0AtPressure]
    returns the stored 280.15 K whatever the pressure, the fit method, the
    page and the caches, and it leaves the caches as they are. *)
Theorem getT0AtPressure_fixed_reference (ui : page) (P : num)
  (method : string) (st : caches) :
  getT0AtPressure ui "CP" P method st = Normal (Fin 280.15, st).
Proof.
  unfold getT0AtPressure.
  assert (E : getGasObject ui "CP"
              = Some {| structure := "sII"; betaX := -1.2426; data := None;
                        t0_atm := Some (Fin 280.15) |})
    by (vm_compute; reflexivity).
  rewrite E. reflexivity.
Qed.

Lemma fitPolynomial_Normal (xs ys : list num) :
  xs <> [] ->
  exists c,
    fitPolynomial xs ys (Z.min 3 (Z.of_nat (length xs) - 1)) = Normal c.
Proof.
  intros Hxs. unfold fitPolynomial, fitPolynomial_run.
  assert (Hn : (1 <= Z.of_nat (length xs))%Z)
    by (destruct xs; [contradiction | cbn [length]; lia]).
  destruct (2 * Z.min _ _ + 1 <? 0)%Z eqn:Hneg;
    [apply Z.ltb_lt in Hneg; lia|].
  destruct (for_range 0 _ _ _) as [[A c] divisors].
  exists c. reflexivity.
Qed.

Lemma buildMonotoneSpline_Normal (x y : list num) :
  x <> [] -> exists sp, buildMonotoneSpline x y = Normal sp.
Proof.
  intros Hx. unfold buildMonotoneSpline.
  destruct x as [|x0 x]; [contradiction|]. cbn [length Nat.eqb].
  eexists. reflexivity.
Qed.

(** X16.  [getT0AtPressure] never raises: the two fits, which do raise on
    an empty sample list, are only reached with at least one point. *)
Theorem getT0AtPressure_never_raises (ui : page) (gasKey : string) (P : num)
  (method : string) (st : caches) :
  exists t st', getT0AtPressure ui gasKey P method st = Normal (t, st').
Proof.
  unfold getT0AtPressure.
  destruct (getGasObject ui gasKey) as [gas|]; [|eauto].
  destruct (String.eqb gasKey "CP"); [eauto|].
  destruct (default [] (data gas)) as [|pt pts] eqn:Hpts; [cbn; eauto|].
  cbn [length Nat.eqb].
  destruct (String.eqb _ "spline").
  - destruct (default ∅ (splineCache st) !! gasKey); [eauto|].
    destruct (buildMonotoneSpline_Normal (map snd (pt :: pts))
                (map fst (pt :: pts))) as [sp ->]; [discriminate|].
    cbn [bind]. eauto.
  - destruct (t0FitCache st !! gasKey); [eauto|].
    destruct (fitPolynomial_Normal (map snd (pt :: pts))
                (map fst (pt :: pts))) as [c ->]; [discriminate|].
    cbn [bind]. eauto.
Qed.

Lemma getGasObject_builtin (ui : page) (key : string) :
  key <> "Custom"%string ->
  getGasObject ui key
  = match gasData !! key with
    | Some g => Some g
    | None =>
        if inherited key
        then Some {| structure := EmptyString; betaX := NaN; data := None;
                     t0_atm := None |}
        else None
    end.
Proof.
  intros H. unfold getGasObject.
  destruct (String.eqb key "Custom") eqn:E; [|reflexivity].
  apply String.eqb_eq in E. contradiction.
Qed.

Lemma gasData_Custom : gasData !! "Custom"%string = None.
Proof. reflexivity. Qed.

(** A gas object with points, under a key other than [Custom], is an entry
    of [gasData]. *)
Lemma getGasObject_data (ui : page) (key : string) (gas : gas)
  (pt : num * num) (pts : list (num * num)) :
  key <> "Custom"%string ->
  getGasObject ui key = Some gas ->
  default [] (data gas) = pt :: pts ->
  gasData !! key = Some gas /\ data gas = Some (pt :: pts).
Proof.
  intros Hk Hg Hd. rewrite (getGasObject_builtin ui key Hk) in Hg.
  destruct (gasData !! key) as [g|].
  - injection Hg as ->. split; [reflexivity|].
    destruct (data gas); [cbn in Hd; congruence | discriminate].
  - destruct (inherited key); [|discriminate].
    injection Hg as <-. discriminate.
Qed.

Lemma cachesFaithful_noCaches : cachesFaithful noCaches.
Proof.
  intros k g pts _ _. split.
  - intros c H. cbn in H. rewrite lookup_empty in H. discriminate.
  - intros cache sp H. discriminate.
Qed.

(** X17.  Caching never changes the answer for a built-in gas.  Call a
    cache faithful when each entry it holds under a key of [gasData] is the
    fit of that gas's data.  Every request leaves a faithful cache
    faithful, and for a key other than [Custom] it returns the very T0 a
    request on empty caches returns. *)
Theorem builtin_caches_transparent (ui : page) (gasKey : string) (P t : num)
  (method : string) (st st' : caches) :
  cachesFaithful st ->
  getT0AtPressure ui gasKey P method st = Normal (t, st') ->
  cachesFaithful st'
  /\ (gasKey <> "Custom"%string ->
      exists st'', getT0AtPressure ui gasKey P method noCaches
                   = Normal (t, st'')).
Proof.
  intros Hf. unfold getT0AtPressure.
  destruct (getGasObject ui gasKey) as [gas|] eqn:Hg;
    [|intros [= <- <-]; split; [exact Hf|eauto]].
  destruct (String.eqb gasKey "CP");
    [intros [= <- <-]; split; [exact Hf|eauto]|].
  destruct (default [] (data gas)) as [|pt pts] eqn:Hpts;
    [cbn; intros [= <- <-]; split; [exact Hf|eauto]|].
  cbn [length Nat.eqb].
  destruct (String.eqb _ "spline").
  - destruct (default ∅ (splineCache st) !! gasKey) as [sp|] eqn:Hc.
    + intros [= <- <-]. split.
      * intros k g pts2 Hk Hd. destruct (Hf k g pts2 Hk Hd) as [F1 F2].
        split; [exact F1|]. cbn. intros cache sp2 [= <-] Hl.
        destruct (splineCache st) as [cache0|] eqn:Hs.
        -- eapply F2; [first [exact Hs | reflexivity]|exact Hl].
        -- cbn in Hl. rewrite lookup_empty in Hl. discriminate.
      * intros Hk.
        destruct (getGasObject_data ui gasKey gas pt pts Hk Hg Hpts)
          as [Hgd Hdata].
        destruct (splineCache st) as [cache0|] eqn:Hs;
          [|cbn in Hc; rewrite lookup_empty in Hc; discriminate].
        destruct (Hf gasKey gas (pt :: pts) Hgd Hdata) as [_ F2].
        specialize (F2 cache0 sp Hs Hc). unfold splineFitOf in F2.
        cbn [default splineCache noCaches]. rewrite lookup_empty.
        rewrite F2. cbn [bind]. eauto.
    + destruct (buildMonotoneSpline _ _) as [sp|x] eqn:Hb; [|discriminate].
      cbn [bind]. intros [= <- <-]. split.
      * intros k g pts2 Hk Hd. destruct (Hf k g pts2 Hk Hd) as [F1 F2].
        split; [exact F1|]. cbn. intros cache sp2 [= <-] Hl.
        destruct (decide (gasKey = k)) as [<-|Hne].
        -- rewrite lookup_insert_eq in Hl. injection Hl as <-.
           destruct (decide (gasKey = "Custom"%string)) as [->|Hcust];
             [rewrite gasData_Custom in Hk; discriminate|].
           destruct (getGasObject_data ui gasKey gas pt pts Hcust Hg Hpts)
             as [Hgd Hdata].
           assert (g = gas) by congruence. subst g.
           assert (pts2 = pt :: pts) by congruence. subst pts2.
           exact Hb.
        -- rewrite lookup_insert_ne in Hl by exact Hne.
           destruct (splineCache st) as [cache0|] eqn:Hs.
           ++ eapply F2; [first [exact Hs | reflexivity]|exact Hl].
           ++ cbn in Hl. rewrite lookup_empty in Hl. discriminate.
      * intros Hk. cbn [default splineCache noCaches].
        rewrite lookup_empty. cbn [bind]. eauto.
  - destruct (t0FitCache st !! gasKey) as [c|] eqn:Hc.
    + intros [= <- <-]. split; [exact Hf|]. intros Hk.
      destruct (getGasObject_data ui gasKey gas pt pts Hk Hg Hpts)
        as [Hgd Hdata].
      destruct (Hf gasKey gas (pt :: pts) Hgd Hdata) as [F1 _].
      specialize (F1 c Hc). unfold polyFitOf in F1.
      cbn [t0FitCache noCaches]. rewrite lookup_empty.
      rewrite F1. cbn [bind]. eauto.
    + destruct (fitPolynomial _ _ _) as [c|x] eqn:Hb; [|discriminate].
      cbn [bind]. intros [= <- <-]. split.
      * intros k g pts2 Hk Hd. destruct (Hf k g pts2 Hk Hd) as [F1 F2].
        split; [|exact F2]. cbn. intros c2 Hl.
        destruct (decide (gasKey = k)) as [<-|Hne].
        -- rewrite lookup_insert_eq in Hl. injection Hl as <-.
           destruct (decide (gasKey = "Custom"%string)) as [->|Hcust];
             [rewrite gasData_Custom in Hk; discriminate|].
           destruct (getGasObject_data ui gasKey gas pt pts Hcust Hg Hpts)
             as [Hgd Hdata].
           assert (g = gas) by congruence. subst g.
           assert (pts2 = pt :: pts) by congruence. subst pts2.
           exact Hb.
        -- rewrite lookup_insert_ne in Hl by exact Hne. apply F1, Hl.
      * intros Hk. cbn [t0FitCache noCaches].
        rewrite lookup_empty. cbn [bind]. eauto.
Qed.

Lemma builtin_caches_transparent_witness :
  exists t1 st1 t2 st2,
    getT0AtPressure refPage "CH4" 6.65 "poly" noCaches = Normal (t1, st1)
    /\ is_Some (t0FitCache st1 !! "CH4"%string)
    /\ getT0AtPressure refPage "CH4" 8.55 "poly" st1 = Normal (t2, st2)
    /\ cachesFaithful st2
    /\ ("CH4"%string <> "Custom"%string ->
        exists st'', getT0AtPressure refPage "CH4" 8.55 "poly" noCaches
                     = Normal (t2, st'')).
Proof.
  eexists. eexists. eexists. eexists.
  split; [vm_compute; reflexivity|].
  match goal with |- is_Some (t0FitCache ?S !! _) /\ _ => set (st1 := S) end.
  split; [eexists; vm_compute; reflexivity|].
  split; [vm_compute; reflexivity|].
  match goal with
  | |- cachesFaithful ?S /\ (_ -> exists _, _ = Normal (?T, _)) =>
      set (st2 := S); set (t2 := T)
  end.
  apply (builtin_caches_transparent refPage "CH4" 8.55 t2 "poly" st1 st2).
  - match goal with |- cachesFaithful ?S => change S with st1 end.
    apply (builtin_caches_transparent refPage "CH4" 6.65
             (evalPolynomial
                (default [] (t0FitCache st1 !! "CH4"%string)) 6.65)
             "poly" noCaches st1).
    + apply cachesFaithful_noCaches.
    + vm_compute. reflexivity.
  - vm_compute. reflexivity.
Defined.

(** X18.  The caches only grow: whatever the request, every polynomial
    and every spline it finds in the caches is still there, unchanged,
    afterwards. *)
Theorem getT0AtPressure_keeps_entries (ui : page) (gasKey : string)
  (P t : num) (method : string) (st st' : caches) :
  getT0AtPressure ui gasKey P method st = Normal (t, st') ->
  (forall k c, t0FitCache st !! k = Some c -> t0FitCache st' !! k = Some c)
  /\ (forall cache k sp,
        splineCache st = Some cache -> cache !! k = Some sp ->
        exists cache', splineCache st' = Some cache'
                       /\ cache' !! k = Some sp).
Proof.
  unfold getT0AtPressure.
  destruct (getGasObject ui gasKey) as [gas|];
    [|intros [= <- <-]; split; eauto].
  destruct (String.eqb gasKey "CP"); [intros [= <- <-]; split; eauto|].
  destruct (Nat.eqb _ 0); [intros [= <- <-]; split; eauto|].
  destruct (String.eqb _ "spline").
  - destruct (default ∅ (splineCache st) !! gasKey) as [sp|] eqn:Hc.
    + intros [= <- <-]. split; [auto|]. cbn.
      intros cache k sp2 -> Hl. eauto.
    + destruct (buildMonotoneSpline _ _) as [sp|x]; [|discriminate].
      cbn [bind]. intros [= <- <-]. split; [auto|]. cbn.
      intros cache k sp2 Hs Hl. rewrite Hs in *. cbn in *.
      eexists. split; [reflexivity|].
      rewrite lookup_insert_ne; [exact Hl|]. congruence.
  - destruct (t0FitCache st !! gasKey) as [c|] eqn:Hc.
    + intros [= <- <-]. split; eauto.
    + destruct (fitPolynomial _ _ _) as [c|x]; [|discriminate].
      cbn [bind]. intros [= <- <-]. split; [|eauto]. cbn.
      intros k c2 Hl. rewrite lookup_insert_ne; [exact Hl|]. congruence.
Qed.

Lemma getT0AtPressure_keeps_entries_witness :
  exists st1 t st',
    getT0AtPressure refPage "CH4" 6.65 "poly" noCaches
    = Normal (Fin (44093322476995175960249166264745
                   # 156123919341300699837130279182), st1)
    /\ getT0AtPressure refPage "CO2" 2 "poly" st1 = Normal (t, st')
    /\ (forall k c,
          t0FitCache st1 !! k = Some c -> t0FitCache st' !! k = Some c)
    /\ (forall cache k sp,
          splineCache st1 = Some cache -> cache !! k = Some sp ->
          exists cache', splineCache st' = Some cache'
                         /\ cache' !! k = Some sp).
Proof.
  do 3 eexists. split; [vm_compute; reflexivity|].
  split; [vm_compute; reflexivity|].
  eapply (getT0AtPressure_keeps_entries refPage "CO2" 2 _ "poly").
  vm_compute. reflexivity.
Defined.

End CacheLaws.

(** * The heat-map grid *)

Section HeatmapGrid.

Lemma ltb_Fin_false (x y : Q) : (Fin x <? Fin y)%num = false <-> y <= x.
Proof.
  split; intros H.
  - destruct (Qlt_le_dec x y) as [L|L]; [|exact L].
    apply ltb_Fin in L. congruence.
  - destruct (Fin x <? Fin y)%num eqn:E; [|reflexivity].
    apply ltb_Fin in E. lra.
Qed.

Lemma clamp_range (lo hi : Q) (v : num) :
  lo <= hi -> isNaN v = false ->
  exists q, max (Fin lo) (min (Fin hi) v) = Fin q /\ lo <= q <= hi.
Proof.
  intros Hle Hv. destruct v as [x| | |]; try discriminate.
  - unfold min. destruct (Fin x <? Fin hi)%num eqn:E1.
    + apply ltb_Fin in E1. unfold max.
      destruct (Fin lo <? Fin x)%num eqn:E2.
      * apply ltb_Fin in E2. exists x. split; [reflexivity|lra].
      * exists lo. split; [reflexivity|lra].
    + unfold max. destruct (Fin lo <? Fin hi)%num eqn:E2.
      * exists hi. split; [reflexivity|lra].
      * exists lo. split; [reflexivity|lra].
  - change (min (Fin hi) PInf) with (Fin hi).
    unfold max. destruct (Fin lo <? Fin hi)%num eqn:E2.
    + exists hi. split; [reflexivity|lra].
    + exists lo. split; [reflexivity|lra].
  - exists lo. split; [reflexivity|lra].
Qed.

Lemma max0_range (v : num) :
  isFinite v = true -> exists q, max (Fin 0) v = Fin q /\ 0 <= q.
Proof.
  destruct v as [x| | |]; try discriminate. intros _. unfold max.
  destruct (Fin 0 <? Fin x)%num eqn:E.
  - apply ltb_Fin in E. exists x. split; [reflexivity|lra].
  - exists 0. split; [reflexivity|lra].
Qed.


Lemma vraw_range (sInit : num) (d : Q) :
  0 <= d -> (d == 0 \/ isFinite sInit = true) ->
  exists v,
    (if (max 0 (100 - sInit)%num >? 0)%num
     then max 0 (min 1 (Fin d / max 0 (100 - sInit)%num)%num) else Fin 0) =
         Fin v
    /\ 0 <= v <= 1.
Proof.
  intros Hd Hs.
  destruct (max 0 (100 - sInit)%num >? 0)%num eqn:G;
    [|exists 0; split; [reflexivity|lra]].
  apply (clamp_range 0 1); [lra|].
  destruct (max 0 (100 - sInit)%num) as [h| | |] eqn:Eh; try discriminate.
  - apply gtb_Fin in G. unfold div.
    destruct (Qeq_bool h 0) eqn:Z; [apply Qeq_bool_iff in Z; lra|reflexivity].
  - reflexivity.
Qed.

Lemma heatmapCell_range (beta T0_op masMinNorm range sInit dT_init_op
  Tform : num)
  (saltKey : string) (c : heatCell) :
  (isFinite sInit = true \/ dT_init_op = NaN) ->
  heatmapCell beta T0_op saltKey masMinNorm range sInit dT_init_op Tform =
      Normal c ->
  cellInRange c.
Proof.
  intros Hs. unfold heatmapCell.
  set (dT_total := max 0 (T0_op - Tform)%num).
  assert (Hidle : forall c',
    Normal {| c_x := sInit; c_y := Tform; c_mwy := Fin 0;
              c_masNorm := max 0 (min 1 (((if (max 0 (100 - sInit)%num >? 0)%num
                 then max 0 (min 1 (Fin 0 / max 0 (100 - sInit)%num)%num) else
                     Fin 0) - masMinNorm) / range)%num);
              c_mas := sInit; c_dmas := Fin 0;
              c_vraw := if (max 0 (100 - sInit)%num >? 0)%num
                 then max 0 (min 1 (Fin 0 / max 0 (100 - sInit)%num)%num) else
                     Fin 0 |} = Normal c' ->
    cellInRange c').
  { intros c' E. apply Normal_inj in E. subst c'.
    destruct (vraw_range sInit 0) as (v & Ev & Hv); [lra|left; reflexivity|].
    exists 0, 0, v. cbn. repeat split; try lra; try reflexivity; exact Ev. }
  destruct ((dT_total >=? dT_init_op)%num && (dT_total <? T0_op)%num) eqn:G1;
    [|cbn [bind]; apply Hidle].
  destruct (isFinite (computeLnawFromDelta beta dT_total T0_op)
            && (computeLnawFromDelta beta dT_total T0_op <? 0)%num) eqn:G2;
    [|cbn [bind]; apply Hidle].
  destruct (computeSalinityFromX _ saltKey) as [mas|e] eqn:Em; [|discriminate].
  cbn [bind].
  destruct (isFinite mas && (mas >? 0)%num) eqn:G3; [|cbn [bind]; apply Hidle].
  cbn [bind]. intros E. apply Normal_inj in E. subst c.
  assert (Fs : isFinite sInit = true).
  { destruct Hs as [Hs| ->]; [exact Hs|].
    apply andb_prop in G1. destruct G1 as [G1 _].
    destruct dT_total; discriminate. }
  apply andb_prop in G3. destruct G3 as [Fm Pm].
  destruct mas as [m| | |]; try discriminate.
  destruct sInit as [s| | |]; try discriminate.
  apply gtb_Fin in Pm.
  destruct (clamp_range 0 100 (((Fin m - Fin s) / Fin m) * 100)%num)
    as (q & Eq & Hq); [lra| |].
  { cbn. destruct (Qeq_bool m 0) eqn:Z; [apply Qeq_bool_iff in Z;
      lra|reflexivity]. }
  destruct (max0_range (Fin m - Fin s)%num) as (d & Ed & Hd); [reflexivity|].
  rewrite Ed.
  destruct (vraw_range (Fin s) d) as (v & Ev & Hv); [exact Hd|right;
      reflexivity|].
  exists q, d, v. cbn [c_mwy c_dmas c_vraw].
  repeat split; try lra; assumption.
Qed.

Lemma mul_NaN_r (a : num) : (a * NaN)%num = NaN.
Proof. destruct a; reflexivity. Qed.

Lemma rowInitialSupercooling_nonfinite (beta T0_op sInit dT : num) (saltKey :
    string) :
  rowInitialSupercooling beta T0_op saltKey sInit = Normal dT ->
  isFinite sInit = false -> dT = NaN.
Proof.
  unfold rowInitialSupercooling, computeXFromSalinity.
  destruct (destructureSalt saltKey) as [p|e]; [|discriminate]. cbn [bind].
  intros E Hs.
  assert (HX : forall k1 k2 : Q,
            ((k1 * (sInit / molarMass p)) /
             ((100 - sInit) / WATER_MOLAR_MASS + k2 * (sInit / molarMass
                 p)))%num = NaN
            \/ k1 <= 0 \/ k2 <= 0).
  { intros k1 k2.
    destruct (Qlt_le_dec 0 k1) as [H1|H1]; [|right; left; exact H1].
    destruct (Qlt_le_dec 0 k2) as [H2|H2]; [|right; right; exact H2].
    left.
    assert (C1 : (k1 ?= 0) = Gt) by (apply Qgt_alt; exact H1).
    assert (C2 : (k2 ?= 0) = Gt) by (apply Qgt_alt; exact H2).
    assert (C1' : (0 ?= k1) = Lt) by (apply Qlt_alt; exact H1).
    assert (C2' : (0 ?= k2) = Lt) by (apply Qlt_alt; exact H2).
    destruct sInit as [s| | |]; try discriminate;
      destruct (molarMass p) as [m| | |]; try reflexivity;
      cbn; destruct (Qle_bool 0 m); cbn; rewrite ?C1, ?C2, ?C1', ?C2';
          reflexivity. }
  assert (EX : forall X, Normal (computeDeltaT beta (computeLnawFromX X)
      T0_op) = Normal dT ->
                 X = NaN -> dT = NaN).
  { intros X E' ->. apply Normal_inj in E'. subst dT.
    change (computeLnawFromX NaN) with NaN. unfold computeDeltaT.
    rewrite mul_NaN_r. reflexivity. }
  destruct (String.eqb saltKey "MgCl2"); cbn [bind] in E.
  - apply (EX _ E). destruct (HX 4 3) as [H|[H|H]]; [exact H|lra|lra].
  - apply (EX _ E). destruct (HX 2 2) as [H|[H|H]]; [exact H|lra|lra].
Qed.

Lemma forOf_push {X C : Type} (f : X -> completion C) (l : list X)
  (acc out : list C) :
  forOf l (fun v cells => let* c := f v in Normal (cells ++ [c])) acc = Normal
      out ->
  exists cs, out = acc ++ cs /\ Forall2 (fun v c => f v = Normal c) l cs.
Proof.
  revert acc. induction l as [|v l IH]; intros acc; cbn [forOf].
  - intros E. apply Normal_inj in E. subst out. exists [].
    split; [symmetry; apply app_nil_r|constructor].
  - destruct (f v) as [c|e] eqn:Ev; [|discriminate]. cbn [bind].
    intros E. destruct (IH _ E) as (cs & -> & Hcs).
    exists (c :: cs). split; [rewrite <- app_assoc; reflexivity|].
    constructor; assumption.
Qed.


Lemma heatmapGrid_rows (beta T0_op masMinNorm range : num) (saltKey : string)
  (salts temps : list num) (cells : list heatCell) :
  heatmapGrid beta T0_op saltKey masMinNorm range salts temps = Normal cells ->
  exists rows,
    cells = concat rows
    /\ Forall2 (gridRow beta T0_op saltKey masMinNorm range temps) salts rows.
Proof.
  unfold heatmapGrid.
  enough (G : forall acc,
    forOf salts
      (fun sInit cells0 =>
         let* dT_init_op := rowInitialSupercooling beta T0_op saltKey sInit in
         forOf temps
           (fun Tform cells1 =>
              let* c := heatmapCell beta T0_op saltKey masMinNorm range
                          sInit dT_init_op Tform in
              Normal (cells1 ++ [c])) cells0) acc = Normal cells ->
    exists rows, cells = acc ++ concat rows
      /\ Forall2 (gridRow beta T0_op saltKey masMinNorm range temps) salts
          rows).
  { intros E. destruct (G [] E) as (rows & -> & H). exists rows. split;
      [reflexivity|exact H]. }
  induction salts as [|s salts IH]; intros acc; cbn [forOf].
  - intros E. apply Normal_inj in E. subst cells. exists [].
    split; [symmetry; apply app_nil_r|constructor].
  - destruct (rowInitialSupercooling beta T0_op saltKey s) as [dT|e] eqn:Er;
      [|discriminate]. cbn [bind].
    destruct (forOf temps _ acc) as [acc'|e] eqn:Ei; [|discriminate]. cbn
        [bind].
    intros E. destruct (IH _ E) as (rows & -> & Hrows).
    apply forOf_push in Ei. destruct Ei as (row & -> & Hrow).
    exists (row :: rows). split; [cbn [concat]; rewrite <- app_assoc;
        reflexivity|].
    constructor; [|exact Hrows]. exists dT. split; [exact Er|exact Hrow].
Qed.

Lemma heatmapCell_axes (beta T0_op masMinNorm range sInit dT_init_op
  Tform : num)
  (saltKey : string) (c : heatCell) :
  heatmapCell beta T0_op saltKey masMinNorm range sInit dT_init_op Tform =
      Normal c ->
  c_x c = sInit /\ c_y c = Tform.
Proof.
  unfold heatmapCell.
  match goal with |- bind ?r _ = _ -> _ => destruct r as [[[m v] i]|e] end;
    [|discriminate].
  cbn [bind]. intros E. apply Normal_inj in E. subst c. split; reflexivity.
Qed.

(** X19.  Whatever the inputs, every cell the heat-map loops produce
    carries a finite yield between 0 and 100, a finite non-negative MAS
    increase and a raw normalised MAS between 0 and 1: no NaN or infinity
    reaches the two plotted grids through these fields. *)
Theorem heatmapGrid_values_in_range (beta T0_op masMinNorm range : num)
  (saltKey : string) (salts temps : list num) (cells : list heatCell) :
  heatmapGrid beta T0_op saltKey masMinNorm range salts temps = Normal cells ->
  Forall cellInRange cells.
Proof.
  intros E. destruct (heatmapGrid_rows _ _ _ _ _ _ _ _ E) as (rows & -> &
      Hrows).
  apply Forall_concat. clear E.
  induction Hrows as [|s row salts rows (dT & Er & Hrow) _ IH]; constructor;
    [|exact IH].
  assert (Hs : isFinite s = true \/ dT = NaN).
  { destruct (isFinite s) eqn:F; [left; reflexivity|right].
    exact (rowInitialSupercooling_nonfinite _ _ _ _ _ Er F). }
  clear Er. induction Hrow as [|T c temps row Hc _ IH']; constructor; [|exact
      IH'].
  exact (heatmapCell_range _ _ _ _ _ _ _ _ _ Hs Hc).
Qed.

(** X20.  The heat-map loops never skip a cell: the cells come out in
    row-major order, one for each (salinity, temperature) pair, with the
    pair as their [x] and [y]. *)
Theorem heatmapGrid_row_major (beta T0_op masMinNorm range : num)
  (saltKey : string) (salts temps : list num) (cells : list heatCell) :
  heatmapGrid beta T0_op saltKey masMinNorm range salts temps = Normal cells ->
  map (fun c => (c_x c, c_y c)) cells = list_prod salts temps.
Proof.
  intros E. destruct (heatmapGrid_rows _ _ _ _ _ _ _ _ E) as (rows & -> &
      Hrows).
  clear E.
  induction Hrows as [|s row salts rows (dT & Er & Hrow) _ IH]; [reflexivity|].
  cbn [concat list_prod]. rewrite map_app, IH. f_equal.
  clear Er IH. induction Hrow as [|T c temps row Hc _ IH']; [reflexivity|].
  cbn [map]. rewrite IH'. destruct (heatmapCell_axes _ _ _ _ _ _ _ _ _ Hc) as
      [-> ->].
  reflexivity.
Qed.

Lemma heatmapCell_Normal (beta T0_op masMinNorm range sInit dT_init_op
  Tform : num)
  (saltKey : string) (p : salt) :
  destructureSalt saltKey = Normal p ->
  exists c, heatmapCell beta T0_op saltKey masMinNorm range sInit dT_init_op
      Tform
            = Normal c.
Proof.
  intros Hp. unfold heatmapCell.
  match goal with |- exists c, bind ?r _ = _ =>
    assert (H : exists t, r = Normal t) end.
  { destruct (_ && _); [|eexists; reflexivity].
    destruct (_ && _); [|eexists; reflexivity].
    destruct (computeSalinityFromX_Normal
                (solveXFromLnaw (computeLnawFromDelta beta (max 0 (T0_op -
                    Tform)%num) T0_op))
                saltKey p Hp) as (mas & ->).
    cbn [bind]. destruct (_ && _); eexists; reflexivity. }
  destruct H as ([[m v] i] & ->). cbn [bind]. eexists. reflexivity.
Qed.

Lemma forOf_push_Normal {X C : Type} (f : X -> completion C) (l : list X)
  (acc : list C) :
  (forall v, exists c, f v = Normal c) ->
  exists out,
    forOf l (fun v cells => let* c := f v in Normal (cells ++ [c])) acc
    = Normal out.
Proof.
  intros Hf. revert acc. induction l as [|v l IH]; intros acc; cbn [forOf];
    [eexists; reflexivity|].
  destruct (Hf v) as (c & ->). cbn [bind]. apply IH.
Qed.

Lemma heatmapGrid_Normal (beta T0_op masMinNorm range : num)
  (saltKey : string) (salts temps : list num) (p : salt) :
  destructureSalt saltKey = Normal p ->
  exists cells,
    heatmapGrid beta T0_op saltKey masMinNorm range salts temps = Normal cells.
Proof.
  intros Hp. unfold heatmapGrid.
  match goal with |- exists c, forOf salts ?b [] = _ =>
    enough (G : forall acc, exists c, forOf salts b acc = Normal c) by apply G
  end.
  induction salts as [|s salts IH]; intros acc; cbn [forOf];
    [eexists; reflexivity|].
  destruct (rowInitialSupercooling beta T0_op saltKey s) as [dT|e] eqn:Er.
  - cbn [bind].
    destruct (forOf_push_Normal
                (heatmapCell beta T0_op saltKey masMinNorm range s dT) temps
                    acc)
      as (out & ->).
    + intros T. exact (heatmapCell_Normal _ _ _ _ _ _ _ _ p Hp).
    + cbn [bind]. apply IH.
  - unfold rowInitialSupercooling, computeXFromSalinity in Er. rewrite Hp in Er.
    cbn [bind] in Er. destruct (String.eqb saltKey "MgCl2"); discriminate.
Qed.

(** X21.  The heat-map loops raise an exception [e] exactly when [e] is
    a [TypeError], there is at least one salinity row, and the salt key is
    neither a key of [saltProps] nor an inherited property name (for which
    destructuring raises that [TypeError]). *)
Theorem heatmapGrid_raises_iff (beta T0_op masMinNorm range : num)
  (saltKey : string) (salts temps : list num) (e : exn) :
  heatmapGrid beta T0_op saltKey masMinNorm range salts temps = Throw e
  <-> e = TypeError /\ salts <> []
      /\ destructureSalt saltKey = Throw TypeError.
Proof.
  split.
  - intros E.
    assert (Hs : salts <> []) by (intros ->; discriminate).
    assert (Hp : destructureSalt saltKey = Throw TypeError).
    { destruct (destructureSalt saltKey) as [p|e'] eqn:Hp.
      - destruct (heatmapGrid_Normal beta T0_op masMinNorm range saltKey
                    salts temps p Hp) as (cells & Hc). congruence.
      - unfold destructureSalt in Hp.
        destruct (saltProps !! saltKey); [discriminate|].
        destruct (inherited saltKey); [discriminate|]. symmetry. exact Hp. }
    split; [|split; assumption].
    destruct salts as [|s0 salts]; [congruence|].
    revert E. unfold heatmapGrid. cbn [forOf].
    unfold rowInitialSupercooling, computeXFromSalinity. rewrite Hp.
    cbn [bind]. intros [= <-]. reflexivity.
  - intros (-> & Hs & Hp). destruct salts as [|s salts]; [congruence|].
    unfold heatmapGrid. cbn [forOf].
    unfold rowInitialSupercooling, computeXFromSalinity. rewrite Hp.
    reflexivity.
Qed.


Lemma heatmapGrid_values_in_range_witness :
  exists cells,
    heatmapGrid (Fin (-0.0012426)) (Fin 280.15) "NaCl" 0 1
      [Fin 8] [Fin 270; Fin 285] = Normal cells
    /\ Forall cellInRange cells.
Proof.
  eexists. split; [vm_compute; reflexivity|].
  apply (heatmapGrid_values_in_range (Fin (-0.0012426)) (Fin 280.15) 0 1
           "NaCl" [Fin 8] [Fin 270; Fin 285]).
  vm_compute. reflexivity.
Defined.

Lemma heatmapGrid_row_major_witness :
  exists cells,
    heatmapGrid (Fin (-0.0012426)) (Fin 280.15) "KCl" 0 1
      [Fin 3.5; Fin 8] [Fin 270; Fin 290] = Normal cells
    /\ map (fun c => (c_x c, c_y c)) cells
       = [(Fin 3.5, Fin 270); (Fin 3.5, Fin 290);
          (Fin 8, Fin 270); (Fin 8, Fin 290)].
Proof.
  eexists. split; [vm_compute; reflexivity|].
  apply (heatmapGrid_row_major (Fin (-0.0012426)) (Fin 280.15) 0 1
           "KCl" [Fin 3.5; Fin 8] [Fin 270; Fin 290]).
  vm_compute. reflexivity.
Defined.

End HeatmapGrid.

(** * What the handler can raise *)

Section HandlerErrors.

Lemma getT0AtPressure_no_Throw (ui : page) (gasKey : string) (P : num)
  (method : string) (st : caches) (x : exn) :
  getT0AtPressure ui gasKey P method st <> Throw x.
Proof.
  unfold getT0AtPressure.
  destruct (getGasObject ui gasKey) as [gas|]; [|discriminate].
  destruct (String.eqb gasKey "CP"); [discriminate|].
  destruct (default [] (data gas)) as [|pt pts] eqn:Hpts; [discriminate|].
  cbn [length Nat.eqb].
  destruct (String.eqb _ "spline").
  - destruct (default ∅ (splineCache st) !! gasKey); [discriminate|].
    destruct (buildMonotoneSpline_Normal (map snd (pt :: pts))
                (map fst (pt :: pts))) as [sp ->]; discriminate.
  - destruct (t0FitCache st !! gasKey); [discriminate|].
    destruct (fitPolynomial_Normal (map snd (pt :: pts))
                (map fst (pt :: pts))) as [c ->]; discriminate.
Qed.

Lemma destructureSalt_Throw (key : string) (x : exn) :
  destructureSalt key = Throw x -> x = TypeError.
Proof.
  unfold destructureSalt. destruct (saltProps !! key); [discriminate|].
  destruct (inherited key); [discriminate|]. intros [= <-]. reflexivity.
Qed.

(** X22.  The computation of the click handler raises nothing but a
    [TypeError], and only for a gas key [getGasObject] does not know or a
    salt key [saltProps] cannot be destructured at. *)
Theorem calculate_raises_only_on_unknown_key (ui : page) (inp : inputs)
  (st : caches) (x : exn) :
  calculate ui inp st = Throw x ->
  x = TypeError
  /\ (getGasObject ui (in_gas inp) = None
      \/ destructureSalt (in_salt inp) = Throw TypeError).
Proof.
  unfold calculate.
  destruct (operatingPoint ui inp st) as [[[a|e] st1]|x1] eqn:Hop; cbn [bind].
  - discriminate.
  - destruct (operatingPoint_inv _ _ _ _ _ Hop) as (beta & T0 & lo & hi & He &
      _).
    destruct (sweepEnvOf_inv _ _ _ _ _ _ _ He) as (Hk & _ & _ & _ & _ & props
        & Hp).
    rewrite (sweepLoop_Normal e props) by (rewrite Hk; exact Hp).
    cbn [bind]. destruct (Nat.eqb _ 0); discriminate.
  - intros [= <-]. revert Hop. unfold operatingPoint.
    destruct (isNaN _ || _ || _ || _); [discriminate|].
    destruct (if (in_dTmin inp >? in_dTmax inp)%num then _ else _)
      as [dTmin dTmax].
    unfold computeBeta, computeBetaCustom.
    destruct (getGasObject ui (in_gas inp)) as [gas|];
      [|cbn [bind]; intros [= <-]; split; [reflexivity|left; reflexivity]].
    cbn [bind].
    destruct (getT0AtPressure _ _ _ _ _) as [[T0_op st1]|x] eqn:Ht;
      [|exfalso; exact (getT0AtPressure_no_Throw _ _ _ _ _ _ Ht)].
    cbn [bind]. destruct (negb (isFinite T0_op)); [discriminate|].
    unfold sweepEnvOf, computeXFromSalinity.
    destruct (destructureSalt (in_salt inp)) as [p|x] eqn:Hp.
    + cbn [bind]. destruct (String.eqb _ "MgCl2"); discriminate.
    + cbn [bind]. intros [= <-]. pose proof (destructureSalt_Throw _ _ Hp) as
        ->.
      split; [reflexivity|right; reflexivity].
Qed.

Lemma calculate_raises_only_on_unknown_key_witness :
  calculate refPage
    {| in_gas := "CP"; in_salt := "LiBr"; in_salinity := 8;
       in_pressure := 0.1; in_dTmin := 0.5; in_dTmax := 5 |} noCaches
  = Throw TypeError
  /\ TypeError = TypeError
  /\ (getGasObject refPage "CP" = None
      \/ destructureSalt "LiBr" = Throw TypeError).
Proof.
  split; [vm_compute; reflexivity|].
  apply (calculate_raises_only_on_unknown_key refPage
           {| in_gas := "CP"; in_salt := "LiBr"; in_salinity := 8;
              in_pressure := 0.1; in_dTmin := 0.5; in_dTmax := 5 |} noCaches).
  vm_compute. reflexivity.
Defined.

End HandlerErrors.

(** * The monotone spline *)

Section SplineFacts.

Lemma idx_map_Fin (l : list Q) (i : nat) (q : Q) :
  l !! i = Some q -> idx (map Fin l) i = Fin q.
Proof.
  intros H. unfold idx. change (map Fin l) with (Fin <$> l).
  rewrite list_lookup_fmap, H. reflexivity.
Qed.

Lemma idx_map_seq (f : nat -> num) (m i : nat) :
  (i < m)%nat -> idx (map f (seq 0 m)) i = f i.
Proof.
  intros H. unfold idx. change (map f (seq 0 m)) with (f <$> seq 0 m).
  rewrite list_lookup_fmap, lookup_seq_lt by exact H. reflexivity.
Qed.

Lemma for_range_ind {St : Type} (P : nat -> St -> Prop) (lo hi : nat)
  (body : nat -> St -> St) (s : St) :
  (lo <= hi)%nat -> P lo s ->
  (forall i s, (lo <= i < hi)%nat -> P i s -> P (S i) (body i s)) ->
  P hi (for_range lo hi body s).
Proof.
  intros Hle H0 Hstep. unfold for_range.
  assert (G : forall m l s0, (lo <= l)%nat -> (l + m <= hi)%nat -> P l s0 ->
                P (l + m)%nat (fold_left (fun s1 i => body i s1) (seq l m) s0)).
  { induction m as [|m IH]; intros l s0 Hl Hm Hs; cbn [seq fold_left].
    - rewrite Nat.add_0_r. exact Hs.
    - replace (l + S m)%nat with (S l + m)%nat by lia.
      apply IH; [lia|lia|]. apply Hstep; [lia|exact Hs]. }
  replace hi with (lo + (hi - lo))%nat at 1 by lia.
  apply G; [lia|lia|exact H0].
Qed.

Lemma isFinite_div (a b : num) (q : Q) :
  isFinite a = true -> b ≡ Fin q -> ~ q == 0 -> isFinite (a / b)%num = true.
Proof.
  intros Ha Hb Hq. destruct a as [x| | |]; try discriminate.
  destruct b as [y| | |]; try contradiction.
  change (y == q) in Hb. unfold div.
  destruct (Qeq_bool y 0) eqn:Z; [|reflexivity].
  apply Qeq_bool_iff in Z. rewrite Z in Hb. symmetry in Hb. contradiction.
Qed.

Lemma isFinite_Fin (a : num) : isFinite a = true -> exists q, a = Fin q.
Proof. destruct a; try discriminate. eauto. Qed.

Lemma harmonic_denominator (p q a b : Q) :
  0 < p -> 0 < q -> 0 < a * b -> ~ p / a + q / b == 0.
Proof.
  intros Hp Hq Hab.
  assert (Ha : ~ a == 0) by (intros E; rewrite E in Hab; lra).
  assert (Hb : ~ b == 0) by (intros E; rewrite E in Hab; lra).
  assert (E : p / a + q / b == (p * b + q * a) / (a * b)) by (field; split;
      assumption).
  rewrite E. intros Z.
  assert (N : p * b + q * a == 0).
  { assert (E2 : p * b + q * a == (p * b + q * a) / (a * b) * (a * b))
      by (field; split; assumption).
    rewrite E2, Z. ring. }
  destruct (Qlt_le_dec 0 a) as [Pa|Na].
  - assert (0 < b) by nra. nra.
  - assert (a < 0) by (destruct (Qeq_dec a 0); [contradiction|lra]).
    assert (b < 0) by nra. nra.
Qed.

Lemma harmonic_within (hi hp a b : Q) :
  0 < hi -> 0 < hp -> 0 < a * b ->
  let w1 := 2 * hi + hp in
  let w2 := hi + 2 * hp in
  within ((w1 + w2) / (w1 / a + w2 / b)) a
  /\ within ((w1 + w2) / (w1 / a + w2 / b)) b.
Proof.
  intros Hhi Hhp Hab w1 w2.
  assert (Hw1 : 0 < w1) by (unfold w1; lra).
  assert (Hw2 : 0 < w2) by (unfold w2; lra).
  assert (H12 : w2 <= 2 * w1) by (unfold w1, w2; lra).
  assert (H21 : w1 <= 2 * w2) by (unfold w1, w2; lra).
  assert (Ha : ~ a == 0) by (intros E; rewrite E in Hab; lra).
  assert (Hb : ~ b == 0) by (intros E; rewrite E in Hab; lra).
  assert (HD : ~ w1 / a + w2 / b == 0) by (apply harmonic_denominator;
      assumption).
  assert (HN : ~ w1 * b + w2 * a == 0).
  { intros Z. apply HD.
    assert (E : w1 / a + w2 / b == (w1 * b + w2 * a) / (a * b))
      by (field; split; assumption).
    rewrite E, Z. field. split; assumption. }
  set (H := (w1 + w2) / (w1 / a + w2 / b)).
  assert (EH : H * (w1 * b + w2 * a) == (w1 + w2) * (a * b)).
  { unfold H. field. repeat split; assumption. }
  clearbody H w1 w2.
  destruct (Qlt_le_dec 0 a) as [Pa|Na].
  - assert (Pb : 0 < b) by nra.
    assert (PN : 0 < w1 * b + w2 * a) by nra.
    assert (PH : 0 <= H).
    { destruct (Qlt_le_dec H 0) as [L|L]; [|exact L]. exfalso.
      assert (H * (w1 * b + w2 * a) < 0) by nra.
      assert (0 < (w1 + w2) * (a * b)) by nra. lra. }
    assert (Ua : H <= 3 * a).
    { destruct (Qlt_le_dec (3 * a) H) as [L|L]; [|exact L]. exfalso.
      assert (3 * a * (w1 * b + w2 * a) < H * (w1 * b + w2 * a)) by nra.
      assert (0 <= a * a * w2) by nra.
      assert (0 <= a * b * (2 * w1 - w2)) by nra.
      nra. }
    assert (Ub : H <= 3 * b).
    { destruct (Qlt_le_dec (3 * b) H) as [L|L]; [|exact L]. exfalso.
      assert (3 * b * (w1 * b + w2 * a) < H * (w1 * b + w2 * a)) by nra.
      assert (0 <= b * b * w1) by nra.
      assert (0 <= a * b * (2 * w2 - w1)) by nra.
      nra. }
    split; left; split; assumption.
  - assert (Na' : a < 0) by (destruct (Qeq_dec a 0); [contradiction|lra]).
    assert (Nb : b < 0) by nra.
    assert (PN : w1 * b + w2 * a < 0) by nra.
    assert (PH : H <= 0).
    { destruct (Qlt_le_dec 0 H) as [L|L]; [|exact L]. exfalso.
      assert (H * (w1 * b + w2 * a) < 0) by nra.
      assert (0 < (w1 + w2) * (a * b)) by nra. lra. }
    assert (Ua : 3 * a <= H).
    { destruct (Qlt_le_dec H (3 * a)) as [L|L]; [|exact L]. exfalso.
      assert (3 * a * (w1 * b + w2 * a) < H * (w1 * b + w2 * a)) by nra.
      assert (0 <= a * a * w2) by nra.
      assert (0 <= a * b * (2 * w1 - w2)) by nra.
      nra. }
    assert (Ub : 3 * b <= H).
    { destruct (Qlt_le_dec H (3 * b)) as [L|L]; [|exact L]. exfalso.
      assert (3 * b * (w1 * b + w2 * a) < H * (w1 * b + w2 * a)) by nra.
      assert (0 <= b * b * w1) by nra.
      assert (0 <= a * b * (2 * w2 - w1)) by nra.
      nra. }
    split; right; split; assumption.
Qed.


Lemma hermite_between (t y0 y1 h d e0 e1 : Q) :
  0 <= t <= 1 -> 0 < h -> d * h == y1 - y0 -> within e0 d -> within e1 d ->
  y0 <= hermiteQ t y0 y1 h e0 e1 <= y1
  \/ y1 <= hermiteQ t y0 y1 h e0 e1 <= y0.
Proof.
  intros Ht Hh Hd W0 W1.
  set (P := t * (1 - t) * (1 - t)).
  set (R := t * t * (1 - t)).
  assert (HP : 0 <= P) by (unfold P; pose proof (Qsquare_nonneg (1 - t)); nra).
  assert (HR : 0 <= R) by (unfold R; pose proof (Qsquare_nonneg t); nra).
  assert (HT : 0 <= t * t * t) by (pose proof (Qsquare_nonneg t); nra).
  assert (HU : 0 <= (1 - t) * (1 - t) * (1 - t))
    by (pose proof (Qsquare_nonneg (1 - t)); nra).
  set (D := y1 - y0) in *.
  set (E0 := h * e0). set (E1 := h * e1).
  assert (Ev : hermiteQ t y0 y1 h e0 e1
               == y0 + D * (t * t * (3 - 2 * t)) + E0 * P - E1 * R)
    by (unfold hermiteQ, D, E0, E1, P, R; ring).
  assert (I1 : t * t * (3 - 2 * t) - 3 * R == t * t * t) by (unfold R; ring).
  assert (I2 : t * t * (3 - 2 * t) + 3 * P
               == 1 - (1 - t) * (1 - t) * (1 - t)) by (unfold P; ring).
  destruct (Qlt_le_dec d 0) as [Nd|Pd].
  - assert (W0' : 3 * d <= e0 /\ e0 <= 0) by (destruct W0 as [[? ?]|?];
      [lra|assumption]).
    assert (W1' : 3 * d <= e1 /\ e1 <= 0) by (destruct W1 as [[? ?]|?];
        [lra|assumption]).
    assert (B0 : 3 * D <= E0 /\ E0 <= 0) by (unfold E0; nra).
    assert (B1 : 3 * D <= E1 /\ E1 <= 0) by (unfold E1; nra).
    assert (HD : D <= 0) by nra.
    assert (ED : D == y1 - y0) by reflexivity.
    clearbody P R E0 E1 D.
    assert (3 * D * P <= E0 * P /\ E0 * P <= 0) by nra.
    assert (3 * D * R <= E1 * R /\ E1 * R <= 0) by nra.
    assert (D * (t * t * t) <= 0) by nra.
    assert (D * ((1 - t) * (1 - t) * (1 - t)) <= 0) by nra.
    assert (D * (t * t * (3 - 2 * t)) - 3 * D * R == D * (t * t * t)) by
        (rewrite <- I1; ring).
    assert (D * (t * t * (3 - 2 * t)) + 3 * D * P
            == D - D * ((1 - t) * (1 - t) * (1 - t))) by (transitivity (D * (t
                * t * (3 - 2 * t) + 3 * P)); [ring|rewrite I2; ring]).
    right. split; lra.
  - assert (W0' : 0 <= e0 /\ e0 <= 3 * d) by (destruct W0 as [?|[? ?]];
      [assumption|lra]).
    assert (W1' : 0 <= e1 /\ e1 <= 3 * d) by (destruct W1 as [?|[? ?]];
        [assumption|lra]).
    assert (B0 : 0 <= E0 /\ E0 <= 3 * D) by (unfold E0; nra).
    assert (B1 : 0 <= E1 /\ E1 <= 3 * D) by (unfold E1; nra).
    assert (HD : 0 <= D) by nra.
    assert (ED : D == y1 - y0) by reflexivity.
    clearbody P R E0 E1 D.
    assert (0 <= E0 * P /\ E0 * P <= 3 * D * P) by nra.
    assert (0 <= E1 * R /\ E1 * R <= 3 * D * R) by nra.
    assert (0 <= D * (t * t * t)) by nra.
    assert (0 <= D * ((1 - t) * (1 - t) * (1 - t))) by nra.
    assert (D * (t * t * (3 - 2 * t)) - 3 * D * R == D * (t * t * t)) by
        (rewrite <- I1; ring).
    assert (D * (t * t * (3 - 2 * t)) + 3 * D * P
            == D - D * ((1 - t) * (1 - t) * (1 - t))) by (transitivity (D * (t
                * t * (3 - 2 * t) + 3 * P)); [ring|rewrite I2; ring]).
    left. split; lra.
Qed.

Lemma within_zero (d : Q) : within 0 d.
Proof.
  unfold within. destruct (Qlt_le_dec d 0); [right|left]; split; lra.
Qed.

Lemma within_self (d : Q) : within d d.
Proof.
  unfold within. destruct (Qlt_le_dec d 0); [right|left]; split; lra.
Qed.

Lemma within_triple (d : Q) : within (3 * d) d.
Proof.
  unfold within. destruct (Qlt_le_dec d 0); [right|left]; split; lra.
Qed.

Lemma within_eq (e e' d : Q) : e == e' -> within e d -> within e' d.
Proof. unfold within. intros E [[? ?]|[? ?]]; [left|right]; split; lra. Qed.

Lemma clipEnd_within (z a : Q) :
  exists e, clipEnd (Fin z) (Fin a) = Fin e /\ within e a.
Proof.
  unfold clipEnd.
  destruct (Fin z * Fin a <=? 0)%num eqn:G1.
  { exists 0. split; [reflexivity|apply within_zero]. }
  assert (Hza : 0 < z * a).
  { destruct (Qlt_le_dec 0 (z * a)) as [L|L]; [exact L|].
    assert (G : (Fin z * Fin a <=? 0)%num = true)
      by (rewrite mul_Fin; apply leb_Fin; exact L).
    congruence. }
  cbn [abs].
  destruct (Fin (Qabs z) >? 3 * Fin (Qabs a))%num eqn:G2.
  { destruct (equiv_Fin_inv _ _ (mul_Fin 3 a)) as (e & -> & He).
    exists e. split; [reflexivity|].
    apply (within_eq (3 * a)); [symmetry; exact He|apply within_triple]. }
  exists z. split; [reflexivity|].
  assert (Hle : Qabs z <= 3 * Qabs a).
  { destruct (Qlt_le_dec (3 * Qabs a) (Qabs z)) as [L|L]; [|exact L].
    assert (G : (Fin (Qabs z) >? 3 * Fin (Qabs a))%num = true)
      by (rewrite mul_Fin; apply gtb_Fin; exact L).
    congruence. }
  unfold within. destruct (Qlt_le_dec 0 a) as [Pa|Na].
  - assert (0 < z) by (destruct (Qlt_le_dec 0 z); [assumption|exfalso; nra]).
    rewrite (Qabs_pos z), (Qabs_pos a) in Hle by lra. left. split; lra.
  - assert (a < 0)
      by (destruct (Qeq_dec a 0) as [E|E]; [rewrite E in Hza; lra|lra]).
    assert (z < 0) by (destruct (Qlt_le_dec z 0); [assumption|exfalso; nra]).
    rewrite (Qabs_neg z), (Qabs_neg a) in Hle by lra. right. split; lra.
Qed.

Lemma hermite_Fin (t y0 y1 h d0 d1 : num) (tq q0 q1 hq e0 e1 : Q) :
  t ≡ Fin tq -> y0 = Fin q0 -> y1 = Fin q1 -> h = Fin hq -> d0 = Fin e0 ->
  d1 = Fin e1 ->
  ((1 + 2 * t) * (1 - t) * (1 - t) * y0 + t * (1 - t) * (1 - t) * h * d0
   + t * t * (3 - 2 * t) * y1 + t * t * (t - 1) * h * d1)%num
  ≡ Fin (hermiteQ tq q0 q1 hq e0 e1).
Proof.
  intros Ht -> -> -> -> ->. rewrite Ht.
  rewrite ?mul_Fin, ?sub_Fin, ?add_Fin.
  rewrite ?mul_Fin, ?sub_Fin, ?add_Fin.
  rewrite ?mul_Fin, ?sub_Fin, ?add_Fin.
  rewrite ?mul_Fin, ?sub_Fin, ?add_Fin.
  reflexivity.
Qed.

Lemma idx_insert_eq (d : list num) (i : nat) (v : num) :
  (i < length d)%nat -> idx (<[i := v]> d) i = v.
Proof.
  intros H. unfold idx. rewrite list_lookup_insert_eq by exact H. reflexivity.
Qed.

Lemma idx_insert_ne (d : list num) (i j : nat) (v : num) :
  i <> j -> idx (<[i := v]> d) j = idx d j.
Proof.
  intros H. unfold idx. rewrite list_lookup_insert_ne by exact H. reflexivity.
Qed.

Section SplineKnots.

Variables xs ys : list Q.
Hypothesis Hlen : length ys = length xs.
Hypothesis Hsorted :
  forall i a b, xs !! i = Some a -> xs !! S i = Some b -> a < b.

Local Abbreviation n := (length xs).
Local Abbreviation xq i := (default 0 (xs !! i)).
Local Abbreviation yq i := (default 0 (ys !! i)).
Local Abbreviation hL :=
  (map (fun i => (idx (map Fin xs) (i + 1) - idx (map Fin xs) i)%num)
     (seq 0 (n - 1))).
Local Abbreviation deltaL :=
  (map (fun i => ((idx (map Fin ys) (i + 1) - idx (map Fin ys) i)
                  / idx hL i)%num) (seq 0 (n - 1))).

Lemma knot_x (i : nat) : (i < n)%nat -> idx (map Fin xs) i = Fin (xq i).
Proof.
  intros H. destruct (lookup_lt_is_Some_2 xs i H) as [q Hq].
  rewrite (idx_map_Fin _ _ _ Hq), Hq. reflexivity.
Qed.

Lemma knot_y (i : nat) : (i < n)%nat -> idx (map Fin ys) i = Fin (yq i).
Proof.
  intros H. rewrite <- Hlen in H.
  destruct (lookup_lt_is_Some_2 ys i H) as [q Hq].
  rewrite (idx_map_Fin _ _ _ Hq), Hq. reflexivity.
Qed.

Lemma knots_ascend (i j : nat) : (i < j)%nat -> (j < n)%nat -> xq i < xq j.
Proof.
  intros Hij Hj. induction j as [|j IH]; [lia|].
  assert (Hstep : xq j < xq (S j)).
  { destruct (lookup_lt_is_Some_2 xs j) as [a Ha]; [lia|].
    destruct (lookup_lt_is_Some_2 xs (S j) Hj) as [b Hb].
    rewrite Ha, Hb. exact (Hsorted j a b Ha Hb). }
  destruct (decide (i = j)) as [->|Hne]; [exact Hstep|].
  assert (xq i < xq j) by (apply IH; lia). lra.
Qed.

Lemma knot_h (i : nat) :
  (i < n - 1)%nat ->
  exists hq, idx hL i = Fin hq /\ 0 < hq /\ hq == xq (S i) - xq i.
Proof.
  intros H. rewrite idx_map_seq by exact H.
  rewrite !knot_x by lia. replace (i + 1)%nat with (S i) by lia.
  eexists. split; [reflexivity|].
  assert (Hlt : xq i < xq (S i)) by (apply knots_ascend; lia).
  assert (E : Qred (xq (S i) + - xq i) == xq (S i) - xq i)
    by (rewrite Qred_correct; reflexivity).
  split; [rewrite E; lra | exact E].
Qed.

Lemma knot_delta (i : nat) :
  (i < n - 1)%nat ->
  exists a, idx deltaL i = Fin a
            /\ a * (xq (S i) - xq i) == yq (S i) - yq i.
Proof.
  intros H. rewrite idx_map_seq by exact H.
  destruct (knot_h i H) as (hq & -> & Hpos & Eh).
  rewrite !knot_y by lia. replace (i + 1)%nat with (S i) by lia.
  destruct (equiv_Fin_inv
              ((Fin (yq (S i)) - Fin (yq i)) / Fin hq)%num
              ((yq (S i) - yq i) / hq)) as (a & -> & Ea).
  { rewrite sub_Fin, div_Fin by lra. reflexivity. }
  exists a. split; [reflexivity|]. rewrite Ea, <- Eh. field. lra.
Qed.

Lemma interior_derivative (i : nat) (a b : Q) :
  (1 <= i < n - 1)%nat ->
  idx deltaL (i - 1) = Fin a -> idx deltaL i = Fin b ->
  exists e,
    (if (idx deltaL (i - 1) * idx deltaL i <=? 0)%num then Fin 0
     else ((2 * idx hL i + idx hL (i - 1) + (idx hL i + 2 * idx hL (i - 1)))
           / ((2 * idx hL i + idx hL (i - 1)) / idx deltaL (i - 1)
              + (idx hL i + 2 * idx hL (i - 1)) / idx deltaL i))%num) = Fin e
    /\ within e a /\ within e b.
Proof.
  intros Hi Ea Eb. rewrite Ea, Eb.
  destruct (knot_h i) as (hi & -> & Hhi & _); [lia|].
  destruct (knot_h (i - 1)) as (hp & -> & Hhp & _); [lia|].
  destruct (Fin a * Fin b <=? 0)%num eqn:G.
  { exists 0. split; [reflexivity|]. split; apply within_zero. }
  assert (Hab : 0 < a * b).
  { destruct (Qlt_le_dec 0 (a * b)) as [L|L]; [exact L|].
    assert (G' : (Fin a * Fin b <=? 0)%num = true)
      by (rewrite mul_Fin; apply leb_Fin; exact L).
    congruence. }
  assert (Ha : ~ a == 0) by (intros E; rewrite E in Hab; lra).
  assert (Hb : ~ b == 0) by (intros E; rewrite E in Hab; lra).
  destruct (harmonic_within hi hp a b Hhi Hhp Hab) as [Wa Wb].
  match goal with |- exists e, ?v = Fin e /\ _ =>
    destruct (equiv_Fin_inv v
                ((2 * hi + hp + (hi + 2 * hp))
                 / ((2 * hi + hp) / a + (hi + 2 * hp) / b)))
      as (e & -> & Ee)
  end.
  { rewrite !mul_Fin, !add_Fin, !div_Fin, add_Fin, div_Fin;
      [reflexivity| |assumption|assumption].
    apply harmonic_denominator; lra. }
  exists e. split; [reflexivity|].
  split; eapply within_eq; try (symmetry; exact Ee); assumption.
Qed.

Lemma end_derivative (i j k l : nat) (a : Q) :
  (i < n - 1)%nat -> (j < n - 1)%nat -> (k < n - 1)%nat -> (l < n - 1)%nat ->
  idx deltaL k = Fin a ->
  exists e,
    clipEnd (((2 * idx hL i + idx hL j) * idx deltaL k
              - idx hL i * idx deltaL l) / (idx hL i + idx hL j))%num
      (idx deltaL k) = Fin e
    /\ within e a.
Proof.
  intros Hi Hj Hk Hl Ea. rewrite Ea.
  destruct (knot_h i Hi) as (hi & -> & Hhi & _).
  destruct (knot_h j Hj) as (hj & -> & Hhj & _).
  destruct (knot_delta l Hl) as (b & -> & _).
  match goal with |- exists e, clipEnd ?v _ = _ /\ _ =>
    destruct (isFinite_Fin v) as (z & ->)
  end.
  { apply (isFinite_div _ _ (hi + hj)); [reflexivity|apply add_Fin|lra]. }
  apply clipEnd_within.
Qed.

Lemma spline_fields (s : spline) :
  (2 <= n)%nat ->
  buildMonotoneSpline (map Fin xs) (map Fin ys) = Normal s ->
  sp_x s = map Fin xs /\ sp_y s = map Fin ys /\ sp_h s = hL
  /\ forall j, (j < n)%nat ->
       exists e, idx (sp_d s) j = Fin e
         /\ (forall a, (j < n - 1)%nat -> idx deltaL j = Fin a -> within e a)
         /\ (forall a, (1 <= j)%nat -> idx deltaL (j - 1) = Fin a ->
             within e a).
Proof.
  intros Hn. unfold buildMonotoneSpline. rewrite !length_map.
  destruct (Nat.eqb n 0) eqn:E0; [apply Nat.eqb_eq in E0; lia|].
  intros E. apply Normal_inj in E. subst s. cbn [sp_x sp_y sp_h sp_d].
  split; [reflexivity|]. split; [reflexivity|]. split; [reflexivity|].
  destruct (Nat.eqb n 2) eqn:E2.
  - apply Nat.eqb_eq in E2. intros j Hj.
    destruct (knot_delta 0) as (a & Ha & _); [lia|]. rewrite Ha.
    assert (Hl : length (replicate n NaN) = n) by apply length_replicate.
    exists a. split.
    + destruct (decide (j = 1%nat)) as [->|Hne].
      * rewrite idx_insert_eq; [reflexivity|]. rewrite length_insert. lia.
      * rewrite idx_insert_ne by congruence.
        assert (j = 0%nat) as -> by lia.
        rewrite idx_insert_eq; [reflexivity|lia].
    + split; intros a' Hj' Ea'.
      * assert (j = 0%nat) as -> by lia. rewrite Ha in Ea'.
        injection Ea' as <-. apply within_self.
      * assert (j = 1%nat) as -> by lia. cbn [Nat.sub] in Ea'.
        rewrite Ha in Ea'. injection Ea' as <-. apply within_self.
  - apply Nat.eqb_neq in E2.
    match goal with
    | |- forall j, _ -> exists e, idx (for_range _ _ ?b ?d0) j = _ /\ _ =>
      pose proof (for_range_ind
        (fun i d =>
           length d = n
           /\ forall j, (j < i \/ j = n - 1)%nat ->
                exists e, idx d j = Fin e
                  /\ (forall a, (j < n - 1)%nat -> idx deltaL j = Fin a ->
                      within e a)
                  /\ (forall a, (1 <= j)%nat -> idx deltaL (j - 1) = Fin a ->
                      within e a))
        1 (n - 1) b d0) as Hloop
    end.
    destruct Hloop as [_ Hfin].
    + lia.
    + split; [rewrite !length_insert; apply length_replicate|].
      intros j Hj.
      destruct (decide (j = n - 1)%nat) as [->|Hne].
      * rewrite idx_insert_eq
          by (rewrite length_insert, length_replicate; lia).
        destruct (knot_delta (n - 2)) as (a & Ea & _); [lia|].
        destruct (end_derivative (n - 2) (n - 3) (n - 2) (n - 3) a)
          as (e & Ee & We); [lia|lia|lia|lia|exact Ea|].
        exists e. split; [exact Ee|]. split; intros a' Hj' Ea'; [lia|].
        replace (n - 1 - 1)%nat with (n - 2)%nat in Ea' by lia.
        rewrite Ea in Ea'. injection Ea' as <-. exact We.
      * rewrite idx_insert_ne by congruence.
        assert (j = 0%nat) as -> by lia.
        rewrite idx_insert_eq by (rewrite length_replicate; lia).
        destruct (knot_delta 0) as (a & Ea & _); [lia|].
        destruct (end_derivative 0 1 0 1 a)
          as (e & Ee & We); [lia|lia|lia|lia|exact Ea|].
        exists e. split; [exact Ee|]. split; intros a' Hj' Ea'; [|lia].
        rewrite Ea in Ea'. injection Ea' as <-. exact We.
    + intros i d Hi [Hld Hd].
      destruct (knot_delta (i - 1)) as (a & Ea & _); [lia|].
      destruct (knot_delta i) as (b & Eb & _); [lia|].
      destruct (interior_derivative i a b Hi Ea Eb) as (e & Ee & Wa & Wb).
      assert (Hnew : forall v, v = Fin e ->
                length (<[i := v]> d) = n
                /\ forall j, (j < S i \/ j = n - 1)%nat ->
                     exists e0, idx (<[i := v]> d) j = Fin e0
                       /\ (forall a0, (j < n - 1)%nat ->
                           idx deltaL j = Fin a0 -> within e0 a0)
                       /\ (forall a0, (1 <= j)%nat ->
                           idx deltaL (j - 1) = Fin a0 -> within e0 a0)).
      { intros v ->. split; [rewrite length_insert; exact Hld|]. intros j Hj.
        destruct (decide (j = i)) as [->|Hne].
        - rewrite idx_insert_eq by lia. exists e. split; [reflexivity|].
          split; intros a0 Hj' Ea0.
          + rewrite Eb in Ea0. injection Ea0 as <-. exact Wb.
          + rewrite Ea in Ea0. injection Ea0 as <-. exact Wa.
        - rewrite idx_insert_ne by congruence. apply Hd. lia. }
      destruct (_ <=? _)%num; apply Hnew; exact Ee.
    + intros j Hj. apply Hfin. lia.
Qed.


Lemma splineSegment_locates (xp : Q) (fuel i : nat) :
  (i + fuel = n - 1)%nat -> xq i < xp -> xp < xq (n - 1)%nat ->
  exists r, splineSegment (map Fin xs) (Fin xp) i fuel = r
            /\ (r < n - 1)%nat /\ xq r < xp /\ xp <= xq (S r).
Proof.
  revert i. induction fuel as [|fuel IH]; intros i Hf Hlo Hhi.
  - replace (n - 1)%nat with i in Hhi by lia. lra.
  - cbn [splineSegment]. rewrite knot_x by lia.
    replace (i + 1)%nat with (S i) by lia.
    destruct (Fin xp >? Fin (xq (S i)))%num eqn:G.
    + apply gtb_Fin in G. apply IH; [lia|exact G|exact Hhi].
    + exists i. split; [reflexivity|]. split; [lia|]. split; [exact Hlo|].
      destruct (Qlt_le_dec (xq (S i)) xp) as [L|L]; [|exact L].
      apply gtb_Fin in L. congruence.
Qed.



Lemma spline_between (xp : Q) (s : spline) :
  (2 <= n)%nat ->
  buildMonotoneSpline (map Fin xs) (map Fin ys) = Normal s ->
  xq 0%nat <= xp <= xq (n - 1)%nat ->
  exists i v,
    (i < n - 1)%nat /\ xq i <= xp <= xq (S i)
    /\ evalMonotoneSpline s (Fin xp) ≡ Fin v
    /\ (yq i <= v <= yq (S i) \/ yq (S i) <= v <= yq i).
Proof.
  intros Hn Hs [Hlo Hhi].
  destruct (spline_fields s Hn Hs) as (Ex & Ey & Eh & Hd).
  assert (Hbetween : forall p q : Q, p <= p <= q \/ q <= p <= p)
    by (intros p q; destruct (Qlt_le_dec q p); [right|left]; split; lra).
  assert (Hbetween' : forall p q : Q, p <= q <= q \/ q <= q <= p)
    by (intros p q; destruct (Qlt_le_dec q p); [right|left]; split; lra).
  unfold evalMonotoneSpline. rewrite Ex, Ey, Eh, length_map.
  rewrite (knot_x 0) by lia.
  destruct (Fin xp <=? Fin (xq 0%nat))%num eqn:G0.
  { apply leb_Fin in G0. exists 0%nat, (yq 0%nat).
    split; [lia|]. split.
    - assert (xq 0%nat < xq 1%nat) by (apply knots_ascend; lia). lra.
    - split; [rewrite knot_y by lia; reflexivity|apply Hbetween]. }
  assert (Hlo' : xq 0%nat < xp).
  { destruct (Qlt_le_dec (xq 0%nat) xp) as [L|L]; [exact L|].
    apply leb_Fin in L. congruence. }
  rewrite (knot_x (n - 1)) by lia.
  destruct (Fin xp >=? Fin (xq (n - 1)%nat))%num eqn:G1.
  { apply geb_Fin in G1. exists (n - 2)%nat, (yq (n - 1)%nat).
    split; [lia|]. replace (S (n - 2)) with (n - 1)%nat by lia. split.
    - assert (xq (n - 2)%nat < xq (n - 1)%nat) by (apply knots_ascend; lia).
      lra.
    - split; [rewrite knot_y by lia; reflexivity|apply Hbetween']. }
  assert (Hhi' : xp < xq (n - 1)%nat).
  { destruct (Qlt_le_dec xp (xq (n - 1)%nat)) as [L|L]; [exact L|].
    apply geb_Fin in L. congruence. }
  destruct (splineSegment_locates xp (n - 1) 0) as (i & -> & Hi & Hxi & Hxi');
    [lia|exact Hlo'|exact Hhi'|].
  replace (i + 1)%nat with (S i) by lia.
  destruct (knot_h i Hi) as (hq & Eh' & Hpos & Ehq).
  destruct (knot_delta i Hi) as (a & Ea & Eda).
  destruct (Hd i ltac:(lia)) as (e0 & E0 & W0 & _).
  destruct (Hd (S i) ltac:(lia)) as (e1 & E1 & _ & W1).
  specialize (W0 a Hi Ea).
  specialize (W1 a ltac:(lia)).
  replace (S i - 1)%nat with i in W1 by lia. specialize (W1 Ea).
  exists i, (hermiteQ ((xp - xq i) / hq) (yq i) (yq (S i)) hq e0 e1).
  split; [exact Hi|]. split; [lra|]. split.
  - apply hermite_Fin;
      [|apply knot_y; lia|apply knot_y; lia|exact Eh'|exact E0|exact E1].
    rewrite Eh', knot_x, sub_Fin, div_Fin by (lia || lra). reflexivity.
  - apply (hermite_between _ _ _ _ a); [| exact Hpos | | exact W0 | exact W1].
    + split.
      * apply Qle_shift_div_l; lra.
      * apply Qle_shift_div_r; lra.
    + rewrite Ehq. exact Eda.
Qed.

End SplineKnots.



(** X24.  In exact arithmetic the monotone spline does not overshoot: for at
    least two data points of strictly increasing pressures, as many
    temperatures, and a pressure between the first and the last, the value
    is finite and lies between the temperatures of two neighbouring data
    points whose pressures enclose that pressure. *)
Theorem spline_stays_between_neighbours (xs ys : list Q) (xp x0 xl : Q) :
  length ys = length xs ->
  (forall i a b, xs !! i = Some a -> xs !! S i = Some b -> a < b) ->
  (2 <= length xs)%nat ->
  xs !! 0%nat = Some x0 -> xs !! (length xs - 1)%nat = Some xl ->
  x0 <= xp <= xl ->
  exists s i xi xj yi yj v,
    buildMonotoneSpline (map Fin xs) (map Fin ys) = Normal s
    /\ xs !! i = Some xi /\ xs !! S i = Some xj
    /\ ys !! i = Some yi /\ ys !! S i = Some yj
    /\ xi <= xp <= xj
    /\ evalMonotoneSpline s (Fin xp) ≡ Fin v
    /\ (yi <= v <= yj \/ yj <= v <= yi).
Proof.
  intros Hlen Hsorted Hn H0 Hl Hxp.
  destruct (buildMonotoneSpline_Normal (map Fin xs) (map Fin ys)) as [s Hs].
  { destruct xs; [discriminate|discriminate]. }
  destruct (spline_between xs ys Hlen Hsorted xp s Hn Hs)
    as (i & v & Hi & Hx & Hv & Hb).
  { rewrite H0, Hl. exact Hxp. }
  destruct (lookup_lt_is_Some_2 xs i) as [xi Exi]; [lia|].
  destruct (lookup_lt_is_Some_2 xs (S i)) as [xj Exj]; [lia|].
  destruct (lookup_lt_is_Some_2 ys i) as [yi Eyi]; [lia|].
  destruct (lookup_lt_is_Some_2 ys (S i)) as [yj Eyj]; [lia|].
  rewrite Exi, Exj in Hx. rewrite Eyi, Eyj in Hb.
  exists s, i, xi, xj, yi, yj, v. repeat split; try assumption; tauto.
Qed.

Lemma spline_stays_between_neighbours_witness :
  exists s i xi xj yi yj v,
    buildMonotoneSpline (map Fin [1; 2; 4; 5]) (map Fin [280; 284; 286; 291])
    = Normal s
    /\ [1; 2; 4; 5] !! i = Some xi /\ [1; 2; 4; 5] !! S i = Some xj
    /\ [280; 284; 286; 291] !! i = Some yi
    /\ [280; 284; 286; 291] !! S i = Some yj
    /\ xi <= 3 <= xj
    /\ evalMonotoneSpline s (Fin 3) ≡ Fin v
    /\ (yi <= v <= yj \/ yj <= v <= yi).
Proof.
  apply (spline_stays_between_neighbours [1; 2; 4; 5] [280; 284; 286; 291]
           3 1 5); try reflexivity.
  - intros [|[|[|[|i]]]] a b Ha Hb; cbn in Ha, Hb; try discriminate;
      injection Ha as <-; injection Hb as <-; reflexivity.
  - cbn. lia.
  - split; lra.
Defined.

End SplineFacts.

(** * The polynomial fit *)

Section PolynomialFacts.

Lemma evalPolynomial_loop (x : Q) (cs pre : list Q) (y xp : Q) :
  exists r xp',
    fold_left
      (fun (s : num * num) (i : nat) =>
         let '(y, xp) := s in
         ((y + idx (map Fin (pre ++ cs)) i * xp)%num, (xp * Fin x)%num))
      (seq (length pre) (length cs)) (Fin y, Fin xp) = (Fin r, Fin xp')
    /\ r == y + xp * polyQ cs x.
Proof.
  revert pre y xp. induction cs as [|c cs IH]; intros pre y xp.
  - exists y, xp. split; [reflexivity|]. cbn. ring.
  - cbn [length seq fold_left].
    assert (Ei : idx (map Fin (pre ++ c :: cs)) (length pre) = Fin c).
    { apply idx_map_Fin. rewrite lookup_app_r by lia.
      rewrite Nat.sub_diag. reflexivity. }
    rewrite Ei.
    destruct (equiv_Fin_inv _ _ (add_Fin y (Qred (c * xp)))) as (y1 & Ey1 &
        Hy1).
    destruct (equiv_Fin_inv _ _ (mul_Fin xp x)) as (xp1 & Exp1 & Hxp1).
    change (Fin c * Fin xp)%num with (Fin (Qred (c * xp))).
    rewrite Ey1, Exp1.
    replace (pre ++ c :: cs) with ((pre ++ [c]) ++ cs)
      by (rewrite <- app_assoc; reflexivity).
    replace (S (length pre)) with (length (pre ++ [c]))
      by (rewrite length_app; cbn; lia).
    destruct (IH (pre ++ [c]) y1 xp1) as (r & xp' & -> & Hr).
    exists r, xp'. split; [reflexivity|].
    rewrite Hr, Hy1, Hxp1, Qred_correct.
    change (polyQ (c :: cs) x) with (c + x * polyQ cs x). ring.
Qed.

(** X25.  In exact arithmetic, for finite coefficients and a finite [x],
    [evalPolynomial] computes the polynomial whose coefficients it is given,
    lowest degree first: its running power and sum give the value [c0 + x
    (c1 + x (c2 + ...))]. *)
Theorem evalPolynomial_value (cs : list Q) (x : Q) :
  evalPolynomial (map Fin cs) (Fin x) ≡ Fin (polyQ cs x).
Proof.
  unfold evalPolynomial, for_range. rewrite length_map, Nat.sub_0_r.
  destruct (evalPolynomial_loop x cs [] 0 1) as (r & xp' & E & Hr).
  cbn [length app] in E. rewrite E. cbn [fst].
  apply Fin_equiv. rewrite Hr. ring.
Qed.

Lemma fitPolynomial_single (x0 y0 : Q) :
  exists c, fitPolynomial [Fin x0] [Fin y0] 0 = Normal [Fin c] /\ c == y0.
Proof.
  assert (E : fitPolynomial [Fin x0] [Fin y0] 0
              = Normal [((Fin 0 + Fin y0 * Fin 1) / Fin 1)%num])
    by (vm_compute; reflexivity).
  rewrite E.
  destruct (equiv_Fin_inv ((Fin 0 + Fin y0 * Fin 1) / Fin 1)%num y0)
    as (c & -> & Hc).
  { rewrite mul_Fin, add_Fin, div_Fin by lra. apply Fin_equiv. field. }
  exists c. split; [reflexivity|exact Hc].
Qed.

(** X26.  A custom gas with a single (T, P) line has a constant
    reference curve: with no fit cached for it, [getT0AtPressure] returns
    that temperature at every finite pressure, by the polynomial and by the
    spline. *)
Theorem custom_single_point_constant (ui : page) (T P0 P : Q)
  (method : string) (st : caches) :
  customTPData ui = [(Fin T, Fin P0)] ->
  t0FitCache st !! "Custom"%string = None ->
  default ∅ (splineCache st) !! "Custom"%string = None ->
  exists t st',
    getT0AtPressure ui "Custom" (Fin P) method st = Normal (t, st')
    /\ t ≡ Fin T.
Proof.
  intros Hdata Hpoly Hspline. unfold getT0AtPressure, getGasObject.
  change (String.eqb "Custom" "Custom") with true. cbn iota.
  change (String.eqb "Custom" "CP") with false. cbn iota.
  unfold getCustomDataPoints. rewrite Hdata.
  change (filter _ [(Fin T, Fin P0)]) with [(Fin T, Fin P0)].
  cbn [data from_option id length Nat.eqb map fst snd].
  destruct (String.eqb _ "spline").
  - rewrite Hspline.
    change (buildMonotoneSpline [Fin P0] [Fin T])
      with (Normal {| sp_x := [Fin P0]; sp_y := [Fin T]; sp_h := [];
                      sp_d := [clipEnd NaN NaN] |}).
    cbn [bind]. eexists. eexists. split; [reflexivity|].
    unfold evalMonotoneSpline. cbn [sp_x sp_y length Nat.sub].
    change (idx [Fin P0] 0) with (Fin P0). change (idx [Fin T] 0) with (Fin T).
    destruct (Fin P <=? Fin P0)%num eqn:G0; [reflexivity|].
    destruct (Fin P >=? Fin P0)%num eqn:G1; [reflexivity|].
    exfalso. destruct (Qlt_le_dec P0 P) as [L|L].
    + assert (G : (Fin P >=? Fin P0)%num = true) by (apply geb_Fin; lra).
      congruence.
    + apply leb_Fin in L. congruence.
  - rewrite Hpoly.
    change (Z.min 3 (Z.of_nat 1 - 1)) with 0%Z.
    destruct (fitPolynomial_single P0 T) as (c & -> & Hc). cbn [bind].
    eexists. eexists. split; [reflexivity|].
    change (evalPolynomial [Fin c] (Fin P)) with (Fin 0 + Fin c * Fin 1)%num.
    rewrite mul_Fin, add_Fin. apply Fin_equiv. rewrite Hc. ring.
Qed.

Lemma custom_single_point_constant_witness :
  exists t st',
    getT0AtPressure (customPage [(Fin 285, Fin 3)]) "Custom" (Fin 7)
      "poly" noCaches = Normal (t, st')
    /\ t ≡ Fin 285.
Proof.
  apply (custom_single_point_constant (customPage [(Fin 285, Fin 3)])
           285 3 7 "poly" noCaches); reflexivity.
Defined.

End PolynomialFacts.

(** * The residual of the root finder *)

Section RootFinderResidual.

Lemma solve_f_sign (t m : Q) :
  (solve_f (Fin t) (Fin m) >? 0)%num = true <-> t < lnawQ m.
Proof. rewrite solve_f_Fin, gtb_Fin. split; intros; lra. Qed.

Lemma bisect_straddles (n : nat) (t lo hi : Q) :
  lo <= hi -> t < lnawQ lo -> lnawQ hi <= t ->
  exists lo' hi',
    bisect n (Fin t) (Fin lo, Fin hi) = (Fin lo', Fin hi')
    /\ lo <= lo' /\ lo' <= hi' /\ hi' <= hi
    /\ t < lnawQ lo' /\ lnawQ hi' <= t
    /\ hi' - lo' == halvings n (hi - lo).
Proof.
  revert lo hi. induction n as [|n IH]; intros lo hi Hle Hlo Hhi.
  - exists lo, hi. cbn. repeat split; try lra; reflexivity.
  - cbn [bisect]. rewrite bisectStep_Fin.
    pose proof (midQ_correct lo hi) as Hm.
    destruct (solve_f (Fin t) (Fin (midQ lo hi)) >? 0)%num eqn:Hsign.
    + apply solve_f_sign in Hsign.
      destruct (IH (midQ lo hi) hi) as (lo' & hi' & E & H1 & H2 & H3 & H4 & H5
          & H6);
        [lra|exact Hsign|exact Hhi|].
      exists lo', hi'. repeat split; try lra; try exact E.
      rewrite H6. cbn [halvings]. apply halvings_comp. rewrite Hm. field.
    + assert (Hge : lnawQ (midQ lo hi) <= t).
      { destruct (Qlt_le_dec t (lnawQ (midQ lo hi))) as [L|L]; [|exact L].
        apply solve_f_sign in L. congruence. }
      destruct (IH lo (midQ lo hi)) as (lo' & hi' & E & H1 & H2 & H3 & H4 & H5
          & H6);
        [lra|exact Hlo|exact Hge|].
      exists lo', hi'. repeat split; try lra; try exact E.
      rewrite H6. cbn [halvings]. apply halvings_comp. rewrite Hm. field.
Qed.

Lemma lnawQ_lipschitz (x y : Q) :
  0 <= x -> x <= y -> y <= 1 -> lnawQ x - lnawQ y <= 113 * (y - x).
Proof.
  intros H0 Hxy H1.
  assert (E : lnawQ x - lnawQ y
              == (y - x) * (- B1 - B2 * (x + y) - B3 * (x * x + x * y + y * y)))
    by (unfold lnawQ; ring).
  rewrite E. rewrite (Qmult_comm 113).
  apply Qmult_le_compat_nonneg.
  - split; lra.
  - split.
    + pose proof (lnawQ_slope x y). lra.
    + unfold B1, B2, B3.
      assert (0 <= x * x /\ x * x <= 1) by nra.
      assert (0 <= x * y /\ x * y <= 1) by nra.
      assert (0 <= y * y /\ y * y <= 1) by nra.
      lra.
Qed.

(** X27.  The residual of the root finder: for every target ln(aw)
    between the value of the correlation at X = 1 and zero, rational roots
    or not, [solveXFromLnaw] returns an X of (0, 1] whose ln(aw) is within
    1e-12 of the target. *)
Theorem solveXFromLnaw_residual (t : Q) :
  lnawQ 1 <= t -> t < 0 ->
  exists x,
    solveXFromLnaw (Fin t) = Fin x /\ 0 < x /\ x <= 1
    /\ Qabs (lnawQ x - t) <= 0.000000000001.
Proof.
  intros Hlow Hneg. unfold solveXFromLnaw.
  destruct (expandHigh_grid 8 0 (Fin t) 0.2) as (h & -> & Hl & Hu & Hexit);
    [reflexivity|reflexivity|].
  assert (Hh : lnawQ h <= t).
  { apply andb_false_iff in Hexit as [Hf|Hone].
    - destruct (Qlt_le_dec t (lnawQ h)) as [L|L]; [|exact L].
      apply solve_f_sign in L. congruence.
    - assert (1 <= h).
      { destruct (Qlt_le_dec h 1) as [L|L]; [|exact L].
        apply ltb_Fin in L. congruence. }
      pose proof (lnawQ_monotone 1 h). lra. }
  destruct (bisect_straddles 50 t 0 h) as (lo & hi & -> & L1 & L2 & L3 & L4 &
      L5 & L6);
    [lra|rewrite lnawQ_0; exact Hneg|exact Hh|].
  exists (midQ lo hi). split; [reflexivity|].
  pose proof (midQ_correct lo hi) as Hm.
  rewrite halvings_scale in L6.
  assert (Hs : halvings 50 1 <= 0.000000000000001 /\ 0 < halvings 50 1)
    by (split; [vm_compute; discriminate|vm_compute; reflexivity]).
  destruct Hs as [Hs1 Hs0].
  assert (Hw : (h - 0) * halvings 50 1 <= 1 * 0.000000000000001).
  { apply Qmult_le_compat_nonneg; split; lra. }
  assert (Hw0 : 0 < (h - 0) * halvings 50 1)
    by (apply Qmult_lt_0_compat; lra).
  assert (Hmid : lo < midQ lo hi /\ midQ lo hi < hi) by (split; lra).
  destruct Hmid as [M1 M2].
  pose proof (lnawQ_decreasing _ _ M1) as D1.
  pose proof (lnawQ_decreasing _ _ M2) as D2.
  pose proof (lnawQ_lipschitz lo hi L1 ltac:(lra) ltac:(lra)) as Lip.
  split; [lra|]. split; [lra|].
  apply Qabs_Qle_condition. split; lra.
Qed.

Lemma solveXFromLnaw_residual_witness :
  lnawQ 1 <= -0.05 /\ -0.05 < 0
  /\ exists x,
       solveXFromLnaw (Fin (-0.05)) = Fin x /\ 0 < x /\ x <= 1
       /\ Qabs (lnawQ x - -0.05) <= 0.000000000001.
Proof.
  split; [vm_compute; discriminate|]. split; [reflexivity|].
  apply (solveXFromLnaw_residual (-0.05)); [vm_compute;
      discriminate|reflexivity].
Defined.

End RootFinderResidual.

(** * The inverse equilibrium shift *)

Section EquilibriumShiftOrder.

Lemma lnawFromDelta_simpl (beta dT T0 : Q) :
  beta < 0 -> 0 < T0 -> dT < T0 ->
  0 < - beta * T0 * (T0 - dT)
  /\ dT / (beta * T0 * (T0 - dT)) == - dT / (- beta * T0 * (T0 - dT)).
Proof.
  intros Hb HT Hd.
  assert (P : 0 < - beta * T0 * (T0 - dT))
    by (repeat apply Qmult_lt_0_compat; lra).
  split; [exact P|]. field. repeat split; lra.
Qed.

(** X28.  In exact arithmetic, for a negative [beta], a positive [T0] and
    supercoolings [0 <= d1 < d2 < T0], [computeLnawFromDelta] returns finite
    values [l1] and [l2] with [l2 < l1 <= 0]: never positive, and strictly
    lower for the larger supercooling. *)
Theorem computeLnawFromDelta_range_and_order (beta T0 d1 d2 : Q) :
  beta < 0 -> 0 < T0 -> 0 <= d1 -> d1 < d2 -> d2 < T0 ->
  exists l1 l2,
    computeLnawFromDelta (Fin beta) (Fin d1) (Fin T0) = Fin l1
    /\ computeLnawFromDelta (Fin beta) (Fin d2) (Fin T0) = Fin l2
    /\ l2 < l1 /\ l1 <= 0.
Proof.
  intros Hb HT H0 Hlt H1.
  destruct (lnawFromDelta_simpl beta d1 T0) as [P1 S1]; try lra.
  destruct (lnawFromDelta_simpl beta d2 T0) as [P2 S2]; try lra.
  assert (N : forall d, 0 < - beta * T0 * (T0 - d) ->
                        ~ beta * T0 * (T0 - d) == 0).
  { intros d P E.
    assert (H : - beta * T0 * (T0 - d) == - (beta * T0 * (T0 - d))) by ring.
    rewrite E in H. lra. }
  pose proof (N d1 P1) as N1. pose proof (N d2 P2) as N2.
  destruct (equiv_Fin_inv _ _ (computeLnawFromDelta_Fin beta d1 T0 N1))
    as (l1 & E1 & Hl1).
  destruct (equiv_Fin_inv _ _ (computeLnawFromDelta_Fin beta d2 T0 N2))
    as (l2 & E2 & Hl2).
  exists l1, l2. split; [exact E1|]. split; [exact E2|].
  rewrite Hl1, Hl2, S1, S2. split.
  - apply Qfrac_lt; [exact P2|exact P1|].
    assert (E : - d1 * (- beta * T0 * (T0 - d2))
                - - d2 * (- beta * T0 * (T0 - d1))
                == - beta * T0 * (T0 * (d2 - d1))) by ring.
    assert (0 < - beta * T0 * (T0 * (d2 - d1)))
      by (repeat apply Qmult_lt_0_compat; lra).
    lra.
  - apply Qle_shift_div_r; [exact P1|]. lra.
Qed.

Lemma computeLnawFromDelta_range_and_order_witness :
  exists l1 l2,
    computeLnawFromDelta (Fin (-0.0012426)) (Fin 0) (Fin 280.15) = Fin l1
    /\ computeLnawFromDelta (Fin (-0.0012426)) (Fin 10) (Fin 280.15) = Fin l2
    /\ l2 < l1 /\ l1 <= 0.
Proof.
  apply (computeLnawFromDelta_range_and_order (-0.0012426) 280.15 0 10); lra.
Defined.

End EquilibriumShiftOrder.

(** * The first step of a sweep *)

Section SweepStart.

Lemma computeLnawFromDelta_undoes (beta l T0 : Q) :
  beta < 0 -> 0 < T0 -> l <= 0 ->
  exists d,
    computeDeltaT (Fin beta) (Fin l) (Fin T0) ≡ Fin d
    /\ 0 <= d /\ d < T0
    /\ computeLnawFromDelta (Fin beta) (Fin d) (Fin T0) ≡ Fin l.
Proof.
  intros Hb HT Hl.
  assert (Ha : 0 <= beta * l) by nra.
  assert (H1 : 0 < 1 + beta * l * T0) by nra.
  destruct (deltaT_bounds (beta * l) T0 Ha HT) as [D0 D1].
  exists (beta * l * T0 * T0 / (1 + beta * l * T0)).
  split; [apply computeDeltaT_Fin; lra|]. split; [exact D0|].
  split; [exact D1|].
  set (d := beta * l * T0 * T0 / (1 + beta * l * T0)) in *.
  assert (E : d * (1 + beta * l * T0) == beta * l * T0 * T0)
    by (unfold d; field; lra).
  assert (P : 0 < - beta * T0 * (T0 - d))
    by (repeat apply Qmult_lt_0_compat; lra).
  assert (N : ~ beta * T0 * (T0 - d) == 0).
  { intros Z.
    assert (H : - beta * T0 * (T0 - d) == - (beta * T0 * (T0 - d))) by ring.
    rewrite Z in H. lra. }
  rewrite computeLnawFromDelta_Fin by exact N. apply Fin_equiv.
  assert (E' : d == l * (beta * T0 * (T0 - d))) by lra.
  rewrite E' at 1. apply Qdiv_mult_l. exact N.
Qed.

(** X29.  In exact arithmetic, for a salt of the catalog, a negative [beta],
    a positive [T0], an initial salinity whose X lies in (0, 1] and a finite
    upper bound of the range, a sweep whose extra supercooling starts at 0
    keeps its first step; that step has zero extra supercooling, the ln(aw)
    of the initial salinity, and an X within 1e-12 of the X of the initial
    salinity. *)
Theorem sweep_starts_at_initial_state (beta T0 s dTmax x : Q)
  (saltKey : string) (e : sweepEnv) :
  saltKey ∈ dom saltProps -> beta < 0 -> 0 < T0 ->
  computeXFromSalinity (Fin s) saltKey = Normal (Fin x) -> 0 < x -> x <= 1 ->
  sweepEnvOf (Fin beta) (Fin T0) saltKey (Fin s) (Fin 0) (Fin dTmax)
  = Normal e ->
  exists p xm,
    sweepStep e 0 = Normal (Some p)
    /\ p_dT_extra p ≡ Fin 0
    /\ p_lnawMas p ≡ computeLnawFromX (Fin x)
    /\ p_X_mas p = Fin xm /\ Qabs (xm - x) <= 0.000000000001.
Proof.
  intros Hin Hb HT Hx Hx0 Hx1 He.
  apply elem_of_dom in Hin as [props Hp].
  assert (Hl : lnawQ x < 0)
    by (pose proof (lnawQ_decreasing 0 x Hx0) as D; rewrite lnawQ_0 in D;
        exact D).
  destruct (computeLnawFromDelta_undoes beta (lnawQ x) T0 Hb HT ltac:(lra))
    as (d & Ed & Hd0 & Hd1 & Einv).
  assert (Hfields :
    e_beta e = Fin beta /\ e_T0_op e = Fin T0 /\ e_saltKey e = saltKey
    /\ e_dT_init_op e
       = computeDeltaT (Fin beta) (computeLnawFromX (Fin x)) (Fin T0)
    /\ e_dTmin e = Fin 0
    /\ e_step e = ((Fin dTmax - Fin 0) / (ofNat nPoints - 1))%num).
  { revert He. unfold sweepEnvOf. rewrite Hx. cbn [bind].
    intros E. apply Normal_inj in E. subst e. cbn. repeat split. }
  destruct Hfields as (Fb & Ft & Fk & Fd & Fm & Fs).
  assert (Hextra : (e_dTmin e + e_step e * ofNat 0)%num ≡ Fin 0).
  { rewrite Fm, Fs.
    change (ofNat nPoints - 1)%num with (Fin 49).
    change (ofNat 0) with (Fin 0).
    rewrite sub_Fin, div_Fin, mul_Fin, add_Fin by lra.
    apply Fin_equiv. ring. }
  assert (Htotal : stepTotal e 0 ≡ Fin d).
  { unfold stepTotal. rewrite Hextra, Fd, computeLnawFromX_Fin, Ed, add_Fin.
    apply Fin_equiv. ring. }
  assert (Hlnaw : stepLnaw e 0 ≡ Fin (lnawQ x)).
  { unfold stepLnaw. rewrite Fb, Ft, Htotal. exact Einv. }
  destruct (expandHigh_covers _ x Hlnaw ltac:(lra) Hx1) as (h & Eh & Hh1 & Hh2).
  destruct (bisect_bracket 50 _ x 0 h Hlnaw) as (lo & hi & Eb & L1 & L2 & L3);
    [lra|lra|].
  destruct (bisect_range 50 (stepLnaw e 0) 0 h) as (lo' & hi' & Eb' & R1 & R2
      & R3 & _);
    [lra|].
  rewrite Eb in Eb'. injection Eb' as <- <-.
  pose proof (midQ_correct lo hi) as Hm.
  rewrite halvings_scale in L3.
  assert (Hs : halvings 50 1 <= 0.000000000001 /\ 0 < halvings 50 1)
    by (split; [vm_compute; discriminate|vm_compute; reflexivity]).
  destruct Hs as [Hs1 Hs0].
  assert (Hw : (h - 0) * halvings 50 1 <= 1 * 0.000000000001).
  { apply Qmult_le_compat_nonneg; split; lra. }
  assert (Hw0 : 0 < (h - 0) * halvings 50 1)
    by (apply Qmult_lt_0_compat; lra).
  assert (Esolve : solveXFromLnaw (stepLnaw e 0) = Fin (midQ lo hi)).
  { unfold solveXFromLnaw. rewrite Eh, Eb. reflexivity. }
  assert (Hxm0 : 0 < midQ lo hi) by lra.
  assert (Hxm1 : midQ lo hi < 1) by lra.
  assert (Hmas : exists m, stepMas e 0 = Normal (Fin m) /\ 0 < m).
  { unfold stepMas, computeSalinityFromX. rewrite Esolve, Fk.
    rewrite (destructureSalt_own _ _ Hp). cbn [bind].
    assert (G2 : forall M : Q, 0 < M ->
              exists m,
                ((Fin M * Fin (midQ lo hi) * 100) /
                 ((2 - 2 * Fin (midQ lo hi)) * Fin WATER_MOLAR_MASS
                  + Fin M * Fin (midQ lo hi)))%num = Fin m /\ 0 < m).
    { intros M HM.
      destruct (equiv_Fin_inv _ _ (salinityFromX2_Fin M (midQ lo hi) HM Hxm0
          Hxm1))
        as (m & -> & Hm'). exists m. split; [reflexivity|]. rewrite Hm'.
      assert (HW : 0 < WATER_MOLAR_MASS) by reflexivity.
      apply Qlt_shift_div_l; nra. }
    assert (G3 : forall M : Q, 0 < M ->
              exists m,
                ((Fin M * Fin (midQ lo hi) * 100) /
                 ((4 - 3 * Fin (midQ lo hi)) * Fin WATER_MOLAR_MASS
                  + Fin M * Fin (midQ lo hi)))%num = Fin m /\ 0 < m).
    { intros M HM.
      destruct (equiv_Fin_inv _ _ (salinityFromX3_Fin M (midQ lo hi) HM Hxm0
          ltac:(lra)))
        as (m & -> & Hm'). exists m. split; [reflexivity|]. rewrite Hm'.
      assert (HW : 0 < WATER_MOLAR_MASS) by reflexivity.
      apply Qlt_shift_div_l; nra. }
    destruct (saltProps_cases _ _ Hp) as [[-> ->]|[[-> ->]|[-> ->]]];
      cbn [String.eqb Ascii.eqb Bool.eqb molarMass].
    - destruct (G2 58.44) as (m & -> & Hm0); [lra|]. eauto.
    - destruct (G2 74.55) as (m & -> & Hm0); [lra|]. eauto.
    - destruct (G3 95.21) as (m & -> & Hm0); [lra|]. eauto. }
  destruct Hmas as (m & Emas & Hm0).
  assert (Hfeas : feasible e 0 = true).
  { unfold feasible. rewrite Emas, Ft, Htotal, Hlnaw.
    assert (G1 : (Fin d <? Fin T0)%num = true) by (apply ltb_Fin; exact Hd1).
    assert (G2 : (Fin (lnawQ x) <? 0)%num = true) by (apply ltb_Fin; exact Hl).
    assert (G3 : (Fin m >? 0)%num = true) by (apply gtb_Fin; exact Hm0).
    rewrite G1, G2, G3. reflexivity. }
  apply sweepStep_emits_iff in Hfeas as [p Hstep].
  destruct (sweepStep_inv e 0 p Hstep) as (mas & _ & _ & _ & Pex & Pl & PX & _).
  exists p, (midQ lo hi). split; [exact Hstep|].
  split; [rewrite Pex; exact Hextra|].
  split; [rewrite Pl, Hlnaw, computeLnawFromX_Fin; reflexivity|].
  split; [rewrite PX; exact Esolve|].
  apply Qabs_Qle_condition. split; lra.
Qed.

Lemma sweep_starts_at_initial_state_witness :
  exists x e,
    computeXFromSalinity (Fin 8) "NaCl" = Normal (Fin x)
    /\ sweepEnvOf (Fin (-0.0012426)) (Fin 280.15) "NaCl" (Fin 8) (Fin 0)
         (Fin 5) = Normal e
    /\ exists p xm,
         sweepStep e 0 = Normal (Some p)
         /\ p_dT_extra p ≡ Fin 0
         /\ p_lnawMas p ≡ computeLnawFromX (Fin x)
         /\ p_X_mas p = Fin xm /\ Qabs (xm - x) <= 0.000000000001.
Proof.
  eexists. eexists. split; [vm_compute; reflexivity|].
  split; [vm_compute; reflexivity|].
  match goal with |- exists p xm, sweepStep ?E _ = _ /\ _ => set (e0 := E) end.
  apply (sweep_starts_at_initial_state (-0.0012426) 280.15 8 5 _ "NaCl" e0).
  - apply elem_of_dom. eexists. reflexivity.
  - lra.
  - lra.
  - vm_compute. reflexivity.
  - vm_compute. reflexivity.
  - vm_compute. discriminate.
  - vm_compute. reflexivity.
Defined.

End SweepStart.

(** * The two engines on the same supercooling *)

Section EnginesAgree.

Lemma add_canonical (x y : num) (d : Q) :
  (x + y)%num = Fin d -> Qred d = d.
Proof.
  destruct x as [a| | |], y as [b| | |]; try discriminate.
  intros [= <-]. apply Qred_complete, Qred_correct.
Qed.

Lemma max0_canonical (v : num) (d : Q) :
  (forall q, v = Fin q -> Qred q = q) -> max 0 v = Fin d -> Qred d = d.
Proof.
  intros Hv. destruct v as [q| | |]; unfold max.
  - destruct (Fin 0 <? Fin q)%num.
    + intros [= <-]. apply Hv. reflexivity.
    + intros [= <-]. reflexivity.
  - change (Fin 0 <? PInf)%num with true. discriminate.
  - change (Fin 0 <? NInf)%num with false. intros [= <-]. reflexivity.
  - discriminate.
Qed.

Lemma canonical_eq (a b : Q) : Qred a = a -> Qred b = b -> a == b -> a = b.
Proof. intros Ha Hb E. rewrite <- Ha, <- Hb. apply Qred_complete, E. Qed.

(** X30.  The two engines on the same supercooling.  Take a heat-map cell
    whose total supercooling equals that of an emitted step of the 1-D
    sweep, at the same operating point.  When that supercooling is at
    least the initial supercooling of the cell's row, the cell carries the
    step's MAS; otherwise the cell is blank and carries the initial
    salinity of its row (the sweep does emit such steps, of negative extra
    supercooling). *)
Theorem heatmap_mas_agrees_with_sweep (e : sweepEnv) (i : nat)
  (p : sweepPoint) (masMinNorm range sInit dT_init_op Tform : num)
  (c : heatCell) :
  sweepStep e i = Normal (Some p) ->
  heatmapCell (e_beta e) (e_T0_op e) (e_saltKey e) masMinNorm range sInit
    dT_init_op Tform = Normal c ->
  max 0 (e_T0_op e - Tform)%num ≡ stepTotal e i ->
  c_mas c
  = if (stepTotal e i >=? dT_init_op)%num then p_mas p else sInit.
Proof.
  intros Hstep Hcell Htot.
  destruct (emitted_step_finite e i p Hstep)
    as (b & d & t & m & Eb & Ed & Et & Hden & Hdt & Em & Hm).
  assert (Etot : max 0 (e_T0_op e - Tform)%num = stepTotal e i).
  { rewrite Ed in Htot |- *.
    destruct (equiv_Fin_inv _ _ Htot) as (d' & Ed' & Hd').
    rewrite Ed'. f_equal. apply canonical_eq; [| |exact Hd'].
    - apply (max0_canonical (e_T0_op e - Tform)%num); [|exact Ed'].
      intros q. apply add_canonical.
    - apply (add_canonical _ _ _ Ed). }
  destruct (stepTotal e i >=? dT_init_op)%num eqn:Hinit.
  2:{ revert Hcell. unfold heatmapCell. rewrite Etot, Hinit.
      cbn [andb bind]. intros E. apply Normal_inj in E. subst c.
      reflexivity. }
  assert (Hfeas : feasible e i = true)
    by (apply sweepStep_emits_iff; eauto).
  destruct (sweepStep_inv e i p Hstep) as (mas & Emas & Pm & _).
  unfold feasible in Hfeas. rewrite Emas in Hfeas.
  apply andb_prop in Hfeas as [Hfeas G5].
  apply andb_prop in Hfeas as [Hfeas G4].
  apply andb_prop in Hfeas as [Hfeas G3].
  apply andb_prop in Hfeas as [G1 G2].
  unfold stepMas, stepLnaw in *.
  destruct (heatmapCell_active (e_beta e) (e_T0_op e) masMinNorm range sInit
              dT_init_op Tform mas (e_saltKey e) c) as [Ec _];
    try (rewrite Etot; assumption); [exact G4|exact G5|exact Hcell|].
  rewrite Ec, Pm. reflexivity.
Qed.

Lemma heatmap_mas_agrees_with_sweep_witness :
  exists e p c,
    sweepEnvOf (Fin (-0.0012426)) (Fin 280.15) "NaCl" (Fin 8) 0.5 5 = Normal e
    /\ sweepStep e 49 = Normal (Some p)
    /\ heatmapCell (e_beta e) (e_T0_op e) (e_saltKey e) 0 1 (Fin 8)
         (e_dT_init_op e) (e_T0_op e - stepTotal e 49)%num = Normal c
    /\ c_mas c
       = if (stepTotal e 49 >=? e_dT_init_op e)%num then p_mas p
         else Fin 8.
Proof.
  eexists. eexists. eexists. split; [vm_compute; reflexivity|].
  match goal with |- sweepStep ?E _ = _ /\ _ => set (e0 := E) end.
  split; [vm_compute; reflexivity|].
  split; [vm_compute; reflexivity|].
  match goal with
  | |- c_mas ?C = if _ then p_mas ?P else _ => set (c0 := C); set (p0 := P)
  end.
  apply (heatmap_mas_agrees_with_sweep e0 49%nat p0 0 1 (Fin 8)
           (e_dT_init_op e0) (e_T0_op e0 - stepTotal e0 49)%num c0).
  - vm_compute. reflexivity.
  - vm_compute. reflexivity.
  - vm_compute. reflexivity.
Defined.

End EnginesAgree.

(** * The engine in binary64: what rounding keeps *)

Section Binary64.

Lemma forallbFrom_spec (P : Z -> bool) (n : nat) (lo k : Z) :
  forallbFrom P lo n = true -> (lo <= k < lo + Z.of_nat n)%Z -> P k = true.
Proof.
  revert lo. induction n as [|n IH]; intros lo H Hk; [lia|].
  cbn [forallbFrom] in H. apply andb_prop in H as [H0 H].
  destruct (Z.eq_dec k lo) as [->|Hne]; [exact H0|].
  apply (IH (lo + 1)%Z H). lia.
Qed.

Lemma F64_saltProps_keys (saltKey : string) :
  saltKey ∈ dom F64.saltProps ->
  saltKey = "NaCl"%string \/ saltKey = "KCl"%string
  \/ saltKey = "MgCl2"%string.
Proof.
  intros Hin. apply elem_of_dom in Hin as [p Hp]. unfold F64.saltProps in Hp.
  apply lookup_insert_Some in Hp as [[<- _]|[_ Hp]]; [tauto|].
  apply lookup_insert_Some in Hp as [[<- _]|[_ Hp]]; [tauto|].
  apply lookup_insert_Some in Hp as [[<- _]|[_ Hp]]; [tauto|].
  rewrite lookup_empty in Hp. discriminate.
Qed.

(** ** The expansion loop of the root finder *)

Lemma F64_expandHigh_stops (fuel : nat) (t h : float) :
  (h <? 1)%float = false -> F64.expandHigh fuel t h = h.
Proof.
  intros H. destruct fuel as [|fuel]; [reflexivity|].
  cbn [F64.expandHigh]. rewrite H, andb_false_r. reflexivity.
Qed.

Ltac expand_pass :=
  cbn [F64.expandHigh];
  match goal with
  | |- context [((0 <? F64.solve_f ?t ?h)%float && (?h <? 1)%float)] =>
      let b := eval vm_compute in (h <? 1)%float in
      change (h <? 1)%float with b;
      destruct (0 <? F64.solve_f t h)%float; cbn [andb]; [|reflexivity]
  end.

(** Whatever the target, the loop leaves by its own test within nine
    passes: more fuel changes nothing. *)
Lemma F64_expandHigh_fuel (extra : nat) (t : float) :
  F64.expandHigh (9 + extra) t 0.2%float = F64.expandHigh 9 t 0.2%float.
Proof.
  cbn [Nat.add]. do 9 expand_pass.
  cbn [F64.expandHigh]. apply F64_expandHigh_stops. vm_compute. reflexivity.
Qed.

(** Where the two embeddings part: for a target below every value of the
    correlation the binary64 loop makes its ninth pass and the result
    lies above 1, where exact arithmetic stops the loop at 1. *)
Lemma solveXFromLnaw_ninth_pass :
  F64.expandHigh 9 neg_infinity 0.2%float = 1.0999999999999999%float
  /\ F64.solveXFromLnaw neg_infinity = 1.0999999999999992%float
  /\ expandHigh 8 NInf (Fin 0.2) = Fin 1.
Proof. repeat split; vm_compute; reflexivity. Qed.

(** ** The salinity round trip *)

Lemma roundTripWithin_spec (saltKey : string) (s : float) :
  F64.roundTripWithin saltKey s = true ->
  exists r sq rq,
    F64.roundTrip s saltKey = Normal r
    /\ F64.toQ s = Some sq /\ 0 < sq /\ sq < 100
    /\ F64.toQ r = Some rq
    /\ Qabs (rq - sq) <= 1e-9 * Qabs sq /\ Qabs (rq - sq) <= 1e-6.
Proof.
  unfold F64.roundTripWithin.
  destruct (F64.roundTrip s saltKey) as [r|e]; [|discriminate].
  destruct (F64.toQ s) as [sq|] eqn:Es; [|discriminate].
  destruct (F64.toQ r) as [rq|] eqn:Er; [|discriminate].
  intros H. apply andb_prop in H as [H H4]. apply andb_prop in H as [H H3].
  apply andb_prop in H as [H1 H2].
  apply negb_true_iff in H1, H2.
  exists r, sq, rq. split; [reflexivity|]. split; [reflexivity|].
  split.
  { apply Qnot_le_lt. intros L. apply Qle_bool_iff in L. congruence. }
  split.
  { apply Qnot_le_lt. intros L. apply Qle_bool_iff in L. congruence. }
  split; [exact Er|]. split; apply Qle_bool_iff; assumption.
Qed.

Lemma salinity_roundtrip_sampled (saltKey : string) (k : Z) :
  saltKey ∈ dom F64.saltProps -> (0 < k < 10000)%Z ->
  F64.roundTripWithin saltKey (salinityGrid k) = true.
Proof.
  intros Hin Hk. apply F64_saltProps_keys in Hin.
  apply (forallbFrom_spec
           (fun k => F64.roundTripWithin saltKey (salinityGrid k))
           (Z.to_nat 9999) 1); [|rewrite Z2Nat.id; lia].
  clear Hk. destruct Hin as [->|[->| ->]]; vm_compute; reflexivity.
Qed.

Lemma salinity_roundtrip_scaled (saltKey : string) (k : Z) :
  saltKey ∈ dom F64.saltProps -> (1 <= k <= 1000)%Z ->
  F64.roundTripWithin saltKey (salinityScale k) = true.
Proof.
  intros Hin Hk. apply F64_saltProps_keys in Hin.
  apply (forallbFrom_spec
           (fun k => F64.roundTripWithin saltKey (salinityScale k))
           (Z.to_nat 1000) 1); [|rewrite Z2Nat.id; lia].
  clear Hk. destruct Hin as [->|[->| ->]]; vm_compute; reflexivity.
Qed.

(** C3, as the code has it.  In exact arithmetic the round trip
    [computeSalinityFromX(computeXFromSalinity(s, salt), salt)] returns
    [s] itself for every salt of the catalog and every salinity in
    (0, 100), so both tolerances hold.  In binary64 it is within 1e-9
    relative and 1e-6 absolute error of [s] for every salt of the catalog at
    every sampled salinity [k / 100], [0 < k < 10000], and at every
    salinity [100 / 2^k], [1 <= k <= 1000]. *)
Theorem salinity_roundtrip_exact_and_sampled :
  (forall (saltKey : string) (s : Q),
      saltKey ∈ dom saltProps -> 0 < s -> s < 100 ->
      exists X r,
        computeXFromSalinity (Fin s) saltKey = Normal X
        /\ computeSalinityFromX X saltKey = Normal (Fin r)
        /\ r == s
        /\ Qabs (r - s) <= 1e-9 * Qabs s
        /\ Qabs (r - s) <= 1e-6)
  /\ (forall (saltKey : string) (k : Z),
        saltKey ∈ dom F64.saltProps -> (0 < k < 10000)%Z ->
        exists r sq rq,
          F64.roundTrip (salinityGrid k) saltKey = Normal r
          /\ F64.toQ (salinityGrid k) = Some sq /\ 0 < sq /\ sq < 100
          /\ F64.toQ r = Some rq
          /\ Qabs (rq - sq) <= 1e-9 * Qabs sq
          /\ Qabs (rq - sq) <= 1e-6)
  /\ (forall (saltKey : string) (k : Z),
        saltKey ∈ dom F64.saltProps -> (1 <= k <= 1000)%Z ->
        exists r sq rq,
          F64.roundTrip (salinityScale k) saltKey = Normal r
          /\ F64.toQ (salinityScale k) = Some sq /\ 0 < sq /\ sq < 100
          /\ F64.toQ r = Some rq
          /\ Qabs (rq - sq) <= 1e-9 * Qabs sq
          /\ Qabs (rq - sq) <= 1e-6).
Proof.
  split; [|split].
  - exact salinity_roundtrip.
  - intros saltKey k Hin Hk.
    apply roundTripWithin_spec, salinity_roundtrip_sampled; assumption.
  - intros saltKey k Hin Hk.
    apply roundTripWithin_spec, salinity_roundtrip_scaled; assumption.
Qed.

Lemma salinity_roundtrip_exact_and_sampled_witness :
  (exists X r,
      computeXFromSalinity (Fin 8) "NaCl" = Normal X
      /\ computeSalinityFromX X "NaCl" = Normal (Fin r)
      /\ r == 8
      /\ Qabs (r - 8) <= 1e-9 * Qabs 8
      /\ Qabs (r - 8) <= 1e-6)
  /\ (exists r sq rq,
        F64.roundTrip (salinityGrid 3550) "MgCl2" = Normal r
        /\ F64.toQ (salinityGrid 3550) = Some sq /\ 0 < sq /\ sq < 100
        /\ F64.toQ r = Some rq
        /\ Qabs (rq - sq) <= 1e-9 * Qabs sq
        /\ Qabs (rq - sq) <= 1e-6)
  /\ (exists r sq rq,
        F64.roundTrip (salinityScale 900) "KCl" = Normal r
        /\ F64.toQ (salinityScale 900) = Some sq /\ 0 < sq /\ sq < 100
        /\ F64.toQ r = Some rq
        /\ Qabs (rq - sq) <= 1e-9 * Qabs sq
        /\ Qabs (rq - sq) <= 1e-6).
Proof.
  split; [|split].
  - apply (proj1 salinity_roundtrip_exact_and_sampled "NaCl" 8);
      [apply elem_of_dom; eexists; reflexivity | lra | lra].
  - apply (proj1 (proj2 salinity_roundtrip_exact_and_sampled) "MgCl2" 3550%Z);
      [apply elem_of_dom; eexists; reflexivity | lia].
  - apply (proj2 (proj2 salinity_roundtrip_exact_and_sampled) "KCl" 900%Z);
      [apply elem_of_dom; eexists; reflexivity | lia].
Defined.

(** C3 as stated fails in binary64.  The smallest positive double,
    2^-1074, is a salinity of (0, 100); for NaCl its X underflows to 0 and
    the round trip returns 0: a relative error of 1, not of 1e-9. *)
Lemma salinity_roundtrip_binary64_counterexample :
  exists sq,
    F64.toQ 0x1p-1074%float = Some sq /\ 0 < sq /\ sq < 100
    /\ F64.computeXFromSalinity 0x1p-1074%float "NaCl" = Normal 0%float
    /\ F64.roundTrip 0x1p-1074%float "NaCl" = Normal 0%float
    /\ F64.toQ 0%float = Some 0
    /\ ~ Qabs (0 - sq) <= 1e-9 * Qabs sq.
Proof.
  eexists. split; [vm_compute; reflexivity|].
  split; [reflexivity|]. split; [reflexivity|].
  split; [vm_compute; reflexivity|]. split; [vm_compute; reflexivity|].
  split; [reflexivity|].
  vm_compute. intros H. apply H. reflexivity.
Qed.

(** ** The activity correlation *)

Lemma lnawDrops_spec (x1 x2 : float) :
  F64.lnawDrops x1 x2 = true ->
  exists a b,
    F64.toQ (F64.computeLnawFromX x1) = Some a
    /\ F64.toQ (F64.computeLnawFromX x2) = Some b /\ b < a.
Proof.
  unfold F64.lnawDrops.
  destruct (F64.toQ (F64.computeLnawFromX x1)) as [a|] eqn:Ea;
    [|discriminate].
  destruct (F64.toQ (F64.computeLnawFromX x2)) as [b|] eqn:Eb;
    [|discriminate].
  intros H. exists a, b. split; [reflexivity|]. split; [reflexivity|].
  apply Qnot_le_lt. intros L. apply Qle_bool_iff in L. rewrite L in H.
  discriminate.
Qed.

Lemma lnaw_sampled_step (k : Z) :
  (0 <= k < 3000)%Z -> F64.lnawDrops (xGrid k) (xGrid (k + 1)) = true.
Proof.
  intros Hk.
  apply (forallbFrom_spec (fun k => F64.lnawDrops (xGrid k) (xGrid (k + 1)))
           (Z.to_nat 3000) 0); [vm_compute; reflexivity|rewrite Z2Nat.id; lia].
Qed.

Lemma lnaw_sampled (i j : Z) :
  (0 <= i < j)%Z -> (j <= 3000)%Z ->
  exists a b,
    F64.toQ (F64.computeLnawFromX (xGrid i)) = Some a
    /\ F64.toQ (F64.computeLnawFromX (xGrid j)) = Some b /\ b < a.
Proof.
  intros Hij Hj.
  assert (G : forall n : nat,
            (i + 1 + Z.of_nat n <= 3000)%Z ->
            exists a b,
              F64.toQ (F64.computeLnawFromX (xGrid i)) = Some a
              /\ F64.toQ (F64.computeLnawFromX (xGrid (i + 1 + Z.of_nat n)))
                 = Some b /\ b < a).
  { induction n as [|n IH]; intros Hn.
    - rewrite Z.add_0_r. apply lnawDrops_spec, lnaw_sampled_step. lia.
    - destruct IH as (a & b & Ea & Eb & Hab); [lia|].
      destruct (lnawDrops_spec _ _
                  (lnaw_sampled_step (i + 1 + Z.of_nat n) ltac:(lia)))
        as (b' & c & Eb' & Ec & Hbc).
      rewrite Eb in Eb'. injection Eb' as <-.
      replace (i + 1 + Z.of_nat (S n))%Z with (i + 1 + Z.of_nat n + 1)%Z
        by lia.
      exists a, c. split; [exact Ea|]. split; [exact Ec|]. lra. }
  destruct (G (Z.to_nat (j - i - 1))) as (a & b & Ea & Eb & Hab);
    [rewrite Z2Nat.id; lia|].
  replace (i + 1 + Z.of_nat (Z.to_nat (j - i - 1)))%Z with j in Eb
    by (rewrite Z2Nat.id; lia).
  eauto.
Qed.

(** C5, as the code has it.  In exact arithmetic [computeLnawFromX] is
    strictly decreasing on [0, 0.3].  In binary64 it is strictly
    decreasing along the sampled mole fractions [k / 10000],
    [0 <= k <= 3000]: of two of them the larger has the strictly lower
    ln(aw). *)
Theorem computeLnawFromX_decreasing_exact_and_sampled :
  (forall X1 X2 : Q,
      0 <= X1 -> X1 < X2 -> X2 <= 0.3 ->
      (computeLnawFromX (Fin X1) >? computeLnawFromX (Fin X2))%num = true)
  /\ (forall i j : Z,
        (0 <= i < j)%Z -> (j <= 3000)%Z ->
        exists a b,
          F64.toQ (F64.computeLnawFromX (xGrid i)) = Some a
          /\ F64.toQ (F64.computeLnawFromX (xGrid j)) = Some b
          /\ b < a).
Proof.
  split.
  - exact computeLnawFromX_strictly_decreasing.
  - exact lnaw_sampled.
Qed.

Lemma computeLnawFromX_decreasing_exact_and_sampled_witness :
  (computeLnawFromX (Fin 0.1) >? computeLnawFromX (Fin 0.2))%num = true
  /\ (exists a b,
        F64.toQ (F64.computeLnawFromX (xGrid 1000)) = Some a
        /\ F64.toQ (F64.computeLnawFromX (xGrid 2000)) = Some b
        /\ b < a).
Proof.
  split.
  - apply (proj1 computeLnawFromX_decreasing_exact_and_sampled 0.1 0.2); lra.
  - apply (proj2 computeLnawFromX_decreasing_exact_and_sampled 1000%Z 2000%Z);
      lia.
Defined.

(** C5 as stated fails in binary64: between two neighbouring doubles of
    [0, 0.3] the computed ln(aw) rises, by one unit in its last place. *)
Lemma computeLnawFromX_binary64_counterexample :
  exists q1 q2 a b,
    F64.toQ 0.03069999999999987%float = Some q1
    /\ F64.toQ 0.030699999999999873%float = Some q2
    /\ 0 <= q1 /\ q1 < q2 /\ q2 <= 0.3
    /\ F64.toQ (F64.computeLnawFromX 0.03069999999999987%float) = Some a
    /\ F64.toQ (F64.computeLnawFromX 0.030699999999999873%float) = Some b
    /\ a < b.
Proof.
  eexists. eexists. eexists. eexists.
  split; [vm_compute; reflexivity|]. split; [vm_compute; reflexivity|].
  split; [vm_compute; discriminate|]. split; [vm_compute; reflexivity|].
  split; [vm_compute; discriminate|].
  split; [vm_compute; reflexivity|]. split; [vm_compute; reflexivity|].
  vm_compute. reflexivity.
Qed.

End Binary64.
